(** * RedisRTC: a read-through cache with a Redis backed priority queue

    Shallow embedding of [RedisRTC], package [redisutil]: the Redis keys
    it owns, the commands it sends, and the Go functions built from them
    ([enqueue], [dequeue], [writeWorkerResult], [isFinished],
    [getResultErr], [Get], [Warm], [waitFor], the worker loop, the dequeue
    loop and the notifier started by [startWorkScheduler]).

    Conventions.
    - A Go [string] and a Go [[]byte] are both a [string] here (a list of
      bytes).  A Go [error] is its message.  A Go [interface{}] that may be
      [nil] is an [option].
    - A Go pair [(value, error)] is a pair of options: nothing in Go forces
      exactly one half to be set, and the code tests the halves separately.
    - Every [c.Do] is one round trip to Redis and is atomic there: a
      [MULTI] ... [EXEC] block is one transaction, a lone command is one
      command.  Each is one function on the store below; the Go functions
      are their compositions, and the interleaving model at the end of the
      file lets other goroutines run between two round trips of the same
      function.
    - The connection is assumed reliable: no [c.Do] returns a transport
      error, so the branches that only log or forward such an error are not
      represented.
    - A score of the sorted set is the double that Redis keeps for the
      [int64] priority that was sent with [ZADD]; such a double is a whole
      number, and the score is that number here ([to_double],
      [Int64_reply]).  It is the priority itself up to 2^53 in absolute
      value.
    - The interleaving model has the goroutines of one process; the store
      is changed by them only. *)

From Stdlib Require Import ZArith String Ascii List.
From Stdlib Require Import Sorted.
From stdpp Require Import gmap strings list fin_maps.

Local Open Scope Z_scope.
Local Open Scope string_scope.

(** ** Keys *)

Definition QUEUE_PREFIX : string := "rc:".

(** The string fields of [RedisRTC]. *)
Record RedisRTC := mkRedisRTC {
  queueKey : string;
  inProgressKey : string;
  keyPrefix : string;
  errKeyPrefix : string;
  workReadyKey : string;
  finishedChannel : string;
}.

(** The keys computed by [NewReadThroughCache]. *)
Definition NewReadThroughCache_keys (queueName : string) : RedisRTC :=
  let queueKey := QUEUE_PREFIX +:+ queueName in
  let keyPrefix := queueKey +:+ ":k:" in
  let errKeyPrefix := queueKey +:+ ":er:" in
  let finishedChannel := queueKey +:+ ":ch" in
  {| queueKey := queueKey;
     workReadyKey := queueKey +:+ ":wr";
     inProgressKey := queueKey +:+ ":inp";
     finishedChannel := finishedChannel;
     keyPrefix := keyPrefix;
     errKeyPrefix := errKeyPrefix |}.

Definition key (r : RedisRTC) (id : string) : string := keyPrefix r +:+ id.
Definition errorKey (r : RedisRTC) (id : string) : string := errKeyPrefix r +:+ id.

(** ** The store

    The part of the Redis key space that belongs to one [RedisRTC].  The
    keys [key id] and [errorKey id] are all different from one another and
    from the four fixed keys (lemmas [key_inj], [errorKey_inj],
    [key_errorKey_ne], [record_keys_not_fixed] below), so the string values
    are kept in two maps indexed by [id]. *)

Record Redis := mkRedis {
  (** sorted set at [queueKey]: member [id], score [priority] *)
  queue : gmap string Z;
  (** list at [workReadyKey] *)
  workReady : list string;
  (** set at [inProgressKey] *)
  inProgress : gset string;
  (** string at [key id] (never given a TTL) *)
  results : gmap string string;
  (** string at [errorKey id] with the time at which it expires, when it
      was given a TTL *)
  errors : gmap string (string * option Z);
  (** messages published on [finishedChannel] and not yet received by the
      subscriber of this process *)
  chan : list string;
  (** the clock of the Redis server, in seconds *)
  now : Z;
}.

Definition emptyRedis : Redis :=
  {| queue := ∅; workReady := []; inProgress := ∅; results := ∅;
     errors := ∅; chan := []; now := 0 |}.

(** Time passes: [d] seconds later. *)
Definition tick (d : Z) (s : Redis) : Redis :=
  {| queue := queue s; workReady := workReady s; inProgress := inProgress s;
     results := results s; errors := errors s; chan := chan s;
     now := now s + d |}.

(** ** Commands *)

(** [GET key(id)] *)
Definition GET_key (s : Redis) (id : string) : option string := results s !! id.

(** [GET errorKey(id)]: an expired key is gone. *)
Definition GET_errorKey (s : Redis) (id : string) : option string :=
  match errors s !! id with
  | Some (msg, Some expiry) => if bool_decide (now s < expiry)%Z then Some msg else None
  | Some (msg, None) => Some msg
  | None => None
  end.

(** [EXISTS key(id)] and [EXISTS errorKey(id)], as the integer reply. *)
Definition EXISTS_key (s : Redis) (id : string) : Z :=
  if GET_key s id is Some _ then 1 else 0.
Definition EXISTS_errorKey (s : Redis) (id : string) : Z :=
  if GET_errorKey s id is Some _ then 1 else 0.

(** Redis keeps a score as a double.  A priority is sent in decimal and
    Redis keeps the double nearest to it, ties going to the even mantissa of
    53 bits: the priority itself up to 2^53 in absolute value, a rounded
    whole number beyond. *)
Definition to_double (z : Z) : Z :=
  let a := Z.abs z in
  if Z.leb a (2 ^ 53) then z
  else
    let e := (Z.log2 a - 52)%Z in
    let m := Z.shiftr a e in
    let r := (a - Z.shiftl m e)%Z in
    let half := Z.shiftl 1 (e - 1) in
    let m' := if Z.ltb half r || (Z.eqb r half && Z.odd m) then (m + 1)%Z else m in
    (Z.sgn z * Z.shiftl m' e)%Z.

(** [redis.Int64] of a score in a reply.  Redis writes a score with 17
    significant digits ([%.17g]): all its digits below 10^17, and in
    exponent form from there on, which [strconv.ParseInt] refuses; [None]
    is that error. *)
Definition Int64_reply (score : Z) : option Z :=
  if Z.ltb (Z.abs score) (10 ^ 17) then Some score else None.

Global Arguments to_double : simpl never.
Global Arguments Int64_reply : simpl never.

(** The priorities that Redis keeps and returns as they are. *)
Definition exact_score (priority : Z) : Prop := (Z.abs priority ≤ 2 ^ 53)%Z.

(** [ZSCORE queueKey id]: [nil] when [id] is not a member. *)
Definition ZSCORE (s : Redis) (id : string) : option Z := queue s !! id.

(** [SISMEMBER inProgressKey id], as the integer reply. *)
Definition SISMEMBER (s : Redis) (id : string) : Z :=
  if bool_decide (id ∈ inProgress s) then 1 else 0.

(** [ZADD queueKey priority id]: adds the member or updates its score. *)
Definition ZADD (priority : Z) (id : string) (s : Redis) : Redis :=
  {| queue := <[id := to_double priority]> (queue s); workReady := workReady s;
     inProgress := inProgress s; results := results s; errors := errors s;
     chan := chan s; now := now s |}.

(** [RPUSH workReadyKey v] *)
Definition RPUSH (v : string) (s : Redis) : Redis :=
  {| queue := queue s; workReady := workReady s ++ [v];
     inProgress := inProgress s; results := results s; errors := errors s;
     chan := chan s; now := now s |}.

(** [BLPOP workReadyKey 1]: the head of the list, or [nil] after the
    timeout when the list stayed empty. *)
Definition BLPOP (s : Redis) : option string * Redis :=
  match workReady s with
  | [] => (None, s)
  | v :: rest =>
      (Some v,
       {| queue := queue s; workReady := rest; inProgress := inProgress s;
          results := results s; errors := errors s; chan := chan s;
          now := now s |})
  end.

(** Order of a sorted set: by score, members of equal score in
    lexicographic order of their bytes. *)
Definition entry_le (a b : string * Z) : bool :=
  Z.ltb a.2 b.2 || (Z.eqb a.2 b.2 && String.leb a.1 b.1).

Definition entry_min (e : string * Z) (acc : option (string * Z)) : option (string * Z) :=
  match acc with
  | None => Some e
  | Some m => if entry_le e m then Some e else Some m
  end.

(** The element of rank 0. *)
Definition zfirst (q : gmap string Z) : option (string * Z) :=
  foldr entry_min None (map_to_list q).

(** [ZRANGE queueKey 0 0 WITHSCORES] *)
Definition ZRANGE_0_0 (s : Redis) : option (string * Z) := zfirst (queue s).

(** [ZREMRANGEBYRANK queueKey 0 0]: the number of removed elements and the
    store without the element of rank 0. *)
Definition ZREMRANGEBYRANK_0_0 (s : Redis) : Z * Redis :=
  match zfirst (queue s) with
  | None => (0, s)
  | Some (id, _) =>
      (1, {| queue := delete id (queue s); workReady := workReady s;
             inProgress := inProgress s; results := results s;
             errors := errors s; chan := chan s; now := now s |})
  end.

(** [ZCARD queueKey] *)
Definition ZCARD (s : Redis) : Z := Z.of_nat (size (queue s)).

(** [SADD inProgressKey id] *)
Definition SADD (id : string) (s : Redis) : Redis :=
  {| queue := queue s; workReady := workReady s;
     inProgress := {[id]} ∪ inProgress s; results := results s;
     errors := errors s; chan := chan s; now := now s |}.

(** [SREM inProgressKey id] *)
Definition SREM (id : string) (s : Redis) : Redis :=
  {| queue := queue s; workReady := workReady s;
     inProgress := inProgress s ∖ {[id]}; results := results s;
     errors := errors s; chan := chan s; now := now s |}.

(** [SET key(id) data] *)
Definition SET_key (id data : string) (s : Redis) : Redis :=
  {| queue := queue s; workReady := workReady s; inProgress := inProgress s;
     results := <[id := data]> (results s); errors := errors s;
     chan := chan s; now := now s |}.

(** [SET errorKey(id) data]: a plain [SET] leaves the key without TTL. *)
Definition SET_errorKey (id data : string) (s : Redis) : Redis :=
  {| queue := queue s; workReady := workReady s; inProgress := inProgress s;
     results := results s; errors := <[id := (data, None)]> (errors s);
     chan := chan s; now := now s |}.

(** [EXPIRE errorKey(id) ttl]: no effect on a key that does not exist. *)
Definition EXPIRE_errorKey (id : string) (ttl : Z) (s : Redis) : Redis :=
  {| queue := queue s; workReady := workReady s; inProgress := inProgress s;
     results := results s;
     errors := alter (λ e, (e.1, Some (now s + ttl))) id (errors s);
     chan := chan s; now := now s |}.

(** [PUBLISH finishedChannel msg] *)
Definition PUBLISH (msg : string) (s : Redis) : Redis :=
  {| queue := queue s; workReady := workReady s; inProgress := inProgress s;
     results := results s; errors := errors s; chan := chan s ++ [msg];
     now := now s |}.

(** ** The task queue *)

(** [workerTask] *)
Record workerTask := mkTask { task_id : string; task_priority : Z }.

(** Replies of the first transaction of [enqueue]:
    [ZSCORE], [SISMEMBER], [EXISTS key], [EXISTS errorKey]. *)
Record enqueueVals := mkVals {
  inQueueScore : option Z;
  isInProgressV : Z;
  foundResult : Z;
  foundError : Z;
}.

Definition enqueue_check (s : Redis) (id : string) : enqueueVals :=
  {| inQueueScore := ZSCORE s id;
     isInProgressV := SISMEMBER s id;
     foundResult := EXISTS_key s id;
     foundError := EXISTS_errorKey s id |}.

Definition enq_isInProgress (rv : enqueueVals) : bool := Z.eqb (isInProgressV rv) 1.
Definition enq_found (rv : enqueueVals) : bool := Z.ltb 0 (foundResult rv + foundError rv).

(** [oldPriority, _ := redis.Int64(inQueueScore, nil)]: the error is
    dropped, and [oldPriority] is 0 with it. *)
Definition oldPriority (score : Z) : Z := default 0%Z (Int64_reply score).

(** Whether [enqueue] goes on to its second transaction. *)
Definition enq_saveId (rv : enqueueVals) (priority : Z) : bool :=
  if negb (enq_isInProgress rv) && negb (enq_found rv) then
    match inQueueScore rv with
    | Some score => Z.ltb priority (oldPriority score)
    | None => true
    end
  else false.

(** The second transaction of [enqueue]: [ZADD] and [RPUSH]. *)
Definition enqueue_save (id : string) (priority : Z) (s : Redis) : Redis :=
  RPUSH "W" (ZADD priority id s).

(** [enqueue] run without interruption: the value of [found] and the
    store it leaves. *)
Definition enqueue (s : Redis) (id : string) (priority : Z) : bool * Redis :=
  let rv := enqueue_check s id in
  (enq_found rv, if enq_saveId rv priority then enqueue_save id priority s else s).

(** The transaction of [dequeue]: the replies of [ZRANGE], of
    [ZREMRANGEBYRANK] and of [ZCARD], and the store it leaves. *)
Definition dequeue_pop (s : Redis) : (option (string * Z) * Z * Z) * Redis :=
  let first := ZRANGE_0_0 s in
  let '(count, s1) := ZREMRANGEBYRANK_0_0 s in
  ((first, count, ZCARD s1), s1).

(** The error of [dequeue]: that of [redis.Int64] on the score of the
    entry it has popped, kept as that score. *)
Inductive dequeueError := NotAnInt64 (score : Z).

(** [dequeue] run without interruption: the task, the number of items left
    and the error.  The error comes after the transaction: the entry is
    out of the queue then, and not in the in-progress set. *)
Definition dequeue (s : Redis)
  : (option workerTask * Z * option dequeueError) * Redis :=
  let '((first, count, card), s1) := dequeue_pop s in
  if Z.eqb count 0 then ((None, 0, None), s1)
  else
    match first with
    | Some (id, score) =>
        match Int64_reply score with
        | Some priority => ((Some (mkTask id priority), card, None), SADD id s1)
        | None => ((None, 0, Some (NotAnInt64 score)), s1)
        end
    | None => ((None, 0, None), s1) (* no reply has count 1 and no element *)
    end.

(** [isFinished]: one transaction with the two [EXISTS]. *)
Definition isFinished (s : Redis) (id : string) : bool :=
  Z.ltb 0 (EXISTS_key s id + EXISTS_errorKey s id).

(** ** The codec and the worker function *)

(** [util.LRUCodec]: the interface is declared outside this package; its
    two methods are taken as they are called here. *)
Class LRUCodec (V : Type) := {
  Encode : option V → string * option string;
  Decode : string → option V * option string;
}.

(** What a call of the [rtcache.ReadThroughFunc] does: it returns its pair,
    or it panics. *)
Inductive callOutcome (V : Type) :=
| Returns (result : option V) (err : option string)
| Panics.
Arguments Returns {V} result err.
Arguments Panics {V}.

(** What [Get] hands back in its [interface{}]: the stored bytes when
    [returnBytes] is set, the decoded value otherwise. *)
Inductive item (V : Type) :=
| Raw (b : string)
| Val (v : V).
Arguments Raw {V} b.
Arguments Val {V} v.

(** Which of the two keys [writeWorkerResult] writes. *)
Inductive writeKey := WriteKey | WriteErrorKey.

Section Cache.
Context {V : Type} `{codec : LRUCodec V}.
Variable worker : Z → string → callOutcome V.

(** [writeWorkerResult] after the worker returned: [writeKey],
    [writeData] and whether [err != nil] at the [EXPIRE] test. *)
Definition worker_record (result : option V) (err : option string)
  : writeKey * string * bool :=
  match err with
  | Some e => (WriteErrorKey, e, true)
  | None =>
      match Encode result with
      | (_, Some e) => (WriteErrorKey, "Error encoding worker result: " +:+ e, true)
      | (writeData, None) => (WriteKey, writeData, false)
      end
  end.

(** The transaction of [writeWorkerResult]: [SET], [SREM], [EXPIRE] when
    [err != nil], [PUBLISH]. *)
Definition write_exec (id : string) (w : writeKey * string * bool) (s : Redis) : Redis :=
  let '(wk, writeData, isErr) := w in
  let s1 := match wk with
            | WriteKey => SET_key id writeData s
            | WriteErrorKey => SET_errorKey id writeData s
            end in
  let s2 := SREM id s1 in
  let s3 := if isErr
            then match wk with
                 | WriteErrorKey => EXPIRE_errorKey id 10 s2
                 | WriteKey => s2 (* never: [err != nil] selects [errorKey] *)
                 end
            else s2 in
  PUBLISH id s3.

(** [writeWorkerResult]: [None] when the worker panicked, which unwinds
    the goroutine before anything is sent to Redis. *)
Definition writeWorkerResult (s : Redis) (priority : Z) (id : string) : option Redis :=
  match worker priority id with
  | Returns result err => Some (write_exec id (worker_record result err) s)
  | Panics => None
  end.

(** The loop of one worker goroutine over the tasks it receives from
    [workCh] before the shutdown signal. *)
Inductive loopEnd :=
| LoopShutdown (s : Redis)                      (* [break WorkerLoop] *)
| LoopPanic (s : Redis) (left : list workerTask). (* goroutine unwound *)

Fixpoint workerLoop (tasks : list workerTask) (s : Redis) : loopEnd :=
  match tasks with
  | [] => LoopShutdown s
  | t :: rest =>
      match writeWorkerResult s (task_priority t) (task_id t) with
      | Some s' => workerLoop rest s'
      | None => LoopPanic s rest
      end
  end.

(** ** The completion notifier

    The state owned by the goroutine of [startWorkScheduler]: the map
    [watchIds], and the channels [notifyCh] on which [true] was sent (each
    has room for one value and is closed right after, so the send never
    blocks and a channel receives at most once).  A channel is named by a
    number. *)
Record Notifier := mkNotifier {
  watchIds : gmap string (list nat);
  delivered : gset nat;
}.

Definition emptyNotifier : Notifier := {| watchIds := ∅; delivered := ∅ |}.

(** [doneSub] *)
Record doneSub := mkSub { sub_id : string; sub_notifyCh : nat }.

(** [notifyChannels] *)
Definition notifyChannels (id : string) (n : Notifier) : Notifier :=
  {| watchIds := delete id (watchIds n);
     delivered := delivered n ∪ list_to_set (default [] (watchIds n !! id)) |}.

(** One round of the loop of [notifyAll]. *)
Definition notifyAll_visit (s : Redis) (id : string) (n : Notifier) : Notifier :=
  if isFinished s id then notifyChannels id n else n.

(** [notifyAll] against a store that does not change meanwhile; [range]
    visits the keys in some order. *)
Fixpoint notifyAll_range (s : Redis) (ids : list string) (n : Notifier) : Notifier :=
  match ids with
  | [] => n
  | id :: rest => notifyAll_range s rest (notifyAll_visit s id n)
  end.

Definition notifyAll (s : Redis) (n : Notifier) : Notifier :=
  notifyAll_range s (elements (dom (watchIds n))) n.

(** [case subscription := <-doneCh] *)
Definition on_subscription (s : Redis) (sub : doneSub) (n : Notifier) : Notifier :=
  let chs : list nat :=
    (default [] (watchIds n !! sub_id sub) ++ [sub_notifyCh sub])%list in
  let n1 := {| watchIds := <[sub_id sub := chs]> (watchIds n);
               delivered := delivered n |} in
  if isFinished s (sub_id sub) then notifyChannels (sub_id sub) n1 else n1.

(** [case finishedId := <-finishedCh] *)
Definition on_finished (s : Redis) (finishedId : string) (n : Notifier) : Notifier :=
  if bool_decide (finishedId = "") then notifyAll s n
  else notifyChannels finishedId n.

(** ** The facade *)

(** [getResultErr]: one transaction with the two [GET]. *)
Definition getResultErr (s : Redis) (id : string) (returnBytes : bool)
  : option (item V) * option string :=
  let retBytes := GET_key s id in
  let errBytes := GET_errorKey s id in
  match errBytes with
  | Some e => (None, Some ("For " +:+ id +:+ " we received error: " +:+ e))
  | None =>
      match retBytes with
      | Some b =>
          if returnBytes then (Some (Raw b), None)
          else let '(v, err) := Decode b in (Val <$> v, err)
      | None => (None, None)
      end
  end.

(** The end of [waitFor], from its call of [getResultErr]. *)
Definition waitFor_result (s : Redis) (id : string) (returnBytes : bool)
  : option (item V) * option string :=
  match getResultErr s id returnBytes with
  | (_, Some err) => (None, Some err)
  | (None, None) => (None, Some ("Unable to retrieve result for id: " +:+ id))
  | (Some ret, None) => (Some ret, None)
  end.

(** [Get] up to the point where it returns or blocks on its
    [finishedCh]. *)
Inductive getProgress :=
| GetReturned (ret : option (item V)) (err : option string)
| GetBlocked.   (* subscription sent, waiting on [<-finishedCh] *)

Definition Get_start (s : Redis) (priority : Z) (returnBytes : bool) (id : string)
  : getProgress * Redis :=
  match getResultErr s id returnBytes with
  | (None, None) =>
      let '(found, s1) := enqueue s id priority in
      if found then
        let '(ret, err) := waitFor_result s1 id returnBytes in
        (GetReturned ret err, s1)
      else (GetBlocked, s1)
  | (ret, err) => (GetReturned ret err, s)
  end.

(** [Get] after its [finishedCh] delivered, on the store of that
    moment. *)
Definition Get_resume (s : Redis) (returnBytes : bool) (id : string)
  : option (item V) * option string :=
  waitFor_result s id returnBytes.

(** [Warm] keeps the error of [Get priority true id]. *)
Definition Warm_of (r : option (item V) * option string) : option string := r.2.

(** [Warm] up to the point where its [Get] returns or blocks: the error
    that [Warm] returns ([None] for [nil]) when [Get] returned, nothing
    while [Get] is blocked. *)
Definition Warm_start (s : Redis) (priority : Z) (id : string)
  : option (option string) * Redis :=
  let '(g, s') := Get_start s priority true id in
  (match g with
   | GetReturned ret err => Some (Warm_of (ret, err))
   | GetBlocked => None
   end, s').

(** ** The goroutines of one process, interleaved

    Each goroutine is a program counter; one step of a goroutine is one
    round trip to Redis (or one channel operation), and any goroutine
    that can move may take the next step. *)

(** A call of [Get] or of [Warm]. *)
Inductive call :=
| CallGet (priority : Z) (returnBytes : bool) (id : string)
| CallWarm (priority : Z) (id : string).

Definition call_priority (c : call) : Z :=
  match c with CallGet p _ _ => p | CallWarm p _ => p end.
Definition call_id (c : call) : string :=
  match c with CallGet _ _ id => id | CallWarm _ id => id end.
(** [Warm] calls [r.Get(priority, true, id)]. *)
Definition call_returnBytes (c : call) : bool :=
  match c with CallGet _ rb _ => rb | CallWarm _ _ => true end.

(** Where a caller stands inside [Get]. *)
Inductive callerPc :=
| AtGet         (* [Get]: before [getResultErr] *)
| AtEnqueue     (* [enqueue]: before its first transaction *)
| AtSave        (* [enqueue]: [saveId] is true, before [ZADD]/[RPUSH];
                   [found] is false then ([enq_saveId_not_found]) *)
| AtSubscribe   (* [waitFor]: before [r.doneCh <- &doneSub{id, finishedCh}] *)
| AtBlocked     (* [waitFor]: at [<-finishedCh] *)
| AtRecheck     (* [waitFor]: before [getResultErr] *)
| AtReturn (ret : option (item V)) (err : option string).

Record caller := mkCaller { c_call : call; c_pc : callerPc }.

(** The goroutine of [getWorkChannel]. *)
Inductive schedPc :=
| SCheck        (* [hasMore] is false: before [checkForWork] *)
| SDequeue      (* before the transaction of [dequeue] *)
| SSadd (id : string) (priority : Z) (itemsLeft : Z)   (* before [SADD] *)
| SSend (t : workerTask) (hasMore : bool).             (* at [ret <- workTask] *)

(** A goroutine of [startWorkers]. *)
Inductive workerPc :=
| WReceive                        (* at [task = <-workCh] *)
| WCall (t : workerTask)          (* before [r.worker(priority, id)] *)
| WWrite (id : string) (w : writeKey * string * bool). (* before [EXEC] *)

Record Sys := mkSys {
  store : Redis;
  (** caller number [i] owns the channel [i] *)
  callers : list caller;
  notifier : Notifier;
  (** keys that the [range] of a running [notifyAll] has yet to visit *)
  sweeping : gset string;
  sched : schedPc;
  workers : list workerPc;
  (** every call of the worker function so far *)
  calls : list (Z * string);
  (** a panic reached the top of a goroutine: the process is gone *)
  panicked : bool;
}.

Definition init (s0 : Redis) (nWorkers : nat) : Sys :=
  {| store := s0; callers := []; notifier := emptyNotifier; sweeping := ∅;
     sched := SCheck; workers := replicate nWorkers WReceive; calls := [];
     panicked := false |}.

Definition set_store (s : Redis) (y : Sys) : Sys :=
  {| store := s; callers := callers y; notifier := notifier y;
     sweeping := sweeping y; sched := sched y; workers := workers y;
     calls := calls y; panicked := panicked y |}.
Definition set_caller (i : nat) (c : call) (pc : callerPc) (y : Sys) : Sys :=
  {| store := store y; callers := <[i := mkCaller c pc]> (callers y);
     notifier := notifier y; sweeping := sweeping y; sched := sched y;
     workers := workers y; calls := calls y; panicked := panicked y |}.
Definition set_notifier (n : Notifier) (sw : gset string) (y : Sys) : Sys :=
  {| store := store y; callers := callers y; notifier := n; sweeping := sw;
     sched := sched y; workers := workers y; calls := calls y;
     panicked := panicked y |}.
Definition set_sched (p : schedPc) (y : Sys) : Sys :=
  {| store := store y; callers := callers y; notifier := notifier y;
     sweeping := sweeping y; sched := p; workers := workers y;
     calls := calls y; panicked := panicked y |}.
Definition set_worker (w : nat) (p : workerPc) (y : Sys) : Sys :=
  {| store := store y; callers := callers y; notifier := notifier y;
     sweeping := sweeping y; sched := sched y;
     workers := <[w := p]> (workers y); calls := calls y;
     panicked := panicked y |}.

(** A goroutine enters [Get]: it is the next caller. *)
Definition add_caller (c : call) (y : Sys) : Sys :=
  {| store := store y; callers := callers y ++ [mkCaller c AtGet];
     notifier := notifier y; sweeping := sweeping y; sched := sched y;
     workers := workers y; calls := calls y; panicked := panicked y |}.

(** The store without the first message of the channel. *)
Definition receive (s : Redis) : Redis :=
  {| queue := queue s; workReady := workReady s; inProgress := inProgress s;
     results := results s; errors := errors s; chan := tail (chan s);
     now := now s |}.

(** Where [Get] goes after its [getResultErr]: it returns unless both
    halves are [nil]. *)
Definition after_get (r : option (item V) * option string) : callerPc :=
  match r with
  | (None, None) => AtEnqueue
  | (ret, err) => AtReturn ret err
  end.

(** Where [enqueue] and [waitFor] go after the first transaction. *)
Definition after_check (rv : enqueueVals) (priority : Z) : callerPc :=
  if enq_saveId rv priority then AtSave
  else if enq_found rv then AtRecheck else AtSubscribe.

(** A caller's next step. [None]: it cannot move now. *)
Definition caller_step (i : nat) (y : Sys) : option Sys :=
  match callers y !! i with
  | None => None
  | Some (mkCaller c pc) =>
      let id := call_id c in
      match pc with
      | AtGet =>
          Some (set_caller i c
                  (after_get (getResultErr (store y) id (call_returnBytes c))) y)
      | AtEnqueue =>
          Some (set_caller i c
                  (after_check (enqueue_check (store y) id) (call_priority c)) y)
      | AtSave =>
          Some (set_caller i c AtSubscribe
                  (set_store (enqueue_save id (call_priority c) (store y)) y))
      | AtSubscribe =>
          (* the notifier takes the subscription at its [select] *)
          if bool_decide (sweeping y = ∅) then
            Some (set_caller i c AtBlocked
                    (set_notifier
                       (on_subscription (store y) (mkSub id i) (notifier y))
                       ∅ y))
          else None
      | AtBlocked =>
          if bool_decide (i ∈ delivered (notifier y))
          then Some (set_caller i c AtRecheck y) else None
      | AtRecheck =>
          let r := waitFor_result (store y) id (call_returnBytes c) in
          Some (set_caller i c (AtReturn r.1 r.2) y)
      | AtReturn _ _ => None
      end
  end.

(** The next step of the dequeue loop, handing over apart. *)
Definition sched_step (y : Sys) : option Sys :=
  match sched y with
  | SCheck =>
      (* [checkForWork] is true after a pop and after a timeout *)
      Some (set_sched SDequeue (set_store (BLPOP (store y)).2 y))
  | SDequeue =>
      let '((first, count, card), s1) := dequeue_pop (store y) in
      if Z.eqb count 0 then Some (set_sched SCheck (set_store s1 y))
      else
        match first with
        | Some (id, score) =>
            match Int64_reply score with
            | Some priority =>
                Some (set_sched (SSadd id priority card) (set_store s1 y))
            | None =>
                (* [dequeue] returns the error of [redis.Int64]: it is logged
                   and the loop goes round with [hasMore] still true *)
                Some (set_sched SDequeue (set_store s1 y))
            end
        | None => None
        end
  | SSadd id priority itemsLeft =>
      Some (set_sched (SSend (mkTask id priority) (Z.ltb 0 itemsLeft))
              (set_store (SADD id (store y)) y))
  | SSend _ _ => None
  end.

(** [ret <- workTask] meets [task = <-workCh] of worker [w]. *)
Definition handoff_step (w : nat) (y : Sys) : option Sys :=
  match sched y, workers y !! w with
  | SSend t hasMore, Some WReceive =>
      Some (set_worker w (WCall t)
              (set_sched (if hasMore then SDequeue else SCheck) y))
  | _, _ => None
  end.

(** The worker function is entered for task [t]. *)
Definition log_call (t : workerTask) (y : Sys) : Sys :=
  {| store := store y; callers := callers y; notifier := notifier y;
     sweeping := sweeping y; sched := sched y; workers := workers y;
     calls := calls y ++ [(task_priority t, task_id t)];
     panicked := panicked y |}.

(** A panic unwinds a goroutine to its top. *)
Definition panic (y : Sys) : Sys :=
  {| store := store y; callers := callers y; notifier := notifier y;
     sweeping := sweeping y; sched := sched y; workers := workers y;
     calls := calls y; panicked := true |}.

(** A worker's next step inside [writeWorkerResult]. *)
Definition worker_step (w : nat) (y : Sys) : option Sys :=
  match workers y !! w with
  | Some (WCall t) =>
      match worker (task_priority t) (task_id t) with
      | Returns result err =>
          Some (set_worker w (WWrite (task_id t) (worker_record result err))
                  (log_call t y))
      | Panics => Some (panic (log_call t y))
      end
  | Some (WWrite id w') =>
      Some (set_worker w WReceive (set_store (write_exec id w' (store y)) y))
  | _ => None
  end.

(** The notifier receives the next message of [finishedCh]. *)
Definition notifier_receive (y : Sys) : option Sys :=
  if bool_decide (sweeping y = ∅) then
    match chan (store y) with
    | [] => None
    | finishedId :: _ =>
        let y1 := set_store (receive (store y)) y in
        if bool_decide (finishedId = "")
        then Some (set_notifier (notifier y) (dom (watchIds (notifier y))) y1)
        else Some (set_notifier (notifyChannels finishedId (notifier y)) ∅ y1)
    end
  else None.

(** [notifyAll] visits [id], one of the keys it has yet to visit. *)
Definition notifier_visit (id : string) (y : Sys) : option Sys :=
  if bool_decide (id ∈ sweeping y) then
    Some (set_notifier (notifyAll_visit (store y) id (notifier y))
            (sweeping y ∖ {[id]}) y)
  else None.

Inductive action :=
| ACall (c : call)         (* a goroutine enters [Get] or [Warm] *)
| ACaller (i : nat)
| ASched
| AHandoff (w : nat)
| AWorker (w : nat)
| AReceive                 (* the notifier reads [finishedCh] *)
| AVisit (id : string)     (* the notifier, inside [notifyAll] *)
| AReconnect               (* the subscription (re)connected *)
| ADrop                    (* a message is lost while disconnected *)
| ATick (d : Z).           (* [d] seconds pass *)

Definition exec (a : action) (y : Sys) : option Sys :=
  if panicked y then None
  else
    match a with
    | ACall c => Some (add_caller c y)
    | ACaller i => caller_step i y
    | ASched => sched_step y
    | AHandoff w => handoff_step w y
    | AWorker w => worker_step w y
    | AReceive => notifier_receive y
    | AVisit id => notifier_visit id y
    | AReconnect => Some (set_store (PUBLISH "" (store y)) y)
    | ADrop =>
        match chan (store y) with
        | [] => None
        | _ :: _ => Some (set_store (receive (store y)) y)
        end
    | ATick d =>
        if bool_decide (0 ≤ d)%Z then Some (set_store (tick d (store y)) y)
        else None
    end.

Fixpoint run (tr : list action) (y : Sys) : option Sys :=
  match tr with
  | [] => Some y
  | a :: rest =>
      match exec a y with
      | Some y' => run rest y'
      | None => None
      end
  end.

(** How often the worker function was called for [id]. *)
Definition calls_for (id : string) (y : Sys) : nat :=
  length (filter (λ c, c.2 = id) (calls y)).

End Cache.

(** * States, invariants and runs used in the properties *)

(** A record of either kind is visible for [id]. *)
Definition resolved (s : Redis) (id : string) : Prop :=
  is_Some (GET_key s id) ∨ is_Some (GET_errorKey s id).

(** Every score in the queue is a priority that Redis keeps and returns as
    it is. *)
Definition scores_exact (s : Redis) : Prop :=
  ∀ id score, queue s !! id = Some score → exact_score score.

(** ** Invariants of the interleaving model *)

(** Each channel in [watchIds] belongs to a caller, filed under the id that
    this caller asked for. *)
Definition watch_wf {V : Type} (y : @Sys V) : Prop :=
  ∀ id chs i, watchIds (notifier y) !! id = Some chs → i ∈ chs →
    ∃ c pc, callers y !! i = Some (mkCaller c pc) ∧ call_id c = id.

(** [x] is an id and [R] a property of the store.  Every wake-up of a
    caller for [x] is backed by [R]: a message [x] in flight, a delivered
    channel of a caller for [x], and a caller for [x] about to re-read the
    store all imply [R]. *)
Record watching {V : Type} (x : string) (R : Redis → Prop) (y : @Sys V) : Prop :=
  mkWatching {
  w_chan : x ∈ chan (store y) → x = "" ∨ R (store y);
  w_bound : ∀ i, i ∈ delivered (notifier y) → (i < length (callers y))%nat;
  w_delivered : ∀ i c pc,
    i ∈ delivered (notifier y) → callers y !! i = Some (mkCaller c pc) →
    call_id c = x → R (store y);
  w_watch : watch_wf y;
  w_recheck : ∀ i c,
    callers y !! i = Some (mkCaller c AtRecheck) → call_id c = x → R (store y);
}.

(** [x] is in the in-progress set, without record and not queued. *)
Definition orphan (x : string) (s : Redis) : Prop :=
  results s !! x = None ∧ errors s !! x = None ∧ queue s !! x = None
  ∧ x ∈ inProgress s.

(** [x] is orphaned and no goroutine of the process holds a task for it
    (it was taken by a process that is gone). *)
Record lost {V : Type} (x : string) (y : @Sys V) : Prop := mkLost {
  l_store : orphan x (store y);
  l_sched :
    match sched y with
    | SSadd id _ _ => id ≠ x
    | SSend t _ => task_id t ≠ x
    | _ => True
    end;
  l_workers : ∀ w pc, workers y !! w = Some pc →
    match pc with
    | WCall t => task_id t ≠ x
    | WWrite id _ => id ≠ x
    | WReceive => True
    end;
  l_save : ∀ i c, callers y !! i = Some (mkCaller c AtSave) → call_id c ≠ x;
  l_watching : watching x (λ _, False) y;
}.

(** What [Get] hands back when the worker's payload is [P] and its
    encoding is [b]. *)
Definition payload {V : Type} (P : V) (b : string) (returnBytes : bool) : item V :=
  if returnBytes then Raw b else Val P.

(** No error record for [x], and no result record other than [b]. *)
Definition fresh (x b : string) (s : Redis) : Prop :=
  errors s !! x = None ∧ (results s !! x = None ∨ results s !! x = Some b).

Definition has_payload (x b : string) (s : Redis) : Prop := results s !! x = Some b.

(** The records of [x] only ever hold [b], the workers only ever write [b]
    for it, callers for [x] are woken only when [b] is there, and those
    that returned got the payload. *)
Record serving {V : Type} (x : string) (P : V) (b : string) (y : @Sys V) : Prop :=
  mkServing {
  s_store : fresh x b (store y);
  s_workers : ∀ w rec,
    workers y !! w = Some (WWrite x rec) → rec = (WriteKey, b, false);
  s_watching : watching x (has_payload x b) y;
  s_returned : ∀ i c ret err,
    callers y !! i = Some (mkCaller c (AtReturn ret err)) → call_id c = x →
    ret = Some (payload P b (call_returnBytes c)) ∧ err = None;
}.

(** ** Codecs and workers of the examples *)

(** Values are strings, stored as they are. *)
Definition stringCodec : LRUCodec string :=
  {| Encode v := (default "" v, None); Decode b := (Some b, None) |}.

(** A codec that tags what it stores; it refuses [nil]. *)
Definition taggedCodec : LRUCodec string :=
  {| Encode v :=
       match v with
       | Some v => ("s:" +:+ v, None)
       | None => ("", Some "nothing to encode")
       end;
     Decode bytes :=
       match bytes with
       | String "s" (String ":" v) => (Some v, None)
       | _ => (None, Some "not a tagged value")
       end |}.

(** A worker whose result depends on the priority it is called with. *)
Definition priorityWorker (priority : Z) (id : string) : callOutcome string :=
  Returns (Some (if Z.eqb priority 1 then "first" else "second")) None.

(** A worker that fails on ["bad"], panics on ["boom"] and returns [id]
    otherwise. *)
Definition pickyWorker (priority : Z) (id : string) : callOutcome string :=
  if bool_decide (id = "bad") then Returns None (Some "no such digest")
  else if bool_decide (id = "boom") then Panics
  else Returns (Some id) None.

(** ** Stores of the examples *)

(** The store after ["x"] was enqueued and then taken by [dequeue]. *)
Definition x_in_progress : Redis := (dequeue (enqueue emptyRedis "x" 1).2).2.

(** The three enqueues of the scenario, on an empty store. *)
Definition queued_a3_b1_c2 : Redis :=
  (enqueue (enqueue (enqueue emptyRedis "a" 3).2 "b" 1).2 "c" 2).2.

(** A store in which ["x"] has a result record and an error record: two
    workers finished for it, the second with an error. *)
Definition x_both_records : Redis :=
  write_exec "x" (WriteErrorKey, "disk full", true)
    (write_exec "x" (WriteKey, "pixels", false) emptyRedis).

(** ** Runs of the examples *)

(** Two callers ask for ["x"]; both run the first transaction of [enqueue]
    before either runs the second, and the dequeue loop takes ["x"] between
    the two [ZADD]. *)
Definition late_zadd (p0 p1 : Z) : list action :=
  [ ACall (CallGet p0 false "x"); ACall (CallGet p1 false "x");
    ACaller 0; ACaller 1;      (* [getResultErr]: nothing yet *)
    ACaller 0; ACaller 1;      (* [enqueue]: first transaction, twice *)
    ACaller 0;                 (* caller 0: [ZADD], [RPUSH] *)
    ASched; ASched; ASched;    (* [BLPOP]; pop ["x"]; [SADD] *)
    ACaller 1 ].               (* caller 1: [ZADD], [RPUSH] *)

(** [late_zadd p0 p1], then worker 0 computes ["x"] and caller 0 returns;
    the dequeue loop finds ["x"] queued again, worker 0 computes it a second
    time and caller 1 returns. *)
Definition computed_twice (p0 p1 : Z) : list action :=
  late_zadd p0 p1 ++
  [ AHandoff 0; AWorker 0; AWorker 0;   (* first call of the worker, written *)
    ACaller 0; ACaller 0; ACaller 0;    (* caller 0 subscribes, wakes, returns *)
    ASched; ASched; ASched;             (* [BLPOP]; pop ["x"] again; [SADD] *)
    AHandoff 0; AWorker 0; AWorker 0;   (* second call of the worker, written *)
    ACaller 1; ACaller 1; ACaller 1 ].  (* caller 1 subscribes, wakes, returns *)

(** Two callers ask for ["x"] and both run the first transaction of
    [enqueue]; caller 0 queues ["x"], the dequeue loop takes it and worker 0
    computes it and writes the result. *)
Definition first_write : list action :=
  [ ACall (CallGet 1 false "x"); ACall (CallGet 2 false "x");
    ACaller 0; ACaller 1;      (* [getResultErr]: nothing yet *)
    ACaller 0; ACaller 1;      (* [enqueue]: first transaction, twice *)
    ACaller 0;                 (* caller 0: [ZADD], [RPUSH] *)
    ASched; ASched; ASched;    (* [BLPOP]; pop ["x"]; [SADD] *)
    AHandoff 0; AWorker 0; AWorker 0 ].

(** The dequeue loop and worker 0 once more. *)
Definition second_write : list action :=
  [ ASched; ASched; ASched; AHandoff 0; AWorker 0; AWorker 0 ].

(** The run up to the transaction of [dequeue]: one caller has queued
    ["b"], the dequeue loop has popped it and not yet sent [SADD]. *)
Definition popped_not_yet_added : list action :=
  [ ACall (CallGet 1 false "b"); ACaller 0; ACaller 0; ACaller 0;
    ASched; ASched ].

(** A caller asks for ["boom"], the dequeue loop hands the task to worker
    0, and worker 0 calls the worker function. *)
Definition panic_run : list action :=
  [ ACall (CallGet 1 false "boom"); ACaller 0; ACaller 0; ACaller 0;
    ASched; ASched; ASched; AHandoff 0; AWorker 0 ].

(** A process starts on the store [x_in_progress], in which ["x"] was left
    in the in-progress set by a process that is gone; one caller asks for
    ["x"] and reaches [<-finishedCh]. *)
Definition wait_for_lost : list action :=
  [ ACall (CallGet 1 false "x"); ACaller 0; ACaller 0; ACaller 0 ].

(** A caller waits for ["x"]; the worker finishes and publishes, but the
    message is lost while the subscription is down; the subscription
    reconnects, the notifier receives the sentinel and visits ["x"]. *)
Definition lost_message_then_reconnect : list action :=
  [ ACall (CallGet 1 false "x"); ACaller 0; ACaller 0; ACaller 0; ACaller 0;
    ASched; ASched; ASched; AHandoff 0; AWorker 0; AWorker 0;
    ADrop; AReconnect; AReceive; AVisit "x";
    ACaller 0; ACaller 0 ].

(** One caller asks for [x] on an empty store and is served through the
    queue and the worker; a second caller asks afterwards. *)
Definition cold_then_warm (x : string) (priority : Z) (returnBytes : bool)
  : list action :=
  [ ACall (CallGet priority returnBytes x);
    ACaller 0; ACaller 0; ACaller 0;      (* miss; [enqueue]: check, [ZADD] *)
    ASched; ASched; ASched;               (* [BLPOP]; pop; [SADD] *)
    AHandoff 0; AWorker 0; AWorker 0;     (* the worker computes and writes *)
    ACaller 0; ACaller 0; ACaller 0;      (* subscribe, woken, re-check *)
    ACall (CallGet priority returnBytes x);
    ACaller 1 ].                          (* hit *)

(** * The rest of the package

    More of [redisutil]: the two listings kept for tests, [checkForWork],
    repeated calls of [enqueue] and [dequeue], the roles of the keys, and
    further invariants of the interleaving model. *)

(** Go's [int] on the 64-bit targets of this code: the value of an
    arithmetic result after wrap-around. *)
Definition wrap64 (z : Z) : Z := ((z + 2 ^ 63) mod 2 ^ 64 - 2 ^ 63)%Z.

(** The first [n] members of a sorted set, in rank order. *)
Fixpoint zrange_from (n : nat) (q : gmap string Z) : list (string * Z) :=
  match n with
  | O => []
  | S n =>
      match zfirst q with
      | None => []
      | Some (id, p) => (id, p) :: zrange_from n (delete id q)
      end
  end.

(** All members of a sorted set, in rank order. *)
Definition zsorted (q : gmap string Z) : list (string * Z) :=
  zrange_from (size q) q.

(** [ZRANGE queueKey start stop]: a negative index counts from the end,
    [start] is raised to 0, [stop] is lowered to the last rank, and the
    reply is empty when [start] is past [stop] or past the end. *)
Definition ZRANGE (s : Redis) (start stop : Z) : list string :=
  let llen := Z.of_nat (size (queue s)) in
  let start := if Z.ltb start 0 then (llen + start)%Z else start in
  let stop := if Z.ltb stop 0 then (llen + stop)%Z else stop in
  let start := if Z.ltb start 0 then 0%Z else start in
  if Z.ltb stop start || Z.leb llen start then []
  else
    let stop := if Z.leb llen stop then (llen - 1)%Z else stop in
    (take (Z.to_nat (stop - start + 1))
       (drop (Z.to_nat start) (zsorted (queue s)))).*1.

(** [inQueue] *)
Definition inQueue (s : Redis) (maxElements : Z) : list string :=
  ZRANGE s 0 (wrap64 (maxElements - 1)).

(** [inProgress]: the reply of [SMEMBERS inProgressKey], in the order the
    set yields its members. *)
Definition inProgress_ids (s : Redis) : list string := elements (inProgress s).

(** [checkForWork]: [true] after a marker was popped and after the timeout
    alike. *)
Definition checkForWork (s : Redis) : bool * Redis := (true, (BLPOP s).2).

(** [n] calls of [dequeue] in a row, until one finds the queue empty: the
    tasks they return and the store they leave.  A call that returns an
    error returns no task. *)
Fixpoint dequeue_n (n : nat) (s : Redis) : list workerTask * Redis :=
  match n with
  | O => ([], s)
  | S n =>
      match dequeue s with
      | ((Some t, _, _), s') =>
          let '(ts, s'') := dequeue_n n s' in (t :: ts, s'')
      | ((None, _, Some _), s') => dequeue_n n s'
      | ((None, _, None), s') => ([], s')
      end
  end.

(** [enqueue] of one id with one priority after the other. *)
Definition enqueue_each (s : Redis) (id : string) (priorities : list Z) : Redis :=
  foldl (λ s priority, (enqueue s id priority).2) s priorities.

(** A call in the process was made for [id], and [priority] is the score
    that Redis keeps for the priority of that call. *)
Definition asked {V : Type} (y : @Sys V) (priority : Z) (id : string) : Prop :=
  ∃ i c pc, callers y !! i = Some (mkCaller c pc)
            ∧ call_id c = id ∧ to_double (call_priority c) = priority.

(** Whatever is queued, held by the dequeue loop or by a worker, or was
    computed, was asked for. *)
Record only_asked {V : Type} (y : @Sys V) : Prop := mkOnlyAsked {
  a_queue : ∀ id p, queue (store y) !! id = Some p → asked y p id;
  a_sched :
    match sched y with
    | SSadd id p _ => asked y p id
    | SSend t _ => asked y (task_priority t) (task_id t)
    | _ => True
    end;
  a_workers : ∀ w t,
    workers y !! w = Some (WCall t) → asked y (task_priority t) (task_id t);
  a_calls : ∀ p id, (p, id) ∈ calls y → asked y p id;
}.

(** The caller has sent its subscription. *)
Definition reached_wait {V : Type} (pc : @callerPc V) : Prop :=
  match pc with
  | AtBlocked | AtRecheck | AtReturn _ _ => True
  | _ => False
  end.

(** Channel [i] is in one of the lists of [watchIds]. *)
Definition filed {V : Type} (y : @Sys V) (id : string) (i : nat) : Prop :=
  ∃ chs, watchIds (notifier y) !! id = Some chs ∧ i ∈ chs.

(** The channels of the notifier: a filed channel belongs to a caller that
    is blocked on it, is filed once and under that caller's id, and has not
    been sent on; a channel that was sent on belongs to a caller that got
    as far as blocking; a blocked caller's channel is filed or was sent
    on. *)
Record channels_ok {V : Type} (y : @Sys V) : Prop := mkChannelsOk {
  f_filed : ∀ id i, filed y id i →
    (∃ c, callers y !! i = Some (mkCaller c AtBlocked) ∧ call_id c = id)
    ∧ i ∉ delivered (notifier y);
  f_nodup : ∀ id chs, watchIds (notifier y) !! id = Some chs → NoDup chs;
  f_delivered : ∀ i, i ∈ delivered (notifier y) →
    ∃ c pc, callers y !! i = Some (mkCaller c pc) ∧ reached_wait pc;
  f_waiting : ∀ i c, callers y !! i = Some (mkCaller c AtBlocked) →
    i ∈ delivered (notifier y) ∨ filed y (call_id c) i;
}.

(** [id] has a result record and nothing is on its way to compute it
    again: it is not queued, neither the dequeue loop nor a worker holds a
    task for it, and no caller stands between the two transactions of
    [enqueue] for it. *)
Record settled {V : Type} (id : string) (y : @Sys V) : Prop := mkSettled {
  st_record : is_Some (results (store y) !! id);
  st_queue : queue (store y) !! id = None;
  st_sched :
    match sched y with
    | SSadd id' _ _ => id' ≠ id
    | SSend t _ => task_id t ≠ id
    | _ => True
    end;
  st_workers : ∀ w t, workers y !! w = Some (WCall t) → task_id t ≠ id;
  st_writers : ∀ w id' rec, workers y !! w = Some (WWrite id' rec) → id' ≠ id;
  st_callers : ∀ i c, callers y !! i = Some (mkCaller c AtSave) → call_id c ≠ id;
}.

(** A goroutine of the process has the task for [id] in hand: the dequeue
    loop after its [SADD], or a worker that received it and has not yet
    written. *)
Definition in_hand {V : Type} (y : @Sys V) (id : string) : Prop :=
  (∃ t hasMore, sched y = SSend t hasMore ∧ task_id t = id)
  ∨ ∃ w, (∃ t, workers y !! w = Some (WCall t) ∧ task_id t = id)
         ∨ (∃ rec, workers y !! w = Some (WWrite id rec)).

(** The queue as the calls of the worker function it stands for, in rank
    order. *)
Definition backlog (q : gmap string Z) : list (Z * string) :=
  (λ e, (e.2, e.1)) <$> zsorted q.

(** The tasks that the dequeue loop and the workers hold and for which
    the worker function has yet to be called. *)
Definition held_by_sched {V : Type} (y : @Sys V) : list (Z * string) :=
  match sched y with
  | SSadd id priority _ => [(priority, id)]
  | SSend t _ => [(task_priority t, task_id t)]
  | _ => []
  end.

Definition held_by_worker (w : workerPc) : option (Z * string) :=
  match w with
  | WCall t => Some (task_priority t, task_id t)
  | _ => None
  end.

(** With one worker and no caller: the calls of the worker function so
    far are the first entries of the queue the process started on, in rank
    order; and, unless a panic ended the process, what is held and what is
    queued are the entries that follow. *)
Record in_rank_order {V : Type} (q0 : gmap string Z) (y : @Sys V) : Prop :=
  mkInRankOrder {
  r_callers : callers y = [];
  r_workers : length (workers y) = 1%nat;
  r_prefix : calls y `prefix_of` backlog q0;
  r_order :
    panicked y = false →
    (calls y ++ omap held_by_worker (workers y) ++ held_by_sched y
     ++ backlog (queue (store y)))%list = backlog q0;
}.

(** A record was written for [x]: a result record, or an error record
    (which may have expired since). *)
Definition recorded (x : string) (s : Redis) : Prop :=
  is_Some (results s !! x) ∨ is_Some (errors s !! x).

(** A record for [x] that was not there at the start, and a write for [x]
    that a worker is about to send, come from a call of the worker
    function for [x]. *)
Record written_after_call {V : Type} (x : string) (s0 : Redis) (y : @Sys V)
  : Prop := mkWrittenAfterCall {
  c_recorded : recorded x (store y) → recorded x s0 ∨ (0 < calls_for x y)%nat;
  c_writing : ∀ w rec,
    workers y !! w = Some (WWrite x rec) → (0 < calls_for x y)%nat;
}.

(** ** Progress of the callers for one id *)

(** The steps of the goroutines of the process: no new call, no message
    lost, no reconnection and no time passing. *)
Definition goroutine_step (a : action) : Prop :=
  match a with
  | ACaller _ | ASched | AHandoff _ | AWorker _ | AReceive | AVisit _ => True
  | ACall _ | AReconnect | ADrop | ATick _ => False
  end.

(** [y'] is reached from [y] by steps of the goroutines. *)
Definition reach {V : Type} `{codec : LRUCodec V}
    (worker : Z → string → callOutcome V) (y y' : @Sys V) : Prop :=
  ∃ tr, Forall goroutine_step tr ∧ run worker tr y = Some y'.

(** A task is on its way to the worker function: the queue is not empty,
    the dequeue loop holds a task, or a worker is not idle. *)
Definition in_pipeline {V : Type} (y : @Sys V) : Prop :=
  queue (store y) ≠ ∅
  ∨ (∃ id priority itemsLeft, sched y = SSadd id priority itemsLeft)
  ∨ (∃ t hasMore, sched y = SSend t hasMore)
  ∨ ∃ w pc, workers y !! w = Some pc ∧ pc ≠ WReceive.

(** The caller is past the two transactions of [enqueue]: what it needs
    now is the record. *)
Definition past_enqueue {V : Type} (pc : @callerPc V) : Prop :=
  match pc with
  | AtGet | AtEnqueue | AtSave => False
  | _ => True
  end.

(** Where one step takes a caller. *)
Definition caller_moves {V : Type} (pc pc' : @callerPc V) : Prop :=
  match pc with
  | AtGet => pc' = AtEnqueue ∨ ∃ ret err, pc' = AtReturn ret err
  | AtEnqueue => pc' = AtSave ∨ pc' = AtRecheck ∨ pc' = AtSubscribe
  | AtSave => pc' = AtSubscribe
  | AtSubscribe => pc' = AtBlocked
  | AtBlocked => pc' = AtRecheck
  | AtRecheck => ∃ ret err, pc' = AtReturn ret err
  | AtReturn _ _ => False
  end.

(** A process whose callers all ask for [x], with priorities that Redis
    keeps as they are: every task is a task for [x], no goroutine
    panicked, there is a worker, the ids of the in-progress set are held
    by a goroutine, and as soon as a caller is past [enqueue] the record
    of [x] is there or a task is on its way. *)
Record for_one_id {V : Type} (x b : string) (y : @Sys V) : Prop := mkForOneId {
  o_alive : panicked y = false;
  o_a_worker : (0 < length (workers y))%nat;
  o_callers : ∀ i c pc, callers y !! i = Some (mkCaller c pc) →
    call_id c = x ∧ exact_score (call_priority c);
  o_queue : ∀ id score, queue (store y) !! id = Some score →
    id = x ∧ exact_score score;
  o_sched :
    match sched y with
    | SSadd id _ _ => id = x
    | SSend t _ => task_id t = x
    | _ => True
    end;
  o_workers : ∀ w pc, workers y !! w = Some pc →
    match pc with
    | WCall t => task_id t = x
    | WWrite id _ => id = x
    | WReceive => True
    end;
  o_in_hand : ∀ id, id ∈ inProgress (store y) → in_hand y id;
  o_waiting : ∀ i c pc, callers y !! i = Some (mkCaller c pc) → past_enqueue pc →
    has_payload x b (store y) ∨ in_pipeline y;
}.

(** While a channel is filed under [x] and the record of [x] is there, a
    wake-up is ahead: the message of the write or the sentinel of a
    reconnection is on the channel of Redis, or a running [notifyAll] has
    yet to visit [x]. *)
Definition wake_up_ahead {V : Type} (x b : string) (y : @Sys V) : Prop :=
  has_payload x b (store y) → is_Some (watchIds (notifier y) !! x) →
  x ∈ chan (store y) ∨ "" ∈ chan (store y) ∨ x ∈ sweeping y.

(** What the progress of the callers for [x] rests on. *)
Record on_track {V : Type} (x : string) (P : V) (b : string) (y : @Sys V)
  : Prop := mkOnTrack {
  t_serving : serving x P b y;
  t_one : for_one_id x b y;
  t_channels : channels_ok y;
  t_wake_up : wake_up_ahead x b y;
}.

(** The record of [x] is there, no [notifyAll] is running and no channel
    is filed under [x]: every caller can go on to its return. *)
Definition all_woken {V : Type} (x : string) (P : V) (b : string) (y : @Sys V)
  : Prop :=
  on_track x P b y ∧ has_payload x b (store y) ∧ sweeping y = ∅
  ∧ watchIds (notifier y) !! x = None.

(** The first [k] callers have returned. *)
Definition returned_upto {V : Type} (k : nat) (y : @Sys V) : Prop :=
  ∀ i c pc, (i < k)%nat → callers y !! i = Some (mkCaller c pc) →
    ∃ ret err, pc = AtReturn ret err.

(** A worker that returns [nil] and no error. *)
Definition nilWorker (priority : Z) (id : string) : callOutcome string :=
  Returns None None.

(** A codec that writes [nil] as ["null"] and reads it back as [nil]. *)
Definition nullableCodec : LRUCodec string :=
  {| Encode v :=
       match v with
       | Some v => ("s:" +:+ v, None)
       | None => ("null", None)
       end;
     Decode bytes :=
       match bytes with
       | String "s" (String ":" v) => (Some v, None)
       | "null" => (None, None)
       | _ => (None, Some "not a value")
       end |}.

(** The order in which the sorted set ranks two tasks. *)
Definition task_le (a b : workerTask) : Prop :=
  entry_le (task_id a, task_priority a) (task_id b, task_priority b) = true.

Definition task_of (e : string * Z) : workerTask := mkTask e.1 e.2.

(** ** The roles of the keys *)

(** What an instance keeps under a key of Redis. *)
Inductive keyRole :=
| QueueRole                 (* the sorted set of queued ids *)
| WorkReadyRole             (* the list of markers *)
| InProgressRole            (* the set of ids in progress *)
| ResultRole (id : string)  (* the result record of [id] *)
| ErrorRole (id : string).  (* the error record of [id] *)

(** The key that [r] uses in each role. *)
Definition key_of (r : RedisRTC) (role : keyRole) : string :=
  match role with
  | QueueRole => queueKey r
  | WorkReadyRole => workReadyKey r
  | InProgressRole => inProgressKey r
  | ResultRole id => key r id
  | ErrorRole id => errorKey r id
  end.

(** What [NewReadThroughCache] appends to [QUEUE_PREFIX + queueName] for
    each role. *)
Definition role_suffix (role : keyRole) : string :=
  match role with
  | QueueRole => ""
  | WorkReadyRole => ":wr"
  | InProgressRole => ":inp"
  | ResultRole id => ":k:" +:+ id
  | ErrorRole id => ":er:" +:+ id
  end.

Fixpoint has_colon (s : string) : bool :=
  match s with
  | EmptyString => false
  | String a rest => Ascii.eqb a ":" || has_colon rest
  end.

(** A string that is empty or begins with a colon, as every
    [role_suffix] is. *)
Definition colon_headed (s : string) : Prop :=
  match s with
  | EmptyString => True
  | String a _ => a = ":"%char
  end.

(** * Package [server]

    The first document of the file: the configurations of the GCE
    instances that run servers.  [gce.Instance] and [gce.Disk] are declared
    in package [gce]; they are records here with the fields that this
    package sets, a field that it leaves out having Go's zero value.  A
    pointer or a map that may be [nil] is an [option]; a function that can
    panic on [nil] returns [None] when it does.  A function that changes
    the instance it is given returns the instance as it is after the
    call. *)

Definition DISK_IMAGE_SKIA_PUSHABLE_BASE : string :=
  "skia-pushable-base-v2017-06-13-003".
Definition GS_URL_GITCOOKIES_TMPL : string :=
  "gs://skia-buildbots/artifacts/server/.gitcookies_%s".
Definition GS_URL_GITCONFIG : string :=
  "gs://skia-buildbots/artifacts/server/.gitconfig".
Definition GS_URL_NETRC : string :=
  "gs://skia-buildbots/artifacts/server/.netrc".

(** [fmt.Sprintf(format, arg)] for a format whose only verb is one [%s]
    and a string argument: the text of the format with the argument in
    the place of the verb. *)
Fixpoint Sprintf (format arg : string) : string :=
  match format with
  | EmptyString => EmptyString
  | String "%"%char (String "s"%char rest) => arg +:+ rest
  | String c rest => String c (Sprintf rest arg)
  end.

(** The constants of the packages [gce] and [auth] that are used here;
    their values are not part of this file. *)
Class GceConstants := {
  DISK_SNAPSHOT_SYSTEMD_PUSHABLE_BASE : string;
  DISK_TYPE_PERSISTENT_STANDARD : string;
  MACHINE_TYPE_HIGHMEM_16 : string;
  OS_LINUX : string;
  USER_DEFAULT : string;
  SCOPE_FULL_CONTROL : string;
  SCOPE_PUBSUB : string;
  SCOPE_USERINFO_EMAIL : string;
  SCOPE_USERINFO_PROFILE : string;
}.

(** [gce.Disk] *)
Record Disk := mkDisk {
  Disk_Name : string;
  Disk_SizeGb : Z;
  Disk_SourceImage : string;
  Disk_SourceSnapshot : string;
  Disk_Type : string;
}.

(** [gce.Instance] *)
Record Instance := mkInstance {
  BootDisk : option Disk;
  DataDisk : option Disk;
  GSDownloads : option (gmap string string);
  MachineType : string;
  Metadata : option (gmap string string);
  MetadataDownloads : option (gmap string string);
  Name : string;
  Os : string;
  Scopes : list string;
  Tags : list string;
  User : string;
}.

(** [Server20170518] *)
Definition Server20170518 `{GceConstants} (name : string) : Instance :=
  {| BootDisk := Some {| Disk_Name := name;
                         Disk_SizeGb := 0;
                         Disk_SourceImage := "";
                         Disk_SourceSnapshot := DISK_SNAPSHOT_SYSTEMD_PUSHABLE_BASE;
                         Disk_Type := DISK_TYPE_PERSISTENT_STANDARD |};
     DataDisk := Some {| Disk_Name := Sprintf "%s-data" name;
                         Disk_SizeGb := 300;
                         Disk_SourceImage := "";
                         Disk_SourceSnapshot := "";
                         Disk_Type := DISK_TYPE_PERSISTENT_STANDARD |};
     GSDownloads := Some ∅;
     MachineType := MACHINE_TYPE_HIGHMEM_16;
     Metadata := Some ∅;
     MetadataDownloads := Some ∅;
     Name := name;
     Os := OS_LINUX;
     Scopes := [SCOPE_FULL_CONTROL; SCOPE_PUBSUB; SCOPE_USERINFO_EMAIL;
                SCOPE_USERINFO_PROFILE];
     Tags := ["http-server"; "https-server"];
     User := USER_DEFAULT |}.

(** [vm.BootDisk.SourceImage = image; vm.BootDisk.SourceSnapshot = snapshot]:
    a [nil] boot disk makes the first assignment panic. *)
Definition set_boot_source (image snapshot : string) (vm : Instance)
  : option Instance :=
  match BootDisk vm with
  | None => None
  | Some d =>
      Some {| BootDisk := Some {| Disk_Name := Disk_Name d;
                                  Disk_SizeGb := Disk_SizeGb d;
                                  Disk_SourceImage := image;
                                  Disk_SourceSnapshot := snapshot;
                                  Disk_Type := Disk_Type d |};
              DataDisk := DataDisk vm; GSDownloads := GSDownloads vm;
              MachineType := MachineType vm; Metadata := Metadata vm;
              MetadataDownloads := MetadataDownloads vm; Name := Name vm;
              Os := Os vm; Scopes := Scopes vm; Tags := Tags vm;
              User := User vm |}
  end.

(** [Server20170613] *)
Definition Server20170613 `{GceConstants} (name : string) : option Instance :=
  set_boot_source DISK_IMAGE_SKIA_PUSHABLE_BASE "" (Server20170518 name).

Definition set_GSDownloads (m : gmap string string) (vm : Instance) : Instance :=
  {| BootDisk := BootDisk vm; DataDisk := DataDisk vm; GSDownloads := Some m;
     MachineType := MachineType vm; Metadata := Metadata vm;
     MetadataDownloads := MetadataDownloads vm; Name := Name vm; Os := Os vm;
     Scopes := Scopes vm; Tags := Tags vm; User := User vm |}.

(** [AddGitConfigs]: an assignment to an entry of a [nil] map panics. *)
Definition AddGitConfigs (vm : Instance) (gitUser : string) : option Instance :=
  match GSDownloads vm with
  | None => None
  | Some m =>
      Some (set_GSDownloads
              (<["~/.gitcookies" := Sprintf GS_URL_GITCOOKIES_TMPL gitUser]>
                 (<["~/.netrc" := GS_URL_NETRC]>
                    (<["~/.gitconfig" := GS_URL_GITCONFIG]> m)))
              vm)
  end.

(** * Properties *)

(** ** Keys are distinct *)

Lemma append_inj_r (p a b : string) : p +:+ a = p +:+ b → a = b.
Proof. apply (inj (String.app p)). Qed.

Lemma append_assoc (a b c : string) : (a +:+ b) +:+ c = a +:+ (b +:+ c).
Proof.
  induction a as [|x a IH]; [done|].
  change (String x ((a +:+ b) +:+ c) = String x (a +:+ b +:+ c)). by f_equal.
Qed.

Lemma key_inj (r : RedisRTC) (id1 id2 : string) : key r id1 = key r id2 → id1 = id2.
Proof. apply append_inj_r. Qed.

Lemma errorKey_inj (r : RedisRTC) (id1 id2 : string) :
  errorKey r id1 = errorKey r id2 → id1 = id2.
Proof. apply append_inj_r. Qed.

Lemma key_errorKey_ne (queueName id1 id2 : string) :
  key (NewReadThroughCache_keys queueName) id1
  ≠ errorKey (NewReadThroughCache_keys queueName) id2.
Proof.
  unfold key, errorKey, NewReadThroughCache_keys; cbn [keyPrefix errKeyPrefix].
  rewrite !append_assoc.
  intros H. do 2 apply append_inj_r in H. discriminate H.
Qed.

Lemma append_empty_r (a : string) : a +:+ "" = a.
Proof.
  induction a as [|x a IH]; [done|].
  change (String x (a +:+ "") = String x a). by f_equal.
Qed.

Lemma append_ne_self (p t : string) : t ≠ "" → p +:+ t ≠ p.
Proof.
  intros Ht H. apply Ht, (append_inj_r p). by rewrite append_empty_r.
Qed.

Ltac distinct_keys :=
  unfold key, errorKey, NewReadThroughCache_keys;
  cbn [keyPrefix errKeyPrefix queueKey workReadyKey inProgressKey finishedChannel];
  rewrite ?append_assoc;
  let H := fresh in
  intros H;
  first [ by (rewrite <- append_assoc in H; apply append_ne_self in H)
        | do 2 apply append_inj_r in H; cbv [String.append] in H; discriminate H ].

Lemma record_keys_not_fixed (queueName id : string) :
  let r := NewReadThroughCache_keys queueName in
  ∀ k, k ∈ [key r id; errorKey r id] →
       k ∉ [queueKey r; workReadyKey r; inProgressKey r; finishedChannel r].
Proof.
  intros r k Hk Hf. apply list_elem_of_In in Hk, Hf. simpl in Hk, Hf.
  destruct Hf as [Hf|[Hf|[Hf|[Hf|[]]]]]; destruct Hk as [Hk|[Hk|[]]];
    revert Hk; rewrite <- Hf; subst r; clear; distinct_keys.
Qed.

(** ** The order of the sorted set *)

Lemma string_leb_refl (a : string) : String.leb a a = true.
Proof. apply Is_true_true. change (String.le a a). done. Qed.

Lemma string_leb_trans (a b c : string) :
  String.leb a b = true → String.leb b c = true → String.leb a c = true.
Proof.
  intros H1%Is_true_true H2%Is_true_true. apply Is_true_true.
  change (String.le a c). by trans b.
Qed.

Lemma entry_le_spec (a b : string * Z) :
  entry_le a b = true ↔ (a.2 < b.2)%Z ∨ (a.2 = b.2 ∧ String.leb a.1 b.1 = true).
Proof.
  unfold entry_le. rewrite orb_true_iff, andb_true_iff, Z.ltb_lt, Z.eqb_eq. done.
Qed.

Lemma entry_le_refl (a : string * Z) : entry_le a a = true.
Proof. apply entry_le_spec. right. split; [done|apply string_leb_refl]. Qed.

Lemma entry_le_trans (a b c : string * Z) :
  entry_le a b = true → entry_le b c = true → entry_le a c = true.
Proof.
  rewrite !entry_le_spec. intros [Hab|[Hab Hs1]] [Hbc|[Hbc Hs2]]; try (left; lia).
  right. split; [lia|]. eapply string_leb_trans; eauto.
Qed.

Lemma entry_le_total (a b : string * Z) : entry_le a b = true ∨ entry_le b a = true.
Proof.
  rewrite !entry_le_spec.
  destruct (Z.lt_trichotomy a.2 b.2) as [?|[?|?]]; [by left;left| |by right;left].
  destruct (String.leb_total a.1 b.1); [left|right]; right; done.
Qed.

Lemma entry_le_antisym (a b : string * Z) :
  entry_le a b = true → entry_le b a = true → a = b.
Proof.
  rewrite !entry_le_spec. intros [?|[? ?]] [?|[? ?]]; try lia.
  destruct a, b; simpl in *. f_equal; [|done]. by apply String.leb_antisym.
Qed.

Lemma foldr_entry_min_None (l : list (string * Z)) :
  foldr entry_min None l = None ↔ l = [].
Proof.
  destruct l as [|e l]; simpl; [done|]. split; [|done].
  unfold entry_min. destruct (foldr _ _ l); [destruct (entry_le _ _)|]; done.
Qed.

Lemma foldr_entry_min_Some (l : list (string * Z)) (m : string * Z) :
  foldr entry_min None l = Some m →
  m ∈ l ∧ ∀ e, e ∈ l → entry_le m e = true.
Proof.
  revert m. induction l as [|x l IH]; simpl; [done|]. intros m.
  unfold entry_min at 1. destruct (foldr entry_min None l) as [m'|] eqn:Hf.
  - destruct (IH m' eq_refl) as [Hin Hmin].
    destruct (entry_le x m') eqn:Hle; intros [= <-].
    + split; [apply list_elem_of_here|].
      intros e [->|He]%elem_of_cons; [apply entry_le_refl|].
      eapply entry_le_trans; eauto.
    + split; [by apply list_elem_of_further|].
      intros e [->|He]%elem_of_cons; [|by auto].
      destruct (entry_le_total x m'); congruence.
  - intros [= <-]. apply foldr_entry_min_None in Hf. subst l.
    split; [apply list_elem_of_here|].
    intros e ->%list_elem_of_singleton. apply entry_le_refl.
Qed.

Lemma zfirst_None (q : gmap string Z) : zfirst q = None ↔ q = ∅.
Proof.
  unfold zfirst. rewrite foldr_entry_min_None. apply map_to_list_empty_iff.
Qed.

Lemma zfirst_Some (q : gmap string Z) (id : string) (p : Z) :
  zfirst q = Some (id, p) →
  q !! id = Some p ∧
  ∀ id' p', q !! id' = Some p' → entry_le (id, p) (id', p') = true.
Proof.
  intros [Hin Hmin]%foldr_entry_min_Some. split.
  - by apply elem_of_map_to_list.
  - intros id' p' H. apply Hmin. by apply elem_of_map_to_list.
Qed.

(** The element of rank 0 is the only one below all others. *)
Lemma zfirst_unique (q : gmap string Z) (id : string) (p : Z) :
  q !! id = Some p →
  (∀ id' p', q !! id' = Some p' → entry_le (id, p) (id', p') = true) →
  zfirst q = Some (id, p).
Proof.
  intros Hq Hmin. destruct (zfirst q) as [[id0 p0]|] eqn:Hz.
  - apply zfirst_Some in Hz as [Hq0 Hmin0]. f_equal.
    symmetry. apply entry_le_antisym; auto.
  - apply zfirst_None in Hz. subst q. by rewrite lookup_empty in Hq.
Qed.

(** ** Scores *)

Lemma to_double_exact (p : Z) : exact_score p → to_double p = p.
Proof.
  unfold exact_score, to_double. intros Hp.
  by destruct (Z.leb_spec (Z.abs p) (2 ^ 53)); [|lia].
Qed.

Lemma Int64_reply_exact (p : Z) : exact_score p → Int64_reply p = Some p.
Proof.
  unfold exact_score, Int64_reply. intros Hp.
  by destruct (Z.ltb_spec (Z.abs p) (10 ^ 17)); [|lia].
Qed.

Lemma Int64_reply_Some (score p : Z) : Int64_reply score = Some p → p = score.
Proof. unfold Int64_reply. by destruct (Z.ltb _ _); [intros [= <-]|]. Qed.

Lemma oldPriority_exact (p : Z) : exact_score p → oldPriority p = p.
Proof. intros Hp. unfold oldPriority. by rewrite Int64_reply_exact. Qed.

(** A queue whose scores pass the test has exact scores. *)
Lemma scores_exact_check (s : Redis) :
  forallb (λ e, Z.leb (Z.abs e.2) (2 ^ 53)) (map_to_list (queue s)) = true →
  scores_exact s.
Proof.
  intros Hall id score Hq. apply elem_of_map_to_list, list_elem_of_In in Hq.
  rewrite forallb_forall in Hall. apply Hall in Hq. simpl in Hq.
  unfold exact_score. lia.
Qed.

(** ** [enqueue] *)

Lemma EXISTS_key_pos (s : Redis) (id : string) :
  (0 <? EXISTS_key s id)%Z = true ↔ is_Some (GET_key s id).
Proof.
  unfold EXISTS_key. destruct (GET_key s id); simpl; split; try done.
  all: try by intros [? [=]].
Qed.

Lemma EXISTS_errorKey_pos (s : Redis) (id : string) :
  (0 <? EXISTS_errorKey s id)%Z = true ↔ is_Some (GET_errorKey s id).
Proof.
  unfold EXISTS_errorKey. destruct (GET_errorKey s id); simpl; split; try done.
  all: try by intros [? [=]].
Qed.

Lemma EXISTS_key_range (s : Redis) (id : string) :
  EXISTS_key s id = 0%Z ∨ EXISTS_key s id = 1%Z.
Proof. unfold EXISTS_key. destruct (GET_key s id); auto. Qed.

Lemma EXISTS_errorKey_range (s : Redis) (id : string) :
  EXISTS_errorKey s id = 0%Z ∨ EXISTS_errorKey s id = 1%Z.
Proof. unfold EXISTS_errorKey. destruct (GET_errorKey s id); auto. Qed.

Lemma sum_EXISTS_pos (s : Redis) (id : string) :
  (0 <? EXISTS_key s id + EXISTS_errorKey s id)%Z = true ↔ resolved s id.
Proof.
  unfold resolved. rewrite <- EXISTS_key_pos, <- EXISTS_errorKey_pos, !Z.ltb_lt.
  destruct (EXISTS_key_range s id), (EXISTS_errorKey_range s id); lia.
Qed.

Lemma enq_found_spec (s : Redis) (id : string) :
  enq_found (enqueue_check s id) = true ↔ resolved s id.
Proof. apply sum_EXISTS_pos. Qed.

Lemma isFinished_spec (s : Redis) (id : string) :
  isFinished s id = true ↔ resolved s id.
Proof. apply sum_EXISTS_pos. Qed.

Lemma enq_isInProgress_spec (s : Redis) (id : string) :
  enq_isInProgress (enqueue_check s id) = true ↔ id ∈ inProgress s.
Proof.
  unfold enq_isInProgress, enqueue_check, SISMEMBER; simpl.
  case_bool_decide; simpl; split; done.
Qed.

Lemma enq_saveId_not_found (rv : enqueueVals) (priority : Z) :
  enq_saveId rv priority = true → enq_found rv = false.
Proof.
  unfold enq_saveId. destruct (enq_isInProgress rv), (enq_found rv); simpl; done.
Qed.

(** When the second transaction of [enqueue] is sent. *)
Lemma enq_saveId_spec (s : Redis) (id : string) (priority : Z) :
  enq_saveId (enqueue_check s id) priority = true ↔
  (id ∉ inProgress s) ∧ ¬ resolved s id ∧
  (∀ old, queue s !! id = Some old → (priority < oldPriority old)%Z).
Proof.
  unfold enq_saveId.
  pose proof (enq_isInProgress_spec s id) as Hp.
  pose proof (enq_found_spec s id) as Hf.
  destruct (enq_isInProgress _), (enq_found _); simpl.
  1-3: split; [done|]; intros (Hn & Hr & _);
       first [ by destruct Hn; apply Hp | by destruct Hr; apply Hf ].
  assert (id ∉ inProgress s) by (intros ?%Hp; done).
  assert (¬ resolved s id) by (intros ?%Hf; done).
  unfold ZSCORE. destruct (queue s !! id) as [old|]; rewrite ?Z.ltb_lt.
  - split; [intros ?; split_and!; [done..|by intros ? [= <-]]|].
    intros (_ & _ & H'). by apply H'.
  - split; [|done]. intros _. split_and!; done.
Qed.

Lemma enqueue_save_ne (id : string) (priority : Z) (s : Redis) :
  enqueue_save id priority s ≠ s.
Proof.
  intros H. apply (f_equal (λ s, length (workReady s))) in H.
  simpl in H. rewrite length_app in H. simpl in H. lia.
Qed.

(** The entry that [enqueue] leaves for [id]. *)
Lemma enqueue_queue (s : Redis) (id : string) (priority : Z) :
  queue (enqueue s id priority).2 =
  if enq_saveId (enqueue_check s id) priority
  then <[id := to_double priority]> (queue s) else queue s.
Proof. unfold enqueue; simpl. by destruct (enq_saveId _ _). Qed.

(** C2, as amended: [enqueue] returns [found = true] exactly when [id] has
    a result record or a live error record.  It leaves the store as it was
    whenever [id] is in the in-progress set or has such a record (for an id
    that is only in progress it returns [false]), and more precisely it
    leaves the store as it was exactly when [id] is in progress, has a
    record, or is already queued with a priority that is not worse (the
    priority that [redis.Int64] reads from the stored score: the score
    itself up to 2^53 in absolute value, [exact_score]). *)
Theorem enqueue_found_and_mutation (s : Redis) (id : string) (priority : Z) :
  ((enqueue s id priority).1 = true ↔ resolved s id)
  ∧ (id ∈ inProgress s ∨ resolved s id → (enqueue s id priority).2 = s)
  ∧ ((enqueue s id priority).2 = s ↔
       id ∈ inProgress s ∨ resolved s id
       ∨ ∃ old, queue s !! id = Some old ∧ (oldPriority old ≤ priority)%Z).
Proof.
  assert ((enqueue s id priority).2 = s ↔
          enq_saveId (enqueue_check s id) priority = false) as Hmut.
  { unfold enqueue; simpl. destruct (enq_saveId _ _); [|done].
    split; [|done]. by intros ?%enqueue_save_ne. }
  pose proof (enq_saveId_spec s id priority) as Hsave.
  split_and!.
  - apply enq_found_spec.
  - intros H. apply Hmut. apply not_true_is_false. rewrite Hsave.
    intros (Hn & Hr & _). destruct H; done.
  - rewrite Hmut. split.
    + intros Hf.
      destruct (decide (id ∈ inProgress s)) as [|Hn]; [by left|].
      destruct (decide (resolved s id)) as [|Hr]; [by right; left|].
      right; right. destruct (queue s !! id) as [old|] eqn:Hq.
      * exists old. split; [done|].
        destruct (decide (oldPriority old ≤ priority)%Z); [done|].
        assert (enq_saveId (enqueue_check s id) priority = true); [|congruence].
        apply Hsave. split_and!; [done..|]. intros ? [= <-]. lia.
      * assert (enq_saveId (enqueue_check s id) priority = true); [|congruence].
        apply Hsave. split_and!; done.
    + intros H. apply not_true_is_false. rewrite Hsave. intros (Hn & Hr & Hq).
      destruct H as [?|[?|(old & Hold & ?)]]; [done..|].
      specialize (Hq _ Hold). lia.
Qed.

(** C2, counterexample: ["x"] is in the in-progress set (it was enqueued
    and dequeued, its worker has not finished), and [enqueue] returns
    [false] for it, leaving the store as it was. *)
Lemma enqueue_in_progress_returns_false :
  "x" ∈ inProgress x_in_progress
  ∧ enqueue x_in_progress "x" 1 = (false, x_in_progress).
Proof. split; [apply (bool_decide_unpack _)|]; by vm_compute. Qed.

(** *** Priorities of queued ids *)

(** C4, as amended: the priorities are at most 2^53 in absolute value,
    which Redis keeps as they are.  For an [id] that is queued with
    priority [p], is not in the in-progress set and has no result or live
    error record, [enqueue] with priority [p'] leaves it queued with
    [min p p']; when the id is in progress or has a record the stored
    priority stays [p].  No other entry of the queue changes. *)
Theorem reenqueue_priority (s : Redis) (id : string) (p p' : Z) :
  exact_score p → exact_score p' →
  queue s !! id = Some p →
  ((id ∉ inProgress s) ∧ ¬ resolved s id →
     queue (enqueue s id p').2 !! id = Some (Z.min p p'))
  ∧ (id ∈ inProgress s ∨ resolved s id →
     queue (enqueue s id p').2 !! id = Some p)
  ∧ (∀ id', id' ≠ id → queue (enqueue s id p').2 !! id' = queue s !! id').
Proof.
  intros Hp Hp' Hq. rewrite enqueue_queue, (to_double_exact p' Hp').
  destruct (enq_saveId (enqueue_check s id) p') eqn:Hs; split_and!.
  - intros _. rewrite lookup_insert_eq. f_equal.
    apply enq_saveId_spec in Hs as (_ & _ & Hlt). specialize (Hlt _ Hq).
    rewrite (oldPriority_exact p Hp) in Hlt. lia.
  - intros H. apply enq_saveId_spec in Hs as (Hn & Hr & _). destruct H; done.
  - intros id' Hne. by rewrite lookup_insert_ne.
  - intros [Hn Hr]. rewrite Hq. f_equal.
    destruct (decide (p' < p)%Z) as [Hlt|]; [|lia].
    assert (enq_saveId (enqueue_check s id) p' = true); [|congruence].
    apply enq_saveId_spec. split_and!; [done..|].
    intros old Ho. assert (old = p) as -> by congruence.
    by rewrite (oldPriority_exact p Hp).
  - done.
  - done.
Qed.

Lemma reenqueue_priority_witness :
  let s := (enqueue emptyRedis "x" 5).2 in
  queue s !! "x" = Some 5%Z
  ∧ queue (enqueue s "x" 1).2 !! "x" = Some 1%Z
  ∧ queue (enqueue s "x" 9).2 !! "x" = Some 5%Z.
Proof.
  intros s.
  assert (queue s !! "x" = Some 5%Z) as Hq by by vm_compute.
  assert (("x" ∉ inProgress s) ∧ ¬ resolved s "x") as Hfree.
  { split; [apply (bool_decide_unpack _); by vm_compute|].
    intros [[? H]|[? H]]; vm_compute in H; discriminate H. }
  assert (∀ p, (0 ≤ p ≤ 9)%Z → exact_score p) as Hexact.
  { intros p Hp. unfold exact_score. lia. }
  split; [exact Hq|]. split.
  - refine (proj1 (reenqueue_priority s "x" 5 1 _ _ Hq) Hfree); apply Hexact; lia.
  - refine (proj1 (reenqueue_priority s "x" 5 9 _ _ Hq) Hfree); apply Hexact; lia.
Defined.

(** C4, counterexample: after [late_zadd 7 5] the id ["x"] is queued with
    priority 5 and is in the in-progress set; [enqueue] with the better
    priority 1 leaves the stored priority at 5, which is not [min 5 1].
    And beyond 2^53 the stored score is not the priority that was sent:
    ["x"], queued with 2^53 + 2 and enqueued again with 2^53 + 1, stays
    queued, with the score 2^53, which is neither. *)
Lemma reenqueue_in_progress_keeps_priority :
  ∃ y, run (codec := stringCodec) priorityWorker (late_zadd 7 5) (init emptyRedis 1)
       = Some y
     ∧ queue (store y) !! "x" = Some 5%Z
     ∧ "x" ∈ inProgress (store y)
     ∧ queue (enqueue (store y) "x" 1).2 !! "x" = Some 5%Z
     ∧ Z.min 5 1 = 1%Z
     ∧ queue (enqueue emptyRedis "x" (2 ^ 53 + 2)).2 !! "x" = Some (2 ^ 53 + 2)%Z
     ∧ queue (enqueue (enqueue emptyRedis "x" (2 ^ 53 + 2)).2 "x" (2 ^ 53 + 1)).2
         !! "x" = Some (2 ^ 53)%Z.
Proof.
  eexists. split; [by vm_compute|].
  split_and!; [by vm_compute|apply (bool_decide_unpack _); by vm_compute
              |by vm_compute|done|by vm_compute|by vm_compute].
Qed.

(** ** [dequeue] *)

Lemma dequeue_pop_empty (s : Redis) :
  queue s = ∅ → dequeue_pop s = ((None, 0%Z, 0%Z), s).
Proof.
  intros Hq. unfold dequeue_pop, ZRANGE_0_0, ZREMRANGEBYRANK_0_0, ZCARD.
  assert (zfirst (queue s) = None) as -> by by apply zfirst_None.
  by rewrite Hq, map_size_empty.
Qed.

Lemma dequeue_pop_first (s : Redis) (id : string) (p : Z) :
  zfirst (queue s) = Some (id, p) →
  ∃ s1, dequeue_pop s = ((Some (id, p), 1%Z, Z.of_nat (size (queue s1))), s1)
        ∧ queue s1 = delete id (queue s)
        ∧ (workReady s1, inProgress s1, results s1, errors s1, chan s1, now s1)
          = (workReady s, inProgress s, results s, errors s, chan s, now s).
Proof.
  intros Hz. unfold dequeue_pop, ZRANGE_0_0, ZREMRANGEBYRANK_0_0, ZCARD.
  rewrite Hz. eexists. split; [reflexivity|]. done.
Qed.

(** C3, as amended: the scores in the queue are at most 2^53 in absolute
    value, which Redis keeps and returns as they are.  The transaction of
    [dequeue] pops the single entry of lowest priority value (among equal
    priorities the id that is first in byte order) and counts the entries
    that remain; [dequeue] then adds the id to the in-progress set with a
    command of its own and returns the task with that count.  On an empty
    queue it returns [(nil, 0, nil)] and changes nothing.  Ids a, b, c
    enqueued with priorities 3, 1, 2 are dequeued in the order b, c, a.
    When [redis.Int64] fails on the score of the popped entry, which it
    does on no score of that size, [dequeue] returns that error: the entry
    is out of the queue and the id is not in the in-progress set. *)
Theorem dequeue_lowest_priority :
  (∀ s : Redis,
     scores_exact s →
     match dequeue s with
     | ((Some t, itemsLeft, err), s') =>
         queue s !! task_id t = Some (task_priority t)
         ∧ (∀ id' p', queue s !! id' = Some p' →
              (task_priority t < p')%Z
              ∨ (task_priority t = p' ∧ String.le (task_id t) id'))
         ∧ queue (dequeue_pop s).2 = delete (task_id t) (queue s)
         ∧ inProgress (dequeue_pop s).2 = inProgress s
         ∧ s' = SADD (task_id t) (dequeue_pop s).2
         ∧ queue s' = delete (task_id t) (queue s)
         ∧ inProgress s' = {[task_id t]} ∪ inProgress s
         ∧ itemsLeft = Z.of_nat (size (queue s'))
         ∧ err = None
         ∧ (workReady s', results s', errors s', chan s', now s')
           = (workReady s, results s, errors s, chan s, now s)
     | ((None, itemsLeft, err), s') =>
         queue s = ∅ ∧ itemsLeft = 0%Z ∧ err = None ∧ s' = s
     end)
  ∧ (∀ s : Redis, queue s = ∅ → dequeue s = ((None, 0%Z, None), s))
  ∧ (let s0 := queued_a3_b1_c2 in
     let s1 := (dequeue s0).2 in
     let s2 := (dequeue s1).2 in
     let s3 := (dequeue s2).2 in
     (dequeue s0).1 = (Some (mkTask "b" 1), 2%Z, None)
     ∧ (dequeue s1).1 = (Some (mkTask "c" 2), 1%Z, None)
     ∧ (dequeue s2).1 = (Some (mkTask "a" 3), 0%Z, None)
     ∧ (dequeue s3).1 = (None, 0%Z, None))
  ∧ (∀ (s : Redis) id score,
       zfirst (queue s) = Some (id, score) → Int64_reply score = None →
       ¬ exact_score score
       ∧ dequeue s = ((None, 0%Z, Some (NotAnInt64 score)), (dequeue_pop s).2)
       ∧ queue (dequeue_pop s).2 = delete id (queue s)
       ∧ inProgress (dequeue_pop s).2 = inProgress s).
Proof.
  split_and!.
  - intros s Hex. unfold dequeue.
    destruct (zfirst (queue s)) as [[id p]|] eqn:Hz.
    + destruct (dequeue_pop_first s id p Hz) as (s1 & -> & Hq1 & [= ? ? ? ? ? ?]).
      apply zfirst_Some in Hz as [Hq Hmin]. simpl.
      rewrite (Int64_reply_exact p (Hex id p Hq)). simpl.
      split_and!; try done.
      * intros id' p' Hq'. apply Hmin, entry_le_spec in Hq'. simpl in Hq'.
        destruct Hq' as [?|[? Hle]]; [by left|right].
        split; [done|]. by apply Is_true_true.
      * congruence.
      * congruence.
    + apply zfirst_None in Hz. by rewrite (dequeue_pop_empty s Hz).
  - intros s Hq. unfold dequeue. by rewrite (dequeue_pop_empty s Hq).
  - by vm_compute.
  - intros s id score Hz Hparse. split.
    { intros Hex. by rewrite (Int64_reply_exact score Hex) in Hparse. }
    unfold dequeue.
    destruct (dequeue_pop_first s id score Hz) as (s1 & -> & Hq1 & [= ? ? ? ? ? ?]).
    simpl. rewrite Hparse. done.
Qed.

Lemma dequeue_lowest_priority_witness :
  scores_exact queued_a3_b1_c2
  ∧ ∃ s', dequeue queued_a3_b1_c2 = ((Some (mkTask "b" 1), 2%Z, None), s')
        ∧ queue s' = delete "b" (queue queued_a3_b1_c2)
        ∧ inProgress s' = {[ "b" ]} ∪ inProgress queued_a3_b1_c2.
Proof.
  assert (scores_exact queued_a3_b1_c2) as Hex.
  { apply scores_exact_check. by vm_compute. }
  split; [exact Hex|].
  pose proof (proj1 dequeue_lowest_priority queued_a3_b1_c2 Hex) as H.
  assert ((dequeue queued_a3_b1_c2).1 = (Some (mkTask "b" 1), 2%Z, None)) as Hd1
    by by vm_compute.
  destruct (dequeue queued_a3_b1_c2) as [[[[t|] itemsLeft] err] s'];
    simpl in Hd1; [|discriminate Hd1].
  injection Hd1 as -> -> ->.
  destruct H as (_ & _ & _ & _ & _ & Hq & Hin & _). by exists s'.
Defined.

(** C3, counterexample: the pop and the move into the in-progress set are
    two round trips.  After the transaction of [dequeue], ["b"] has left the
    queue and is not in the in-progress set; an [enqueue] for ["b"] that
    runs now finds nothing and queues it again.  And beyond 2^53 the task
    does not carry the priority it was queued with: queued with 2^53 + 1,
    ["x"] is returned with 2^53; queued with 10^17, it is taken out of the
    queue and not returned at all. *)
Lemma dequeue_pop_then_add_not_atomic :
  (∃ y, run (codec := stringCodec) priorityWorker popped_not_yet_added
          (init emptyRedis 1) = Some y
      ∧ sched y = SSadd "b" 1 0
      ∧ queue (store y) !! "b" = None
      ∧ ("b" ∉ inProgress (store y))
      ∧ queue (enqueue (store y) "b" 1).2 !! "b" = Some 1%Z)
  ∧ (dequeue (enqueue emptyRedis "x" (2 ^ 53 + 1)).2).1
    = (Some (mkTask "x" (2 ^ 53)), 0%Z, None)
  ∧ (∃ s', dequeue (enqueue emptyRedis "x" (10 ^ 17)).2
           = ((None, 0%Z, Some (NotAnInt64 (10 ^ 17))), s')
         ∧ queue s' = ∅ ∧ inProgress s' = ∅).
Proof.
  split_and!.
  - eexists. split; [by vm_compute|].
    split_and!; [by vm_compute|by vm_compute| |by vm_compute].
    apply (bool_decide_unpack _). by vm_compute.
  - by vm_compute.
  - eexists. split_and!; by vm_compute.
Qed.

(** ** The workers *)

Section Workers.
Context {V : Type} `{codec : LRUCodec V}.
Variable worker : Z → string → callOutcome V.

Lemma GET_errorKey_live (s : Redis) (id msg : string) (expiry : Z) :
  errors s !! id = Some (msg, Some expiry) →
  GET_errorKey s id = if bool_decide (now s < expiry)%Z then Some msg else None.
Proof. unfold GET_errorKey. by intros ->. Qed.

(** What [writeWorkerResult] leaves when it writes an error record. *)
Lemma write_exec_error (id data : string) (s : Redis) :
  let s' := write_exec id (WriteErrorKey, data, true) s in
  errors s' !! id = Some (data, Some (now s + 10)%Z)
  ∧ (∀ id', id' ≠ id → errors s' !! id' = errors s !! id')
  ∧ inProgress s' = inProgress s ∖ {[id]}
  ∧ chan s' = (chan s ++ [id])%list
  ∧ (queue s', workReady s', results s', now s')
    = (queue s, workReady s, results s, now s).
Proof.
  simpl. split_and!; try done.
  - by rewrite lookup_alter_eq, lookup_insert_eq.
  - intros id' Hne. by rewrite lookup_alter_ne, lookup_insert_ne.
Qed.

(** What [writeWorkerResult] leaves when it writes a result record. *)
Lemma write_exec_result (id data : string) (s : Redis) :
  let s' := write_exec id (WriteKey, data, false) s in
  results s' = <[id := data]> (results s)
  ∧ inProgress s' = inProgress s ∖ {[id]}
  ∧ chan s' = (chan s ++ [id])%list
  ∧ (queue s', workReady s', errors s', now s')
    = (queue s, workReady s, errors s, now s).
Proof. done. Qed.

(** C5, as amended: when the computation returns an error, the worker
    stores the message of that error as the error record of the id with a
    TTL of 10 seconds (the record is readable for 10 seconds and gone
    after), removes the id from the in-progress set, publishes the id on
    the channel, changes nothing else, and the loop goes on with the
    next task. *)
Theorem worker_error_is_recorded
    (s : Redis) (t : workerTask) (rest : list workerTask)
    (result : option V) (e : string) :
  worker (task_priority t) (task_id t) = Returns result (Some e) →
  ∃ s', writeWorkerResult worker s (task_priority t) (task_id t) = Some s'
      ∧ errors s' !! task_id t = Some (e, Some (now s + 10)%Z)
      ∧ (∀ d, (0 ≤ d < 10)%Z → GET_errorKey (tick d s') (task_id t) = Some e)
      ∧ (∀ d, (10 ≤ d)%Z → GET_errorKey (tick d s') (task_id t) = None)
      ∧ inProgress s' = inProgress s ∖ {[task_id t]}
      ∧ (task_id t ∉ inProgress s')
      ∧ chan s' = (chan s ++ [task_id t])%list
      ∧ (queue s', workReady s', results s', now s')
        = (queue s, workReady s, results s, now s)
      ∧ workerLoop worker (t :: rest) s = workerLoop worker rest s'.
Proof.
  intros Hw. eexists. split.
  { unfold writeWorkerResult. rewrite Hw. reflexivity. }
  simpl worker_record.
  destruct (write_exec_error (task_id t) e s) as (He & _ & Hin & Hch & Hrest).
  split_and!; try done.
  - intros d Hd. erewrite GET_errorKey_live; [|exact He].
    simpl. rewrite bool_decide_eq_true_2; [done|lia].
  - intros d Hd. erewrite GET_errorKey_live; [|exact He].
    simpl. rewrite bool_decide_eq_false_2; [done|lia].
  - rewrite Hin. intros [_ Hx]%elem_of_difference. apply Hx.
    by apply elem_of_singleton.
  - simpl. unfold writeWorkerResult. rewrite Hw. reflexivity.
Qed.

(** The same when the worker returned a value that the codec cannot
    encode. *)
Lemma worker_encode_error_is_recorded
    (s : Redis) (priority : Z) (id : string) (result : option V)
    (b e : string) :
  worker priority id = Returns result None →
  Encode result = (b, Some e) →
  ∃ s', writeWorkerResult worker s priority id = Some s'
      ∧ errors s' !! id
        = Some ("Error encoding worker result: " +:+ e, Some (now s + 10)%Z)
      ∧ results s' = results s
      ∧ inProgress s' = inProgress s ∖ {[id]}
      ∧ chan s' = (chan s ++ [id])%list.
Proof.
  intros Hw He. eexists. split.
  { unfold writeWorkerResult. rewrite Hw. reflexivity. }
  unfold worker_record. rewrite He.
  destruct (write_exec_error id ("Error encoding worker result: " +:+ e) s)
    as (Herr & _ & Hin & Hch & Hrest).
  split_and!; done.
Qed.

(** A result that encodes is written as the result record. *)
Lemma worker_result_is_recorded
    (s : Redis) (priority : Z) (id : string) (result : option V) (b : string) :
  worker priority id = Returns result None →
  Encode result = (b, None) →
  ∃ s', writeWorkerResult worker s priority id = Some s'
      ∧ results s' = <[id := b]> (results s)
      ∧ errors s' = errors s
      ∧ inProgress s' = inProgress s ∖ {[id]}
      ∧ chan s' = (chan s ++ [id])%list.
Proof.
  intros Hw He. eexists. split.
  { unfold writeWorkerResult. rewrite Hw. reflexivity. }
  unfold worker_record. by rewrite He.
Qed.

End Workers.

Lemma worker_error_is_recorded_witness :
  let t := mkTask "bad" 4 in
  ∃ s', writeWorkerResult (codec := stringCodec) pickyWorker x_in_progress 4 "bad"
        = Some s'
      ∧ errors s' !! "bad" = Some ("no such digest", Some 10%Z)
      ∧ chan s' = ["bad"]
      ∧ workerLoop (codec := stringCodec) pickyWorker [t; mkTask "ok" 2] x_in_progress
        = workerLoop (codec := stringCodec) pickyWorker [mkTask "ok" 2] s'.
Proof.
  intros t.
  destruct (worker_error_is_recorded (codec := stringCodec) pickyWorker
              x_in_progress t [mkTask "ok" 2] None "no such digest" eq_refl)
    as (s' & Hw & He & _ & _ & _ & _ & Hch & _ & Hloop).
  exists s'. split_and!; [exact Hw|exact He|exact Hch|exact Hloop].
Defined.

(** C5, counterexample: a panic of the worker function is not recovered.
    [writeWorkerResult] sends nothing to Redis and the worker loop ends
    with the next task unprocessed; in the process, no error record is
    stored, the id stays in the in-progress set, nothing is published, and
    no goroutine takes another step. *)
Lemma worker_panic_is_not_recorded :
  writeWorkerResult (codec := stringCodec) pickyWorker x_in_progress 1 "boom" = None
  ∧ workerLoop (codec := stringCodec) pickyWorker
      [mkTask "boom" 1; mkTask "ok" 2] x_in_progress
    = LoopPanic x_in_progress [mkTask "ok" 2]
  ∧ ∃ y, run (codec := stringCodec) pickyWorker panic_run (init emptyRedis 2) = Some y
       ∧ panicked y = true
       ∧ errors (store y) !! "boom" = None
       ∧ "boom" ∈ inProgress (store y)
       ∧ chan (store y) = []
       ∧ ∀ a, exec (codec := stringCodec) pickyWorker a y = None.
Proof.
  split; [by vm_compute|]. split; [by vm_compute|].
  eexists. split; [by vm_compute|].
  split_and!; [by vm_compute|by vm_compute| |by vm_compute|by intros a].
  apply (bool_decide_unpack _). by vm_compute.
Qed.

(** ** The facade *)

Section Facade.
Context {V : Type} `{codec : LRUCodec V}.

Lemma getResultErr_error (s : Redis) (id e : string) (returnBytes : bool) :
  GET_errorKey s id = Some e →
  getResultErr s id returnBytes
  = (None, Some ("For " +:+ id +:+ " we received error: " +:+ e)).
Proof. unfold getResultErr. by intros ->. Qed.

Lemma getResultErr_raw (s : Redis) (id b : string) :
  GET_errorKey s id = None → GET_key s id = Some b →
  getResultErr s id true = (Some (Raw b), None).
Proof. unfold getResultErr. by intros -> ->. Qed.

Lemma getResultErr_decoded (s : Redis) (id b : string) :
  GET_errorKey s id = None → GET_key s id = Some b →
  getResultErr s id false = ((Val <$> (Decode b).1), (Decode b).2).
Proof. unfold getResultErr. intros -> ->. by destruct (Decode b). Qed.

Lemma getResultErr_miss (s : Redis) (id : string) (returnBytes : bool) :
  GET_errorKey s id = None → GET_key s id = None →
  getResultErr s id returnBytes = (None, None).
Proof. unfold getResultErr. by intros -> ->. Qed.

(** C10: when an error record and a result record are both present for
    [id], [getResultErr] reads the error half first: [Get] returns at
    once, with no value and with the error whose message ends with the
    stored failure text; so does the re-check of a caller that was
    woken. *)
Theorem error_record_wins
    (s : Redis) (id e b : string) (priority : Z) (returnBytes : bool) :
  GET_errorKey s id = Some e →
  GET_key s id = Some b →
  let msg := "For " +:+ id +:+ " we received error: " +:+ e in
  getResultErr s id returnBytes = (None, Some msg)
  ∧ Get_start s priority returnBytes id = (GetReturned None (Some msg), s)
  ∧ Get_resume s returnBytes id = (None, Some msg)
  ∧ ∃ before, msg = before +:+ e.
Proof.
  intros He Hb msg.
  pose proof (getResultErr_error s id e returnBytes He) as Hg.
  split_and!.
  - exact Hg.
  - unfold Get_start. by rewrite Hg.
  - unfold Get_resume, waitFor_result. by rewrite Hg.
  - exists ("For " +:+ id +:+ " we received error: "). unfold msg.
    by rewrite !append_assoc.
Qed.

End Facade.

Lemma error_record_wins_witness :
  GET_errorKey x_both_records "x" = Some "disk full"
  ∧ GET_key x_both_records "x" = Some "pixels"
  ∧ getResultErr (codec := stringCodec) x_both_records "x" false
    = (None, Some "For x we received error: disk full")
  ∧ Get_start (codec := stringCodec) x_both_records 1 false "x"
    = (GetReturned None (Some "For x we received error: disk full"), x_both_records).
Proof.
  assert (GET_errorKey x_both_records "x" = Some "disk full") as He by by vm_compute.
  assert (GET_key x_both_records "x" = Some "pixels") as Hb by by vm_compute.
  destruct (error_record_wins (codec := stringCodec) x_both_records
              "x" "disk full" "pixels" 1 false He Hb) as (H1 & H2 & _).
  split_and!; [exact He|exact Hb|exact H1|exact H2].
Defined.

(** ** The notifier *)

Lemma elem_of_delivered_notifyChannels (id : string) (n : Notifier) (c : nat) :
  c ∈ delivered (notifyChannels id n) ↔
  c ∈ delivered n ∨ ∃ chs, watchIds n !! id = Some chs ∧ c ∈ chs.
Proof.
  unfold notifyChannels; simpl. rewrite elem_of_union, elem_of_list_to_set.
  destruct (watchIds n !! id) as [chs|]; simpl.
  - split; intros [?|H]; auto; [right; by exists chs|].
    destruct H as (? & [= <-] & ?). by right.
  - rewrite elem_of_nil. split; intros [?|H]; auto; [done|].
    by destruct H as (? & [=] & _).
Qed.

Lemma notifyAll_range_watchIds (s : Redis) (ids : list string) (n : Notifier)
    (id : string) :
  watchIds (notifyAll_range s ids n) !! id =
  if bool_decide (id ∈ ids ∧ isFinished s id = true) then None
  else watchIds n !! id.
Proof.
  revert n. induction ids as [|j ids IH]; intros n; cbn [notifyAll_range].
  { case_bool_decide as H; [|done]. by destruct H as [[]%elem_of_nil _]. }
  rewrite IH. unfold notifyAll_visit.
  case_bool_decide as H1; case_bool_decide as H2; try done.
  - destruct H2. destruct H1. split; [by apply list_elem_of_further|done].
  - destruct H2 as [[->|Hin]%elem_of_cons Hf]; [|by destruct H1].
    rewrite Hf. simpl. apply lookup_delete_eq.
  - destruct (isFinished s j) eqn:Hj; [|done]. simpl.
    apply lookup_delete_ne. intros <-. apply H2.
    split; [apply list_elem_of_here|done].
Qed.

Lemma notifyAll_range_delivered (s : Redis) (ids : list string) (n : Notifier)
    (c : nat) :
  c ∈ delivered (notifyAll_range s ids n) ↔
  c ∈ delivered n
  ∨ ∃ id chs, id ∈ ids ∧ isFinished s id = true
              ∧ watchIds n !! id = Some chs ∧ c ∈ chs.
Proof.
  revert n. induction ids as [|j ids IH]; intros n; cbn [notifyAll_range].
  { split; [by left|]. intros [?|(? & ? & []%elem_of_nil & _)]. done. }
  rewrite IH. unfold notifyAll_visit. destruct (isFinished s j) eqn:Hj.
  - rewrite elem_of_delivered_notifyChannels. split.
    + intros [[?|(chs & Hw & Hc)]|(id & chs & Hin & Hf & Hw & Hc)].
      * by left.
      * right. exists j, chs. split_and!; [apply list_elem_of_here|done..].
      * right. exists id, chs. simpl in Hw.
        destruct (decide (id = j)) as [->|Hne].
        { by rewrite lookup_delete_eq in Hw. }
        rewrite lookup_delete_ne in Hw by done.
        split_and!; [by apply list_elem_of_further|done..].
    + intros [?|(id & chs & Hin & Hf & Hw & Hc)]; [by left; left|].
      destruct (decide (id = j)) as [->|Hne].
      * left; right. by exists chs.
      * right. exists id, chs. apply elem_of_cons in Hin as [?|Hin]; [done|].
        split_and!; [done..| |done]. simpl. by rewrite lookup_delete_ne.
  - split.
    + intros [?|(id & chs & Hin & Hf & Hw & Hc)]; [by left|].
      right. exists id, chs. split_and!; [by apply list_elem_of_further|done..].
    + intros [?|(id & chs & Hin & Hf & Hw & Hc)]; [by left|].
      right. exists id, chs. apply elem_of_cons in Hin as [->|Hin]; [congruence|].
      done.
Qed.

(** ** Interleavings: the same id computed twice *)

(** C1, on the code: two concurrent [Get] for ["x"] make the worker
    function run twice for ["x"].  Both callers run the first transaction
    of [enqueue] before either runs the second; the second [ZADD] arrives
    after the dequeue loop took ["x"], and queues it again.  With a worker
    whose result depends on the priority the two calls return different
    values; with equal priorities and a worker that ignores them the
    worker still runs twice. *)
Theorem concurrent_gets_compute_twice :
  (∃ y, run (codec := stringCodec) priorityWorker (computed_twice 1 2)
          (init emptyRedis 1) = Some y
      ∧ calls y = [(1%Z, "x"); (2%Z, "x")]
      ∧ calls_for "x" y = 2%nat
      ∧ c_pc <$> callers y !! 0%nat = Some (AtReturn (Some (Val "first")) None)
      ∧ c_pc <$> callers y !! 1%nat = Some (AtReturn (Some (Val "second")) None))
  ∧ (∃ y, run (codec := stringCodec) pickyWorker (computed_twice 1 1)
            (init emptyRedis 1) = Some y
        ∧ calls y = [(1%Z, "x"); (1%Z, "x")]
        ∧ calls_for "x" y = 2%nat).
Proof.
  split; eexists; (split; [by vm_compute|]); split_and!; by vm_compute.
Qed.

(** C7, on the code: after [first_write] the result record of ["x"] is
    ["first"] and ["x"] is neither queued nor in progress.  Caller 1, which
    ran the first transaction of [enqueue] before any of this, now runs the
    second: ["x"] is queued although it has a result record.  The dequeue
    loop and a worker then run the worker function for ["x"] a second time
    and its write replaces the record by ["second"]. *)
Theorem result_record_is_overwritten :
  ∃ y1 y2 y3,
    run (codec := stringCodec) priorityWorker first_write (init emptyRedis 1) = Some y1
    ∧ results (store y1) !! "x" = Some "first"
    ∧ queue (store y1) !! "x" = None
    ∧ calls y1 = [(1%Z, "x")]
    ∧ exec (codec := stringCodec) priorityWorker (ACaller 1) y1 = Some y2
    ∧ results (store y2) !! "x" = Some "first"
    ∧ queue (store y2) !! "x" = Some 2%Z
    ∧ run (codec := stringCodec) priorityWorker second_write y2 = Some y3
    ∧ results (store y3) !! "x" = Some "second"
    ∧ calls y3 = [(1%Z, "x"); (2%Z, "x")].
Proof.
  eexists _, _, _. repeat (split; [by vm_compute|]). by vm_compute.
Qed.

(** ** Interleavings: what one step does *)

Section Interleavings.
Context {V : Type} `{codec : LRUCodec V}.
Variable worker : Z → string → callOutcome V.

(** A property kept by every step holds all along a run. *)
Lemma run_invariant (I : @Sys V → Prop) :
  (∀ a y y', exec worker a y = Some y' → I y → I y') →
  ∀ tr y y', run worker tr y = Some y' → I y → I y'.
Proof.
  intros Hstep tr. induction tr as [|a tr IH]; intros y y' Hrun Hy; simpl in Hrun.
  - by injection Hrun as <-.
  - destruct (exec worker a y) as [y1|] eqn:He; [|done]. eauto.
Qed.

Lemma caller_step_inv (i : nat) (y y' : @Sys V) :
  caller_step i y = Some y' →
  ∃ c pc, callers y !! i = Some (mkCaller c pc) ∧
    match pc with
    | AtGet =>
        y' = set_caller i c
               (after_get (getResultErr (store y) (call_id c) (call_returnBytes c))) y
    | AtEnqueue =>
        y' = set_caller i c
               (after_check (enqueue_check (store y) (call_id c)) (call_priority c)) y
    | AtSave =>
        y' = set_caller i c AtSubscribe
               (set_store (enqueue_save (call_id c) (call_priority c) (store y)) y)
    | AtSubscribe =>
        sweeping y = ∅ ∧
        y' = set_caller i c AtBlocked
               (set_notifier
                  (on_subscription (store y) (mkSub (call_id c) i) (notifier y)) ∅ y)
    | AtBlocked =>
        i ∈ delivered (notifier y) ∧ y' = set_caller i c AtRecheck y
    | AtRecheck =>
        y' = set_caller i c
               (AtReturn (waitFor_result (store y) (call_id c) (call_returnBytes c)).1
                         (waitFor_result (store y) (call_id c) (call_returnBytes c)).2) y
    | AtReturn _ _ => False
    end.
Proof.
  unfold caller_step. destruct (callers y !! i) as [[c pc]|]; [|done].
  intros H. exists c, pc. split; [done|].
  destruct pc; try case_bool_decide; simplify_eq; done.
Qed.

Lemma sched_step_inv (y y' : @Sys V) :
  sched_step y = Some y' →
  match sched y with
  | SCheck => y' = set_sched SDequeue (set_store (BLPOP (store y)).2 y)
  | SDequeue =>
      (queue (store y) = ∅ ∧ y' = set_sched SCheck y)
      ∨ (∃ id priority s1,
          zfirst (queue (store y)) = Some (id, priority)
          ∧ (dequeue_pop (store y)).2 = s1
          ∧ y' = set_sched (SSadd id priority (Z.of_nat (size (queue s1))))
                   (set_store s1 y))
      ∨ ∃ id score s1,
          zfirst (queue (store y)) = Some (id, score)
          ∧ Int64_reply score = None
          ∧ (dequeue_pop (store y)).2 = s1
          ∧ y' = set_sched SDequeue (set_store s1 y)
  | SSadd id priority itemsLeft =>
      y' = set_sched (SSend (mkTask id priority) (Z.ltb 0 itemsLeft))
             (set_store (SADD id (store y)) y)
  | SSend _ _ => False
  end.
Proof.
  unfold sched_step.
  destruct (sched y) eqn:Hs; [by intros [= <-]| |by intros [= <-]|done].
  destruct (zfirst (queue (store y))) as [[id p]|] eqn:Hz.
  - destruct (dequeue_pop_first _ _ _ Hz) as (s1 & Hp & _). rewrite Hp. simpl.
    destruct (Int64_reply p) as [p'|] eqn:Hparse; intros [= <-]; right.
    + apply Int64_reply_Some in Hparse as ->. left. by exists id, p, s1.
    + right. by exists id, p, s1.
  - apply zfirst_None in Hz. rewrite (dequeue_pop_empty _ Hz). simpl.
    intros [= <-]. left. split; [done|]. by destruct y.
Qed.

Lemma handoff_step_inv (w : nat) (y y' : @Sys V) :
  handoff_step w y = Some y' →
  ∃ t hasMore, sched y = SSend t hasMore ∧ workers y !! w = Some WReceive
    ∧ y' = set_worker w (WCall t)
             (set_sched (if hasMore then SDequeue else SCheck) y).
Proof.
  unfold handoff_step. destruct (sched y) as [| | |t hm]; try done.
  destruct (workers y !! w) as [[]|]; try done. intros [= <-]. by exists t, hm.
Qed.

Lemma worker_step_inv (w : nat) (y y' : @Sys V) :
  worker_step worker w y = Some y' →
  (∃ t, workers y !! w = Some (WCall t) ∧
     match worker (task_priority t) (task_id t) with
     | Returns result err =>
         y' = set_worker w (WWrite (task_id t) (worker_record result err))
                (log_call t y)
     | Panics => y' = panic (log_call t y)
     end)
  ∨ (∃ id rec, workers y !! w = Some (WWrite id rec) ∧
       y' = set_worker w WReceive (set_store (write_exec id rec (store y)) y)).
Proof.
  unfold worker_step. destruct (workers y !! w) as [[|t|id rec]|]; try done.
  - intros H. left. exists t. split; [done|].
    destruct (worker _ _); by injection H as <-.
  - intros [= <-]. right. by exists id, rec.
Qed.

Lemma notifier_receive_inv (y y' : @Sys V) :
  notifier_receive y = Some y' →
  sweeping y = ∅ ∧
  ∃ finishedId rest, chan (store y) = finishedId :: rest ∧
    y' = (if bool_decide (finishedId = "")
          then set_notifier (notifier y) (dom (watchIds (notifier y)))
          else set_notifier (notifyChannels finishedId (notifier y)) ∅)
           (set_store (receive (store y)) y).
Proof.
  unfold notifier_receive. case_bool_decide as Hsw; [|done].
  destruct (chan (store y)) as [|m rest] eqn:Hc; [done|].
  intros Hy. split; [done|]. exists m, rest. split; [done|].
  case_bool_decide; by injection Hy as <-.
Qed.

Lemma notifier_visit_inv (id : string) (y y' : @Sys V) :
  notifier_visit id y = Some y' →
  id ∈ sweeping y ∧
  y' = set_notifier (notifyAll_visit (store y) id (notifier y))
         (sweeping y ∖ {[id]}) y.
Proof. unfold notifier_visit. case_bool_decide; [|done]. by intros [= <-]. Qed.

(** ** Interleavings: who is woken, and when

    [x] is an id and [R] a property of the store that no step undoes.  The
    invariant below says that every wake-up of a caller for [x] is backed
    by [R]: a message [x] in flight, a delivered channel of a caller for
    [x], and a caller for [x] about to re-read the store all imply [R]. *)

Section Watching.
Variable x : string.
Variable R : Redis → Prop.
Local Abbreviation watching := (@watching V x R).

Lemma watching_add_caller (c : call) (y : @Sys V) :
  watching y → watching (add_caller c y).
Proof.
  intros [Hc Hb Hd Hw Hr]. split; simpl.
  - done.
  - intros i Hi. rewrite length_app. specialize (Hb i Hi). lia.
  - intros i c' pc Hi. rewrite lookup_app_l by by apply Hb. by apply Hd.
  - intros id chs i Hl Hi. destruct (Hw id chs i Hl Hi) as (c' & pc & Hl' & ?).
    exists c', pc. simpl. split; [|done]. by apply lookup_app_l_Some.
  - intros i c' [Hl|[_ Hl]]%lookup_app_Some; [by eapply Hr|].
    by apply list_lookup_singleton_Some in Hl as [_ [=]].
Qed.

Lemma watching_set_pc (i : nat) (c : call) (pc pc' : callerPc) (y : @Sys V) :
  callers y !! i = Some (mkCaller c pc) →
  (pc' = AtRecheck → call_id c = x → R (store y)) →
  watching y → watching (set_caller i c pc' y).
Proof.
  intros Hi Hpc [Hc Hb Hd Hw Hr]. split; simpl.
  - done.
  - intros j Hj. rewrite length_insert. by apply Hb.
  - intros j c' pc'' Hj [(-> & [= -> _] & _)|[_ Hl]]%list_lookup_insert_Some.
    + by eapply Hd.
    + by eapply Hd.
  - intros id chs j Hl Hj. destruct (Hw id chs j Hl Hj) as (c' & pc'' & Hl' & ?).
    simpl. destruct (decide (i = j)) as [->|Hne].
    + exists c, pc'. rewrite list_lookup_insert_eq by by eapply lookup_lt_Some.
      split; [done|]. congruence.
    + exists c', pc''. by rewrite list_lookup_insert_ne.
  - intros j c' [(-> & [= -> Hpc'] & _)|[_ Hl]]%list_lookup_insert_Some.
    + by apply Hpc.
    + by eapply Hr.
Qed.

Lemma watching_set_store (s' : Redis) (y : @Sys V) :
  (R (store y) → R s') →
  (x ∈ chan s' → x ∈ chan (store y) ∨ x = "" ∨ R s') →
  watching y → watching (set_store s' y).
Proof.
  intros HR Hch [Hc Hb Hd Hw Hr]. split; simpl; eauto.
  intros [?|[?|?]]%Hch; auto. destruct Hc; auto.
Qed.

Lemma watching_set_sched (p : schedPc) (y : @Sys V) :
  watching y → watching (set_sched p y).
Proof. intros [Hc Hb Hd Hw Hr]. by split. Qed.

Lemma watching_set_worker (w : nat) (p : workerPc) (y : @Sys V) :
  watching y → watching (set_worker w p y).
Proof. intros [Hc Hb Hd Hw Hr]. by split. Qed.

Lemma watching_log_call (t : workerTask) (y : @Sys V) :
  watching y → watching (log_call t y).
Proof. intros [Hc Hb Hd Hw Hr]. by split. Qed.

Lemma watching_panic (y : @Sys V) : watching y → watching (panic y).
Proof. intros [Hc Hb Hd Hw Hr]. by split. Qed.

Lemma watching_set_sweeping (sw : gset string) (y : @Sys V) :
  watching y → watching (set_notifier (notifier y) sw y).
Proof. intros [Hc Hb Hd Hw Hr]. by split. Qed.

(** The notifier files channel [i] under [id]. *)
Lemma watching_register (i : nat) (c : call) (pc : callerPc) (sw : gset string)
    (y : @Sys V) :
  callers y !! i = Some (mkCaller c pc) →
  watching y →
  watching (set_notifier
              {| watchIds :=
                   <[call_id c := (default [] (watchIds (notifier y) !! call_id c)
                                   ++ [i])%list]> (watchIds (notifier y));
                 delivered := delivered (notifier y) |} sw y).
Proof.
  intros Hi [Hc Hb Hd Hw Hr]. split; simpl; try done.
  intros id chs j Hl Hj. simpl in Hl.
  destruct (decide (id = call_id c)) as [->|Hne].
  - rewrite lookup_insert_eq in Hl. injection Hl as <-.
    apply elem_of_app in Hj as [Hj|Hj%list_elem_of_singleton]; [|subst j; by eauto].
    destruct (watchIds (notifier y) !! call_id c) as [old|] eqn:Hold; simpl in Hj.
    + by eapply Hw.
    + by apply elem_of_nil in Hj.
  - rewrite lookup_insert_ne in Hl by done. by eapply Hw.
Qed.

(** [notifyChannels id], when a wake-up for [x] is backed by [R]. *)
Lemma watching_notifyChannels (id : string) (sw : gset string) (y : @Sys V) :
  (id = x → R (store y)) →
  watching y →
  watching (set_notifier (notifyChannels id (notifier y)) sw y).
Proof.
  intros HR [Hc Hb Hd Hw Hr]. split; simpl; try done.
  - intros i [Hi|(chs & Hl & Hi)]%elem_of_delivered_notifyChannels; [by apply Hb|].
    destruct (Hw id chs i Hl Hi) as (c & pc & Hl' & _). by eapply lookup_lt_Some.
  - intros i c pc [Hi|(chs & Hl & Hi)]%elem_of_delivered_notifyChannels Hl' Hx.
    + by eapply Hd.
    + destruct (Hw id chs i Hl Hi) as (c' & pc' & Hl'' & Hid).
      apply HR. congruence.
  - intros id' chs i Hl Hi. simpl in Hl.
    destruct (decide (id' = id)) as [->|Hne].
    + by rewrite lookup_delete_eq in Hl.
    + rewrite lookup_delete_ne in Hl by done. by eapply Hw.
Qed.

Lemma after_get_not_recheck (r : option (item V) * option string) :
  after_get r ≠ AtRecheck.
Proof. by destruct r as [[?|] [?|]]. Qed.

Lemma after_check_recheck (rv : enqueueVals) (priority : Z) :
  @after_check V rv priority = AtRecheck → enq_found rv = true.
Proof.
  unfold after_check. destruct (enq_saveId rv priority); [done|].
  by destruct (enq_found rv).
Qed.

Lemma chan_BLPOP (s : Redis) : chan (BLPOP s).2 = chan s.
Proof. unfold BLPOP. by destruct (workReady s). Qed.

Lemma chan_dequeue_pop (s : Redis) : chan (dequeue_pop s).2 = chan s.
Proof.
  destruct (zfirst (queue s)) as [[id p]|] eqn:Hz.
  - destruct (dequeue_pop_first s id p Hz) as (s1 & -> & _ & Heq). simpl. congruence.
  - apply zfirst_None in Hz. by rewrite (dequeue_pop_empty s Hz).
Qed.

Lemma chan_write_exec (id : string) (rec : writeKey * string * bool) (s : Redis) :
  chan (write_exec id rec s) = (chan s ++ [id])%list.
Proof. by destruct rec as [[[] data] []]. Qed.

(** Every step keeps [watching], provided the step keeps [R], a record for
    [x] implies [R], and a worker about to write for [x] establishes
    [R]. *)
Lemma watching_step (a : action) (y y' : @Sys V) :
  exec worker a y = Some y' →
  (R (store y) → R (store y')) →
  (isFinished (store y) x = true → R (store y)) →
  (∀ w rec, workers y !! w = Some (WWrite x rec) →
            R (write_exec x rec (store y))) →
  watching y → watching y'.
Proof.
  intros Hexec HR Hfin Hwrite Hy. unfold exec in Hexec.
  destruct (panicked y); [done|]. destruct a as [c|i| |w|w| |id| | |d].
  - injection Hexec as <-. by apply watching_add_caller.
  - apply caller_step_inv in Hexec as (c & pc & Hl & Hstep).
    destruct pc as [| | | | | |ret err];
      [subst y'|subst y'|subst y'|destruct Hstep as [Hsw ->]
      |destruct Hstep as [Hin ->]|subst y'|done].
    + apply (watching_set_pc i c AtGet); [done| |done].
      by intros ?%after_get_not_recheck.
    + apply (watching_set_pc i c AtEnqueue); [done| |done].
      intros Hf%after_check_recheck <-. by apply Hfin, Hf.
    + apply (watching_set_pc i c AtSave); [done..|].
      apply watching_set_store; [exact HR|by left|done].
    + apply (watching_set_pc i c AtSubscribe AtBlocked
               (set_notifier _ ∅ y)); [done..|].
      unfold on_subscription. cbn [sub_id sub_notifyCh].
      pose proof (watching_register i c AtSubscribe ∅ y Hl Hy) as Hreg.
      destruct (isFinished (store y) (call_id c)) eqn:Hf; [|exact Hreg].
      apply (watching_notifyChannels (call_id c) ∅) in Hreg; [exact Hreg|].
      simpl. intros Hx. apply Hfin. by rewrite <- Hx.
    + apply (watching_set_pc i c AtBlocked); [done| |done].
      intros _ Hx. by apply (w_delivered x R y Hy i c AtBlocked).
    + by apply (watching_set_pc i c AtRecheck).
  - apply sched_step_inv in Hexec.
    assert (∀ p s', chan s' = chan (store y) → (R (store y) → R s') →
              watching (set_sched p (set_store s' y))) as Hkeep.
    { intros p s' Hch HR'. apply watching_set_sched, watching_set_store; [done| |done].
      rewrite Hch. by left. }
    destruct (sched y).
    + subst y'. apply Hkeep; [apply chan_BLPOP|exact HR].
    + destruct Hexec as [[_ ->]|[(id & p & s1 & _ & Hs1 & ->)
                                |(id & p & s1 & _ & _ & Hs1 & ->)]].
      * by apply watching_set_sched.
      * apply Hkeep; [|exact HR]. rewrite <- Hs1. apply chan_dequeue_pop.
      * apply Hkeep; [|exact HR]. rewrite <- Hs1. apply chan_dequeue_pop.
    + subst y'. apply Hkeep; [done|exact HR].
    + done.
  - apply handoff_step_inv in Hexec as (t & hm & _ & _ & ->).
    by apply watching_set_worker, watching_set_sched.
  - apply worker_step_inv in Hexec as [(t & Hw & Hcall)|(id & rec & Hw & ->)].
    + destruct (worker _ _); subst y'.
      * by apply watching_set_worker, watching_log_call.
      * by apply watching_panic, watching_log_call.
    + apply watching_set_worker, watching_set_store; [exact HR| |done].
      rewrite chan_write_exec. intros [?|Hx%list_elem_of_singleton]%elem_of_app.
      * by left.
      * subst id. right; right. by eapply Hwrite.
  - apply notifier_receive_inv in Hexec as (_ & m & rest & Hch & ->).
    assert (watching (set_store (receive (store y)) y)) as Hy1.
    { apply watching_set_store; [|simpl; rewrite Hch; simpl; intros ?; left;
                                   by apply list_elem_of_further|done].
      revert HR. by case_bool_decide. }
    case_bool_decide as Hm.
    + by apply (watching_set_sweeping _ _ Hy1).
    + apply (watching_notifyChannels m ∅ _) in Hy1; [exact Hy1|].
      simpl. intros ->. apply HR.
      destruct (w_chan x R y Hy) as [?|?]; [|done..].
      rewrite Hch. apply list_elem_of_here.
  - apply notifier_visit_inv in Hexec as (_ & ->). unfold notifyAll_visit.
    destruct (isFinished (store y) id) eqn:Hf.
    + apply watching_notifyChannels; [|done]. intros ->. by apply Hfin.
    + by apply watching_set_sweeping.
  - injection Hexec as <-. apply watching_set_store; [exact HR| |done].
    simpl. intros [?|Hx%list_elem_of_singleton]%elem_of_app; auto.
  - destruct (chan (store y)) as [|m rest] eqn:Hch; [done|].
    injection Hexec as <-. apply watching_set_store; [exact HR| |done].
    simpl. rewrite Hch. simpl. intros ?. left. by apply list_elem_of_further.
  - case_bool_decide; [|done]. injection Hexec as <-.
    apply watching_set_store; [exact HR|by left|done].
Qed.

End Watching.

(** What a step does to the list of callers. *)
Lemma exec_callers (a : action) (y y' : @Sys V) :
  exec worker a y = Some y' →
  callers y' = callers y
  ∨ (∃ c, a = ACall c ∧ callers y' = (callers y ++ [mkCaller c AtGet])%list)
  ∨ (∃ i c pc pc', a = ACaller i ∧ callers y !! i = Some (mkCaller c pc)
                   ∧ callers y' = <[i := mkCaller c pc']> (callers y)).
Proof.
  intros Hexec. unfold exec in Hexec.
  destruct (panicked y); [done|]. destruct a as [c|i| |w|w| |id| | |d].
  - injection Hexec as <-. right; left. by exists c.
  - apply caller_step_inv in Hexec as (c & pc & Hl & Hstep).
    right; right. exists i, c, pc.
    destruct pc as [| | | | | |ret err];
      [subst y'|subst y'|subst y'|destruct Hstep as [Hsw ->]
      |destruct Hstep as [Hin ->]|subst y'|done]; by eexists.
  - apply sched_step_inv in Hexec. left.
    destruct (sched y); [by subst y'| |by subst y'|done].
    by destruct Hexec as [[_ ->]|[(id & p & s1 & _ & _ & ->)|(id & p & s1 & _ & _ & _ & ->)]].
  - apply handoff_step_inv in Hexec as (t & hm & _ & _ & ->). by left.
  - apply worker_step_inv in Hexec as [(t & Hw & Hcall)|(id & rec & Hw & ->)];
      [|by left].
    left. by destruct (worker _ _); subst y'.
  - apply notifier_receive_inv in Hexec as (_ & m & rest & Hch & ->).
    left. by case_bool_decide.
  - apply notifier_visit_inv in Hexec as (_ & ->). by left.
  - injection Hexec as <-. by left.
  - destruct (chan (store y)); [done|]. injection Hexec as <-. by left.
  - case_bool_decide; [|done]. injection Hexec as <-. by left.
Qed.

(** A blocked caller moves only by its own step, and only once the
    notifier has delivered on its channel. *)
Lemma blocked_caller_step (a : action) (y y' : @Sys V) (i : nat) (c : call) :
  exec worker a y = Some y' →
  callers y !! i = Some (mkCaller c AtBlocked) →
  callers y' !! i = Some (mkCaller c AtBlocked)
  ∨ (a = ACaller i ∧ i ∈ delivered (notifier y) ∧ panicked y = false
     ∧ y' = set_caller i c AtRecheck y).
Proof.
  intros Hexec Hi.
  destruct (exec_callers a y y' Hexec)
    as [->|[(c' & -> & ->)|(j & c' & pc & pc' & -> & Hj & Hcs)]].
  - by left.
  - left. by apply lookup_app_l_Some.
  - destruct (decide (j = i)) as [->|Hne].
    + right. unfold exec in Hexec. destruct (panicked y) eqn:Hp; [done|].
      apply caller_step_inv in Hexec as (c'' & pc'' & Hl & Hstep).
      rewrite Hi in Hl. injection Hl as <- <-. by destruct Hstep as [Hin ->].
    + left. rewrite Hcs. by rewrite list_lookup_insert_ne.
Qed.

(** C8, as amended: a caller that is blocked on its channel stays blocked
    through every step of every goroutine, whatever time passes, until
    the notifier has delivered on its channel; its own next step then
    takes it to the re-check of the store, and the re-check returns what
    [getResultErr] finds (or the error that nothing is there).  The notifier
    delivers on a channel only when it receives a message that names the id
    the channel is filed under, or when one of its checks finds a record
    for that id.  There is no timeout. *)
Theorem blocked_until_delivered
    (a : action) (y y' : @Sys V) (i : nat) (c : call) :
  exec worker a y = Some y' →
  callers y !! i = Some (mkCaller c AtBlocked) →
  (callers y' !! i = Some (mkCaller c AtBlocked)
   ∨ (a = ACaller i ∧ i ∈ delivered (notifier y)
      ∧ y' = set_caller i c AtRecheck y
      ∧ exec worker (ACaller i) y'
        = Some (set_caller i c
                  (AtReturn
                     (waitFor_result (store y) (call_id c) (call_returnBytes c)).1
                     (waitFor_result (store y) (call_id c) (call_returnBytes c)).2)
                  y')))
  ∧ (i ∈ delivered (notifier y') → i ∉ delivered (notifier y) →
     ∃ id chs, i ∈ chs
       ∧ ((a = AReceive ∧ (∃ rest, chan (store y) = id :: rest) ∧ id ≠ ""
           ∧ watchIds (notifier y) !! id = Some chs)
          ∨ (a = AVisit id ∧ isFinished (store y) id = true
             ∧ watchIds (notifier y) !! id = Some chs)
          ∨ (∃ j c', a = ACaller j
               ∧ callers y !! j = Some (mkCaller c' AtSubscribe)
               ∧ id = call_id c' ∧ isFinished (store y) id = true
               ∧ chs = (default [] (watchIds (notifier y) !! id) ++ [j])%list))).
Proof.
  intros Hexec Hi. split.
  - destruct (blocked_caller_step a y y' i c Hexec Hi)
      as [?|(-> & Hin & Hp & ->)]; [by left|right].
    split_and!; [done..|].
    unfold exec. simpl. rewrite Hp. unfold caller_step. simpl.
    rewrite list_lookup_insert_eq by by eapply lookup_lt_Some.
    by destruct y.
  - intros Hin Hnot. unfold exec in Hexec.
    destruct (panicked y); [done|]. destruct a as [c'|j| |w|w| |id| | |d].
    + by injection Hexec as <-.
    + apply caller_step_inv in Hexec as (c' & pc & Hl & Hstep).
      destruct pc as [| | | | | |ret err];
        [subst y'|subst y'|subst y'|destruct Hstep as [Hsw ->]
        |destruct Hstep as [Hin' ->]|subst y'|done]; try done.
      simpl in Hin. unfold on_subscription in Hin. cbn [sub_id sub_notifyCh] in Hin.
      destruct (isFinished (store y) (call_id c')) eqn:Hf; [|done].
      apply elem_of_delivered_notifyChannels in Hin as [?|(chs & Hl' & Hin)];
        [done|].
      simpl in Hl'. rewrite lookup_insert_eq in Hl'. injection Hl' as <-.
      eexists (call_id c'), _. split; [exact Hin|]. right; right.
      by exists j, c'.
    + apply sched_step_inv in Hexec.
      destruct (sched y); [by subst y'| |by subst y'|done].
      by destruct Hexec as [[_ ->]|[(id & p & s1 & _ & _ & ->)|(id & p & s1 & _ & _ & _ & ->)]].
    + by apply handoff_step_inv in Hexec as (t & hm & _ & _ & ->).
    + apply worker_step_inv in Hexec as [(t & Hw & Hcall)|(id & rec & Hw & ->)];
        [|done].
      by destruct (worker _ _); subst y'.
    + apply notifier_receive_inv in Hexec as (_ & m & rest & Hch & ->).
      case_bool_decide as Hm; [done|]. simpl in Hin.
      apply elem_of_delivered_notifyChannels in Hin as [?|(chs & Hl' & Hin)];
        [done|].
      exists m, chs. split; [done|]. left. split_and!; [done|by exists rest|done..].
    + apply notifier_visit_inv in Hexec as (_ & ->). simpl in Hin.
      unfold notifyAll_visit in Hin.
      destruct (isFinished (store y) id) eqn:Hf; [|done].
      apply elem_of_delivered_notifyChannels in Hin as [?|(chs & Hl' & Hin)];
        [done|].
      exists id, chs. split; [done|]. right; left. done.
    + by injection Hexec as <-.
    + destruct (chan (store y)); [done|]. by injection Hexec as <-.
    + case_bool_decide; [|done]. by injection Hexec as <-.
Qed.

(** ** Interleavings: an id left in the in-progress set

    [x] is in the in-progress set, but no goroutine of this process holds
    a task for it (it was taken by a process that is gone). *)

Section LostWorker.
Variable x : string.
Local Abbreviation orphan := (orphan x).
Local Abbreviation lost := (@lost V x).

Lemma orphan_not_finished (s : Redis) : orphan s → isFinished s x = false.
Proof.
  intros (Hr & He & _). apply not_true_is_false. rewrite isFinished_spec.
  unfold resolved, GET_key, GET_errorKey. rewrite Hr, He.
  intros [[? [=]]|[? [=]]].
Qed.

Lemma orphan_no_save (s : Redis) (priority : Z) :
  orphan s → enq_saveId (enqueue_check s x) priority = false.
Proof.
  intros (_ & _ & _ & Hin). apply not_true_is_false.
  rewrite enq_saveId_spec. by intros [? _].
Qed.

Lemma orphan_enqueue_save (id : string) (priority : Z) (s : Redis) :
  id ≠ x → orphan s → orphan (enqueue_save id priority s).
Proof.
  intros Hne (Hr & He & Hq & Hin). split_and!; simpl; try done.
  by rewrite lookup_insert_ne.
Qed.

Lemma orphan_BLPOP (s : Redis) : orphan s → orphan (BLPOP s).2.
Proof. unfold BLPOP. by destruct (workReady s). Qed.

Lemma orphan_dequeue_pop (s : Redis) : orphan s → orphan (dequeue_pop s).2.
Proof.
  intros Ho. destruct (zfirst (queue s)) as [[id p]|] eqn:Hz.
  - destruct (dequeue_pop_first s id p Hz) as (s1 & -> & Hq1 & [= ? Hi Hr He ? ?]).
    destruct Ho as (? & ? & Hq & ?). unfold orphan. simpl.
    rewrite Hq1, Hi, Hr, He. split_and!; try done.
    apply zfirst_Some in Hz as [Hid _].
    rewrite lookup_delete_ne; [done|]. intros ->. congruence.
  - apply zfirst_None in Hz. by rewrite (dequeue_pop_empty s Hz).
Qed.

Lemma orphan_SADD (id : string) (s : Redis) : orphan s → orphan (SADD id s).
Proof.
  intros (Hr & He & Hq & Hin). split_and!; simpl; try done.
  apply elem_of_union. by right.
Qed.

Lemma orphan_write_exec (id : string) (rec : writeKey * string * bool) (s : Redis) :
  id ≠ x → orphan s → orphan (write_exec id rec s).
Proof.
  intros Hne (Hr & He & Hq & Hin). destruct rec as [[[] data] []];
    split_and!; simpl; try done;
    rewrite ?lookup_alter_ne, ?lookup_insert_ne by done; try done;
    apply elem_of_difference; (split; [done|]);
    by intros ?%elem_of_singleton.
Qed.

Lemma lost_step (a : action) (y y' : @Sys V) :
  exec worker a y = Some y' → lost y → lost y'.
Proof.
  intros Hexec [Hs Hsch Hw Hsv Hwa].
  assert (watching x (λ _, False) y') as Hwa'.
  { apply (watching_step x _ a y y' Hexec); [done| | |done].
    - by rewrite (orphan_not_finished _ Hs).
    - intros w rec Hl. by apply (Hw w _ Hl). }
  unfold exec in Hexec.
  destruct (panicked y); [done|]. destruct a as [c|i| |w|w| |id| | |d].
  - injection Hexec as <-. split; simpl; try done.
    intros i c' [Hl|[_ Hl]]%lookup_app_Some; [by eapply Hsv|].
    by apply list_lookup_singleton_Some in Hl as [_ [=]].
  - apply caller_step_inv in Hexec as (c & pc & Hl & Hstep).
    assert (∀ pc', (pc' = AtSave → call_id c ≠ x) →
              ∀ j c', <[i := mkCaller c pc']> (callers y) !! j
                      = Some (mkCaller c' AtSave) → call_id c' ≠ x) as Hsave.
    { intros pc' Hpc j c' [(-> & [= -> Heq] & _)|[_ Hl']]%list_lookup_insert_Some.
      - by apply Hpc.
      - by eapply Hsv. }
    destruct pc as [| | | | | |ret err];
      [subst y'|subst y'|subst y'|destruct Hstep as [Hsw ->]
      |destruct Hstep as [Hin ->]|subst y'|done];
      (split; simpl; [try done..|]; try done).
    + apply Hsave. intros Heq. by destruct (getResultErr _ _ _) as [[?|] [?|]].
    + apply Hsave. unfold after_check. intros Heq Hx. rewrite Hx in Heq.
      rewrite (orphan_no_save _ _ Hs) in Heq. by destruct (enq_found _).
    + apply orphan_enqueue_save; [by eapply Hsv|done].
    + by apply Hsave.
    + by apply Hsave.
    + by apply Hsave.
    + by apply Hsave.
  - apply sched_step_inv in Hexec.
    destruct (sched y) as [| |id p card|t hm].
    + subst y'. split; simpl; try done. by apply orphan_BLPOP.
    + destruct Hexec as [[_ ->]|[(id & p & s1 & Hz & Hs1 & ->)
                                |(id & p & s1 & Hz & _ & Hs1 & ->)]].
      * by split.
      * split; simpl; try done.
        -- rewrite <- Hs1. by apply orphan_dequeue_pop.
        -- apply zfirst_Some in Hz as [Hid _]. destruct Hs as (_ & _ & Hq & _).
           intros ->. congruence.
      * split; simpl; try done.
        rewrite <- Hs1. by apply orphan_dequeue_pop.
    + subst y'. split; simpl; try done. by apply orphan_SADD.
    + done.
  - apply handoff_step_inv in Hexec as (t & hm & Hsd & Hl & ->).
    split; simpl; try done.
    + by destruct hm.
    + intros w' pc [(-> & <- & _)|[_ Hl']]%list_lookup_insert_Some.
      * by rewrite Hsd in Hsch.
      * by eapply Hw.
  - apply worker_step_inv in Hexec as [(t & Hl & Hcall)|(id & rec & Hl & ->)].
    + pose proof (Hw w _ Hl) as Ht. simpl in Ht.
      destruct (worker _ _); subst y'; split; simpl; try done.
      intros w' pc [(-> & <- & _)|[_ Hl']]%list_lookup_insert_Some; [done|].
      by eapply Hw.
    + pose proof (Hw w _ Hl) as Ht. simpl in Ht.
      split; simpl; try done.
      * by apply orphan_write_exec.
      * intros w' pc [(-> & <- & _)|[_ Hl']]%list_lookup_insert_Some; [done|].
        by eapply Hw.
  - apply notifier_receive_inv in Hexec as (_ & m & rest & Hch & ->).
    by case_bool_decide; split.
  - apply notifier_visit_inv in Hexec as (_ & ->). by split.
  - injection Hexec as <-. by split.
  - destruct (chan (store y)); [done|]. injection Hexec as <-. by split.
  - case_bool_decide; [|done]. injection Hexec as <-. by split.
Qed.

(** A caller for [x] that is blocked stays blocked. *)
Lemma lost_blocked_forever (tr : list action) (y y' : @Sys V) (i : nat) (c : call) :
  lost y →
  callers y !! i = Some (mkCaller c AtBlocked) → call_id c = x →
  run worker tr y = Some y' →
  callers y' !! i = Some (mkCaller c AtBlocked).
Proof.
  intros Hy Hi Hx Hrun.
  assert (∀ a (y y' : @Sys V), exec worker a y = Some y' →
            lost y ∧ callers y !! i = Some (mkCaller c AtBlocked) →
            lost y' ∧ callers y' !! i = Some (mkCaller c AtBlocked)) as Hstep.
  { clear y y' Hy Hi Hrun. intros a y y' Hexec [Hy Hi].
    split; [by eapply lost_step|].
    destruct (blocked_caller_step a y y' i c Hexec Hi) as [?|(_ & Hin & _)];
      [done|].
    destruct (w_delivered _ _ y (l_watching x y Hy) i c AtBlocked Hin Hi Hx). }
  by destruct (run_invariant _ Hstep tr y y' Hrun (conj Hy Hi)).
Qed.

(** A process that starts on a store in which [x] is orphaned. *)
Lemma lost_init (s0 : Redis) (nWorkers : nat) :
  orphan s0 → (x ∈ chan s0 → x = "") → lost (init s0 nWorkers).
Proof.
  intros Ho Hch. split; simpl; try done.
  - by intros w pc [-> _]%lookup_replicate.
  - split; simpl; try done.
    intros ?%Hch. by left.
Qed.

End LostWorker.

(** What a step does to the records: only the write of a worker touches
    them. *)
Lemma exec_records (a : action) (y y' : @Sys V) :
  exec worker a y = Some y' →
  (results (store y') = results (store y) ∧ errors (store y') = errors (store y))
  ∨ (∃ w id rec, a = AWorker w ∧ workers y !! w = Some (WWrite id rec)
                 ∧ store y' = write_exec id rec (store y)).
Proof.
  intros Hexec. unfold exec in Hexec.
  destruct (panicked y); [done|]. destruct a as [c|i| |w|w| |id| | |d].
  - injection Hexec as <-. by left.
  - apply caller_step_inv in Hexec as (c & pc & Hl & Hstep). left.
    by destruct pc as [| | | | | |ret err];
      [subst y'|subst y'|subst y'|destruct Hstep as [Hsw ->]
      |destruct Hstep as [Hin ->]|subst y'|done].
  - apply sched_step_inv in Hexec. left.
    destruct (sched y) as [| |id p card|t hm].
    + subst y'. simpl. unfold BLPOP. by destruct (workReady _).
    + destruct Hexec as [[_ ->]|[(id & p & s1 & Hz & Hs1 & ->)
                                |(id & p & s1 & Hz & _ & Hs1 & ->)]]; [done|..];
        destruct (dequeue_pop_first _ _ _ Hz) as (s1' & Hp & _ & [= ? ? ? ? ? ?]);
        rewrite Hp in Hs1; simpl in Hs1; subst s1'; by simpl.
    + by subst y'.
    + done.
  - apply handoff_step_inv in Hexec as (t & hm & _ & _ & ->). by left.
  - apply worker_step_inv in Hexec as [(t & Hw & Hcall)|(id & rec & Hw & ->)].
    + left. by destruct (worker _ _); subst y'.
    + right. by exists w, id, rec.
  - apply notifier_receive_inv in Hexec as (_ & m & rest & Hch & ->).
    left. by case_bool_decide.
  - apply notifier_visit_inv in Hexec as (_ & ->). by left.
  - injection Hexec as <-. by left.
  - destruct (chan (store y)); [done|]. injection Hexec as <-. by left.
  - case_bool_decide; [|done]. injection Hexec as <-. by left.
Qed.

(** The queue changes in two steps only: the [ZADD] of a caller and the
    pop of the dequeue loop. *)
Lemma exec_queue (a : action) (y y' : @Sys V) :
  exec worker a y = Some y' →
  queue (store y') = queue (store y)
  ∨ (∃ i c, a = ACaller i ∧ callers y !! i = Some (mkCaller c AtSave)
       ∧ queue (store y')
         = <[call_id c := to_double (call_priority c)]> (queue (store y)))
  ∨ (∃ id score, a = ASched ∧ sched y = SDequeue
       ∧ zfirst (queue (store y)) = Some (id, score)
       ∧ queue (store y') = delete id (queue (store y))).
Proof.
  intros Hexec. unfold exec in Hexec.
  destruct (panicked y); [done|]. destruct a as [c|i| |w|w| |id| | |d].
  - injection Hexec as <-. by left.
  - apply caller_step_inv in Hexec as (c & pc & Hl & Hstep).
    destruct pc as [| | | | | |ret err];
      [subst y'|subst y'|subst y'|destruct Hstep as [Hsw ->]
      |destruct Hstep as [Hin ->]|subst y'|done]; try by left.
    right. left. by exists i, c.
  - apply sched_step_inv in Hexec.
    destruct (sched y) as [| |id p card|t hm] eqn:Hsch.
    + subst y'. left. simpl. unfold BLPOP. by destruct (workReady _).
    + destruct Hexec as [[_ ->]|[(id & p & s1 & Hz & Hs1 & ->)
                                |(id & p & s1 & Hz & _ & Hs1 & ->)]];
        [by left|..];
        destruct (dequeue_pop_first _ _ _ Hz) as (s1' & Hp & Hq1 & _);
        rewrite Hp in Hs1; simpl in Hs1; subst s1';
        right; right; by exists id, p.
    + subst y'. by left.
    + done.
  - apply handoff_step_inv in Hexec as (t & hm & _ & _ & ->). by left.
  - apply worker_step_inv in Hexec as [(t & Hw & Hcall)|(id & rec & Hw & ->)].
    + left. by destruct (worker _ _); subst y'.
    + left. simpl. by destruct rec as [[[] data] []].
  - apply notifier_receive_inv in Hexec as (_ & m & rest & Hch & ->).
    left. by case_bool_decide.
  - apply notifier_visit_inv in Hexec as (_ & ->). by left.
  - injection Hexec as <-. by left.
  - destruct (chan (store y)); [done|]. injection Hexec as <-. by left.
  - case_bool_decide; [|done]. injection Hexec as <-. by left.
Qed.

(** While the callers pass priorities that Redis keeps as they are, the
    scores of the queue are such priorities. *)
Lemma scores_exact_step (a : action) (y y' : @Sys V) :
  (∀ i c pc, callers y !! i = Some (mkCaller c pc) →
             exact_score (call_priority c)) →
  exec worker a y = Some y' →
  scores_exact (store y) → scores_exact (store y').
Proof.
  intros Hc Hexec Hex id score.
  destruct (exec_queue a y y' Hexec)
    as [->|[(i & c & _ & Hl & ->)|(id' & p & _ & _ & _ & ->)]].
  - apply Hex.
  - destruct (decide (id = call_id c)) as [->|Hne].
    + rewrite lookup_insert_eq. intros [= <-].
      rewrite to_double_exact; by eapply Hc.
    + rewrite lookup_insert_ne by done. apply Hex.
  - intros [_ Hl]%lookup_delete_Some. by eapply Hex.
Qed.

(** A result record, once written, is never removed. *)
Lemma result_record_stays (tr : list action) (y y' : @Sys V) (id : string) :
  run worker tr y = Some y' →
  is_Some (results (store y) !! id) → is_Some (results (store y') !! id).
Proof.
  intros Hrun.
  apply (run_invariant (λ y, is_Some (results (store y) !! id))) with (tr := tr);
    [|done].
  clear. intros a y y' Hexec Hy.
  destruct (exec_records a y y' Hexec) as [[-> _]|(w & id' & rec & _ & _ & ->)];
    [done|].
  destruct rec as [[[] data] []]; simpl; try done;
    by destruct (decide (id' = id)) as [->|];
      rewrite ?lookup_insert_eq, ?lookup_insert_ne by done.
Qed.

(** ** Interleavings: every caller gets the worker's payload *)

Section RoundTrip.
Variable x : string.
Variable P : V.
Variable b : string.
Hypothesis worker_returns : ∀ priority, worker priority x = Returns (Some P) None.
Hypothesis encodes : Encode (Some P) = (b, None).
Hypothesis decodes : Decode b = (Some P, None).
Local Abbreviation payload := (@payload V P b).
Local Abbreviation fresh := (fresh x b).
Local Abbreviation has_payload := (has_payload x b).
Local Abbreviation serving := (@serving V x P b).
Local Abbreviation cold_then_warm := (cold_then_warm x).

Lemma worker_record_payload : worker_record (Some P) None = (WriteKey, b, false).
Proof. unfold worker_record. by rewrite encodes. Qed.

Lemma fresh_getResultErr (s : Redis) (returnBytes : bool) :
  fresh s →
  (results s !! x = None ∧ getResultErr s x returnBytes = (None, None))
  ∨ (results s !! x = Some b
     ∧ getResultErr s x returnBytes = (Some (payload returnBytes), None)).
Proof.
  intros [He Hr]. unfold getResultErr, GET_errorKey, GET_key. rewrite He.
  destruct Hr as [Hr|Hr]; rewrite Hr; [by left|right].
  split; [done|]. unfold payload. destruct returnBytes; [done|].
  by rewrite decodes.
Qed.

Lemma fresh_finished (s : Redis) : fresh s → isFinished s x = true → has_payload s.
Proof.
  intros [He Hr] [[v Hv]|[v Hv]]%isFinished_spec.
  - unfold GET_key in Hv. destruct Hr; [congruence|done].
  - unfold GET_errorKey in Hv. by rewrite He in Hv.
Qed.

Lemma fresh_write_exec (id : string) (rec : writeKey * string * bool) (s : Redis) :
  (id = x → rec = (WriteKey, b, false)) →
  fresh s →
  fresh (write_exec id rec s)
  ∧ (has_payload s → has_payload (write_exec id rec s))
  ∧ (id = x → has_payload (write_exec id rec s)).
Proof.
  intros Hrec [He Hr]. unfold fresh, has_payload.
  destruct (decide (id = x)) as [->|Hne].
  - rewrite (Hrec eq_refl). simpl. rewrite lookup_insert_eq. by eauto.
  - destruct rec as [[[] data] []]; simpl;
      rewrite ?lookup_alter_ne, ?lookup_insert_ne by done; by eauto.
Qed.

Lemma serving_step (a : action) (y y' : @Sys V) :
  exec worker a y = Some y' → serving y → serving y'.
Proof.
  intros Hexec [Hs Hw Hwa Hret].
  assert (fresh (store y') ∧ (has_payload (store y) → has_payload (store y')))
    as [Hs' HR].
  { destruct (exec_records a y y' Hexec)
      as [[Hr He]|(w & id & rec & _ & Hl & ->)].
    - unfold fresh, has_payload. rewrite Hr, He. done.
    - destruct (fresh_write_exec id rec (store y)) as (? & ? & _); [|done..].
      intros ->. by eapply Hw. }
  assert (watching x has_payload y') as Hwa'.
  { apply (watching_step x _ a y y' Hexec); [done| | |done].
    - by apply fresh_finished.
    - intros w rec Hl. by apply fresh_write_exec; [intros _; eapply Hw|..]. }
  split; [done| |done|].
  - unfold exec in Hexec.
    destruct (panicked y); [done|]. destruct a as [c|i| |w|w| |id| | |d].
    + injection Hexec as <-. done.
    + apply caller_step_inv in Hexec as (c & pc & Hl & Hstep).
      by destruct pc as [| | | | | |ret err];
        [subst y'|subst y'|subst y'|destruct Hstep as [Hsw ->]
        |destruct Hstep as [Hin ->]|subst y'|done].
    + apply sched_step_inv in Hexec.
      destruct (sched y); [by subst y'| |by subst y'|done].
      by destruct Hexec as [[_ ->]|[(id & p & s1 & _ & _ & ->)|(id & p & s1 & _ & _ & _ & ->)]].
    + apply handoff_step_inv in Hexec as (t & hm & _ & _ & ->). simpl.
      intros w' rec [(_ & [=] & _)|[_ Hl']]%list_lookup_insert_Some.
      by eapply Hw.
    + apply worker_step_inv in Hexec as [(t & Hl & Hcall)|(id & rec & Hl & ->)].
      * destruct (worker _ _) as [r e|] eqn:Hres; subst y'; simpl; [|done].
        intros w' rec [(_ & [= Hid <-] & _)|[_ Hl']]%list_lookup_insert_Some;
          [|by eapply Hw].
        rewrite Hid, worker_returns in Hres. injection Hres as <- <-.
        apply worker_record_payload.
      * simpl. intros w' rec' [(_ & [=] & _)|[_ Hl']]%list_lookup_insert_Some.
        by eapply Hw.
    + apply notifier_receive_inv in Hexec as (_ & m & rest & Hch & ->).
      by case_bool_decide.
    + by apply notifier_visit_inv in Hexec as (_ & ->).
    + by injection Hexec as <-.
    + destruct (chan (store y)); [done|]. by injection Hexec as <-.
    + case_bool_decide; [|done]. by injection Hexec as <-.
  - intros j c' ret err Hj Hx.
    destruct (exec_callers a y y' Hexec)
      as [Heq|[(c & -> & Heq)|(i & c & pc & pc' & -> & Hl & Heq)]];
      rewrite Heq in Hj.
    + by eapply Hret.
    + apply lookup_app_Some in Hj as [Hj|[_ Hj]]; [by eapply Hret|].
      by apply list_lookup_singleton_Some in Hj as [_ [=]].
    + apply list_lookup_insert_Some in Hj as [(-> & [= -> Hpc] & _)|[_ Hj]];
        [|by eapply Hret].
      unfold exec in Hexec. destruct (panicked y); [done|].
      apply caller_step_inv in Hexec as (c & pc'' & Hl' & Hstep).
      rewrite Hl in Hl'. injection Hl' as <- <-.
      assert (callers y' !! j = Some (mkCaller c' (AtReturn ret err))) as Hj'.
      { rewrite Heq, Hpc. apply list_lookup_insert_eq. by eapply lookup_lt_Some. }
      destruct pc as [| | | | | |ret0 err0];
        [subst y'|subst y'|subst y'|destruct Hstep as [Hsw ->]
        |destruct Hstep as [Hin ->]|subst y'|done];
        simpl in Hj'; rewrite list_lookup_insert_eq in Hj'
          by (by eapply lookup_lt_Some);
        try discriminate Hj'; rewrite Hx in Hj'.
      * destruct (fresh_getResultErr (store y) (call_returnBytes c') Hs)
          as [[_ Hg]|[_ Hg]]; rewrite Hg in Hj'; simpl in Hj'; [done|].
        by injection Hj' as <- <-.
      * unfold after_check in Hj'.
        by destruct (enq_saveId _ _); [|destruct (enq_found _)].
      * assert (has_payload (store y)) as Hp by by eapply (w_recheck _ _ y Hwa).
        destruct (fresh_getResultErr (store y) (call_returnBytes c') Hs)
          as [[Hn _]|[_ Hg]]; [unfold has_payload in Hp; congruence|].
        unfold waitFor_result in Hj'. rewrite Hg in Hj'. simpl in Hj'.
        by injection Hj' as <- <-.
Qed.

Lemma serving_init (s0 : Redis) (nWorkers : nat) :
  fresh s0 → (x ∈ chan s0 → x = "" ∨ has_payload s0) →
  serving (init s0 nWorkers).
Proof.
  intros Hf Hch. split; simpl; try done.
  by intros w rec [[=] _]%lookup_replicate.
Qed.

Lemma run_cons (a : action) (tr : list action) (y y1 : @Sys V) :
  exec worker a y = Some y1 → run worker (a :: tr) y = run worker tr y1.
Proof. simpl. by intros ->. Qed.

Lemma getResultErr_payload (s : Redis) (returnBytes : bool) :
  errors s !! x = None → results s !! x = Some b →
  getResultErr s x returnBytes = (Some (payload returnBytes), None).
Proof.
  intros He Hr. destruct (fresh_getResultErr s returnBytes) as [[? _]|[_ ?]];
    [by split; [|right]|congruence|done].
Qed.

Ltac flat_state :=
  unfold set_caller, set_store, set_sched, set_worker, set_notifier,
    add_caller, log_call, init; simpl.

Lemma cold_then_warm_run (priority : Z) (returnBytes : bool) :
  exact_score priority →
  ∃ y, run worker (cold_then_warm priority returnBytes) (init emptyRedis 1) = Some y
     ∧ callers y
       = [ mkCaller (CallGet priority returnBytes x)
             (AtReturn (Some (payload returnBytes)) None);
           mkCaller (CallGet priority returnBytes x)
             (AtReturn (Some (payload returnBytes)) None) ]
     ∧ calls y = [(priority, x)].
Proof.
  intros Hexact.
  set (c := CallGet priority returnBytes x).
  unfold cold_then_warm. fold c.
  erewrite run_cons; [|unfold exec; flat_state; reflexivity].
  erewrite run_cons.
  2:{ unfold exec, caller_step. simpl.
      rewrite (getResultErr_miss emptyRedis x returnBytes) by done.
      flat_state. reflexivity. }
  erewrite run_cons.
  2:{ unfold exec, caller_step. simpl. unfold after_check.
      assert (enq_saveId (enqueue_check emptyRedis x) priority = true) as ->.
      { apply enq_saveId_spec. split_and!; [by intros ?%not_elem_of_empty| |done].
        intros [[? [=]]|[? [=]]]. }
      flat_state. reflexivity. }
  erewrite run_cons; [|unfold exec, caller_step; flat_state; reflexivity].
  erewrite run_cons; [|unfold exec, sched_step; flat_state; reflexivity].
  erewrite run_cons.
  2:{ unfold exec, sched_step. simpl.
      unfold dequeue_pop, ZRANGE_0_0, ZREMRANGEBYRANK_0_0. simpl.
      rewrite (to_double_exact _ Hexact).
      rewrite (zfirst_unique (<[x:=priority]> ∅) x priority).
      2:{ apply lookup_insert_eq. }
      2:{ intros id' p' [[-> ->]|[_ [=]]]%lookup_insert_Some. apply entry_le_refl. }
      simpl. unfold ZCARD. simpl.
      rewrite delete_insert_eq, delete_empty, map_size_empty.
      rewrite (Int64_reply_exact _ Hexact).
      flat_state. reflexivity. }
  erewrite run_cons; [|unfold exec, sched_step; flat_state; reflexivity].
  erewrite run_cons; [|unfold exec, handoff_step; flat_state; reflexivity].
  erewrite run_cons.
  2:{ unfold exec, worker_step. simpl.
      rewrite worker_returns, worker_record_payload. flat_state. reflexivity. }
  erewrite run_cons; [|unfold exec, worker_step; flat_state; reflexivity].
  set (s5 := PUBLISH x _).
  assert (errors s5 !! x = None ∧ results s5 !! x = Some b) as [He Hr].
  { unfold s5. simpl. by rewrite lookup_insert_eq. }
  assert (isFinished s5 x = true) as Hfin.
  { apply isFinished_spec. left. unfold GET_key. by rewrite Hr. }
  erewrite run_cons.
  2:{ unfold exec, caller_step. simpl. unfold on_subscription. simpl.
      rewrite Hfin. flat_state. reflexivity. }
  erewrite run_cons.
  2:{ unfold exec, caller_step. simpl. rewrite bool_decide_eq_true_2.
      - flat_state. reflexivity.
      - rewrite lookup_insert_eq. simpl. set_solver. }
  erewrite run_cons.
  2:{ unfold exec, caller_step. simpl. unfold waitFor_result.
      rewrite (getResultErr_payload s5 returnBytes He Hr).
      flat_state. reflexivity. }
  erewrite run_cons; [|unfold exec; flat_state; reflexivity].
  erewrite run_cons.
  2:{ unfold exec, caller_step. simpl.
      rewrite (getResultErr_payload s5 returnBytes He Hr). flat_state. reflexivity. }
  eexists. split; [reflexivity|]. by simpl.
Qed.

End RoundTrip.

(** ** Interleavings: the sweep after a reconnect *)

Lemma notifyAll_range_ext (s s' : Redis) (ids : list string) (n : Notifier) :
  (∀ id, isFinished s id = isFinished s' id) →
  notifyAll_range s ids n = notifyAll_range s' ids n.
Proof.
  intros Hs. revert n. induction ids as [|id ids IH]; intros n; simpl; [done|].
  unfold notifyAll_visit. by rewrite Hs, IH.
Qed.

(** The visits of [notifyAll], with no other goroutine in between. *)
Lemma visits_run (ids : list string) (y : @Sys V) :
  panicked y = false → NoDup ids → (∀ id, id ∈ ids → id ∈ sweeping y) →
  run worker (AVisit <$> ids) y
  = Some (set_notifier (notifyAll_range (store y) ids (notifier y))
            (sweeping y ∖ list_to_set ids) y).
Proof.
  revert y. induction ids as [|id ids IH]; intros y Hp Hnd Hin.
  - simpl. rewrite difference_empty_L. by destruct y.
  - apply NoDup_cons in Hnd as [Hid Hnd]. cbn [fmap list_fmap run].
    unfold exec. rewrite Hp. unfold notifier_visit.
    rewrite bool_decide_eq_true_2 by apply Hin, list_elem_of_here.
    rewrite IH; [|done..|].
    + unfold set_notifier. simpl. do 2 f_equal. apply set_eq. intros z.
      rewrite !elem_of_difference, ?elem_of_union, ?elem_of_list_to_set,
        ?elem_of_cons, ?elem_of_singleton. tauto.
    + intros id' Hid'. simpl. apply elem_of_difference. split.
      * by apply Hin, list_elem_of_further.
      * intros ->%elem_of_singleton. done.
Qed.

(** The notifier receives the sentinel and visits every watched id, in
    any order: the outcome is that of [notifyAll_range] on the store of
    that time. *)
Lemma sentinel_run (ids rest : list string) (y : @Sys V) :
  panicked y = false → sweeping y = ∅ → chan (store y) = "" :: rest →
  NoDup ids → (∀ id, id ∈ ids ↔ is_Some (watchIds (notifier y) !! id)) →
  run worker (AReceive :: (AVisit <$> ids)) y
  = Some (set_notifier (notifyAll_range (store y) ids (notifier y)) ∅
            (set_store (receive (store y)) y)).
Proof.
  intros Hp Hsw Hch Hnd Hids. cbn [run]. unfold exec. rewrite Hp.
  unfold notifier_receive. rewrite bool_decide_eq_true_2 by done.
  rewrite Hch. rewrite bool_decide_eq_true_2 by done.
  rewrite visits_run; [|done..|].
  - unfold set_notifier, set_store. simpl. do 2 f_equal.
    + by apply notifyAll_range_ext.
    + apply set_eq. intros id.
      rewrite elem_of_difference, elem_of_dom, <- Hids, elem_of_list_to_set.
      split; [tauto|]. by intros ?%not_elem_of_empty.
  - intros id Hid. simpl. by apply elem_of_dom, Hids.
Qed.

End Interleavings.

Lemma orphan_x_in_progress : orphan "x" x_in_progress.
Proof.
  split_and!; [by vm_compute..|]. apply (bool_decide_unpack _). by vm_compute.
Qed.

(** C8, counterexample: the caller that waits for the orphaned ["x"] is
    blocked on its channel, and it is still blocked after any further run
    of the process, however many seconds pass in it: nothing wakes it and
    there is no timeout. *)
Lemma lost_worker_blocks_forever :
  ∃ y0, run (codec := stringCodec) priorityWorker wait_for_lost
          (init x_in_progress 1) = Some y0
      ∧ callers y0 !! 0%nat = Some (mkCaller (CallGet 1 false "x") AtBlocked)
      ∧ ∀ tr y, run (codec := stringCodec) priorityWorker tr y0 = Some y →
                callers y !! 0%nat
                = Some (mkCaller (CallGet 1 false "x") AtBlocked).
Proof.
  assert (∃ y0, run (codec := stringCodec) priorityWorker wait_for_lost
                  (init x_in_progress 1) = Some y0
              ∧ callers y0 !! 0%nat
                = Some (mkCaller (CallGet 1 false "x") AtBlocked))
    as (y0 & Hrun0 & Hc) by (eexists; split; by vm_compute).
  exists y0. split; [exact Hrun0|]. split; [exact Hc|].
  intros tr y Hrun.
  apply (lost_blocked_forever (codec := stringCodec) priorityWorker "x"
           tr y0 y 0%nat (CallGet 1 false "x")); [|exact Hc|done|exact Hrun].
  apply (run_invariant (codec := stringCodec) priorityWorker (lost "x")
           (lost_step priorityWorker "x") wait_for_lost (init x_in_progress 1)
           y0 Hrun0).
  apply lost_init; [apply orphan_x_in_progress|by intros []%elem_of_nil].
Qed.

Lemma blocked_until_delivered_witness :
  ∃ y0 y1, run (codec := stringCodec) priorityWorker wait_for_lost
             (init x_in_progress 1) = Some y0
         ∧ exec (codec := stringCodec) priorityWorker (ATick 3600) y0 = Some y1
         ∧ callers y1 !! 0%nat
           = Some (mkCaller (CallGet 1 false "x") AtBlocked).
Proof.
  assert (∃ y0 y1, run (codec := stringCodec) priorityWorker wait_for_lost
                     (init x_in_progress 1) = Some y0
                 ∧ exec (codec := stringCodec) priorityWorker (ATick 3600) y0
                   = Some y1
                 ∧ callers y0 !! 0%nat
                   = Some (mkCaller (CallGet 1 false "x") AtBlocked))
    as (y0 & y1 & Hrun0 & Hexec & Hc) by (eexists _, _; split_and!; by vm_compute).
  exists y0, y1. split; [exact Hrun0|]. split; [exact Hexec|].
  destruct (blocked_until_delivered (codec := stringCodec) priorityWorker
              (ATick 3600) y0 y1 0%nat (CallGet 1 false "x") Hexec Hc)
    as [[H|(Hfalse & _)] _]; [exact H|discriminate Hfalse].
Defined.

(** C9: on the reconnect sentinel (the empty message) the notifier runs
    [notifyAll]: it receives the message and then checks every watched id
    against the store, in whatever order [range] yields them.  Each id
    that has a result or a live error record has all its waiters woken and
    leaves the watch list, each other id keeps its waiters, and nobody else
    is woken.  A subscription for an id that already has a record is woken
    when it is taken. *)
Theorem reconnect_wakes_resolved (s : Redis) (n : Notifier) :
  on_finished s "" n = notifyAll s n
  ∧ (∀ id, id ∈ elements (dom (watchIds n)) ↔ is_Some (watchIds n !! id))
  ∧ (∀ ids, (∀ id, id ∈ ids ↔ is_Some (watchIds n !! id)) →
       (∀ id chs, watchIds n !! id = Some chs →
          if isFinished s id
          then (∀ c, c ∈ chs → c ∈ delivered (notifyAll_range s ids n))
               ∧ watchIds (notifyAll_range s ids n) !! id = None
          else watchIds (notifyAll_range s ids n) !! id = Some chs)
       ∧ (∀ c, c ∈ delivered (notifyAll_range s ids n) ↔
               c ∈ delivered n
               ∨ ∃ id chs, watchIds n !! id = Some chs ∧ resolved s id ∧ c ∈ chs))
  ∧ (∀ sub, isFinished s (sub_id sub) = true →
       sub_notifyCh sub ∈ delivered (on_subscription s sub n)
       ∧ watchIds (on_subscription s sub n) !! sub_id sub = None)
  ∧ (∀ (V : Type) (codec : LRUCodec V) (worker : Z → string → callOutcome V)
       (y : @Sys V) (ids rest : list string),
       store y = s → notifier y = n →
       panicked y = false → sweeping y = ∅ → chan s = "" :: rest →
       NoDup ids → (∀ id, id ∈ ids ↔ is_Some (watchIds n !! id)) →
       run worker (AReceive :: (AVisit <$> ids)) y
       = Some (set_notifier (notifyAll_range s ids n) ∅
                 (set_store (receive s) y))).
Proof.
  split_and!.
  - done.
  - intros id. by rewrite elem_of_elements, elem_of_dom.
  - intros ids Hkeys. split.
    + intros id chs Hw. destruct (isFinished s id) eqn:Hf.
      * split.
        -- intros c Hc. apply notifyAll_range_delivered. right.
           exists id, chs. split_and!; [|done..]. apply Hkeys. by exists chs.
        -- rewrite notifyAll_range_watchIds, bool_decide_eq_true_2; [done|].
           split; [|done]. apply Hkeys. by exists chs.
      * rewrite notifyAll_range_watchIds, bool_decide_eq_false_2; [done|].
        intros [_ ?]. congruence.
    + intros c. rewrite notifyAll_range_delivered.
      split; (intros [?|(id & chs & H)]; [by left|right; exists id, chs]).
      * destruct H as (_ & Hf & ? & ?). by apply isFinished_spec in Hf.
      * destruct H as (Hw & Hf & ?).
        split_and!; [|by apply isFinished_spec|done..].
        apply Hkeys. by exists chs.
  - intros [id c] Hf. unfold on_subscription. simpl in *. rewrite Hf. split.
    + apply elem_of_delivered_notifyChannels. right. simpl.
      eexists. rewrite lookup_insert_eq. split; [done|].
      apply elem_of_app. right. apply list_elem_of_here.
    + simpl. apply lookup_delete_eq.
  - intros V codec worker y ids rest <- <- Hp Hsw Hch Hnd Hids.
    by apply (sentinel_run worker ids rest).
Qed.

(** The run [lost_message_then_reconnect]: after 13 steps the caller is
    blocked although the result of ["x"] is written, because the message
    was lost; only the sentinel is in flight.  The notifier receives it,
    visits ["x"], and the caller returns the value. *)
Example reconnect_wakes_blocked_caller :
  ∃ y1 y2,
    run (codec := stringCodec) pickyWorker (take 13 lost_message_then_reconnect)
      (init emptyRedis 1) = Some y1
    ∧ c_pc <$> callers y1 !! 0%nat = Some AtBlocked
    ∧ results (store y1) !! "x" = Some "x"
    ∧ chan (store y1) = [""]
    ∧ run (codec := stringCodec) pickyWorker (drop 13 lost_message_then_reconnect)
        y1 = Some y2
    ∧ c_pc <$> callers y2 !! 0%nat = Some (AtReturn (Some (Val "x")) None).
Proof. eexists _, _. repeat (split; [by vm_compute|]). by vm_compute. Qed.

(** * Further properties *)

(** ** The queue in rank order *)

Lemma zfirst_size (q : gmap string Z) (id : string) (p : Z) :
  zfirst q = Some (id, p) → size q = S (size (delete id q)).
Proof.
  intros [Hq _]%zfirst_Some.
  rewrite <-(insert_delete_id q id p Hq) at 1.
  by rewrite map_size_insert_None by apply lookup_delete_eq.
Qed.

Lemma zrange_from_lookup (n : nat) (q : gmap string Z) (id : string) (p : Z) :
  (id, p) ∈ zrange_from n q → q !! id = Some p.
Proof.
  revert q. induction n as [|n IH]; intros q; simpl; [by intros ?%elem_of_nil|].
  destruct (zfirst q) as [[id0 p0]|] eqn:Hz; [|by intros ?%elem_of_nil].
  intros [[= -> ->]|Hin]%elem_of_cons.
  - by apply zfirst_Some in Hz as [? _].
  - apply IH in Hin. by apply lookup_delete_Some in Hin as [_ ?].
Qed.

Lemma zrange_from_length (n : nat) (q : gmap string Z) :
  length (zrange_from n q) = Nat.min n (size q).
Proof.
  revert q. induction n as [|n IH]; intros q; simpl; [done|].
  destruct (zfirst q) as [[id0 p0]|] eqn:Hz.
  - simpl. rewrite IH, (zfirst_size q id0 p0 Hz). lia.
  - apply zfirst_None in Hz. subst q. by rewrite map_size_empty.
Qed.

Lemma zrange_from_sorted (n : nat) (q : gmap string Z) :
  StronglySorted (λ a b, entry_le a b = true) (zrange_from n q).
Proof.
  revert q. induction n as [|n IH]; intros q; simpl; [constructor|].
  destruct (zfirst q) as [[id0 p0]|] eqn:Hz; [|constructor].
  constructor; [apply IH|]. apply Forall_forall. intros [id p] Hin.
  apply zrange_from_lookup, lookup_delete_Some in Hin as [_ Hq].
  apply zfirst_Some in Hz as [_ Hmin]. by apply Hmin.
Qed.

Lemma zrange_from_NoDup (n : nat) (q : gmap string Z) :
  NoDup (zrange_from n q).*1.
Proof.
  revert q. induction n as [|n IH]; intros q; simpl; [constructor|].
  destruct (zfirst q) as [[id0 p0]|] eqn:Hz; [|constructor].
  simpl. constructor; [|apply IH].
  intros ([id p] & Hid & Hin)%list_elem_of_fmap. simpl in Hid. subst id.
  apply zrange_from_lookup in Hin. by rewrite lookup_delete_eq in Hin.
Qed.

(** What is not among the first [n] is ranked after all of them. *)
Lemma zrange_from_rest (n : nat) (q : gmap string Z) (id : string) (p : Z)
    (e : string * Z) :
  q !! id = Some p → id ∉ (zrange_from n q).*1 → e ∈ zrange_from n q →
  entry_le e (id, p) = true.
Proof.
  revert q. induction n as [|n IH]; intros q; simpl; [by intros _ _ ?%elem_of_nil|].
  destruct (zfirst q) as [[id0 p0]|] eqn:Hz; [|by intros _ _ ?%elem_of_nil].
  simpl. intros Hq Hnot [->|Hin]%elem_of_cons.
  - apply zfirst_Some in Hz as [_ Hmin]. by apply Hmin.
  - apply not_elem_of_cons in Hnot as [Hne Hnot].
    apply (IH (delete id0 q)); [|done..]. by rewrite lookup_delete_ne.
Qed.

(** With [n] at least the size, nothing is left out. *)
Lemma zrange_from_full (n : nat) (q : gmap string Z) (id : string) (p : Z) :
  (size q ≤ n)%nat → q !! id = Some p → (id, p) ∈ zrange_from n q.
Proof.
  revert q. induction n as [|n IH]; intros q Hn Hq.
  - assert (q = ∅) as -> by (apply map_size_empty_iff; lia).
    by rewrite lookup_empty in Hq.
  - simpl. destruct (zfirst q) as [[id0 p0]|] eqn:Hz.
    + pose proof (zfirst_size q id0 p0 Hz) as Hsz.
      destruct (decide (id = id0)) as [->|Hne].
      * apply zfirst_Some in Hz as [Hq0 _].
        assert (p = p0) as -> by congruence. apply list_elem_of_here.
      * apply list_elem_of_further, IH; [lia|]. by rewrite lookup_delete_ne.
    + apply zfirst_None in Hz. subst q. by rewrite lookup_empty in Hq.
Qed.

Lemma zrange_from_ge (n : nat) (q : gmap string Z) :
  (size q ≤ n)%nat → zrange_from n q = zsorted q.
Proof.
  unfold zsorted. revert q. induction n as [|n IH]; intros q Hn.
  - assert (q = ∅) as -> by (apply map_size_empty_iff; lia).
    by rewrite map_size_empty.
  - simpl. destruct (zfirst q) as [[id0 p0]|] eqn:Hz.
    + pose proof (zfirst_size q id0 p0 Hz) as Hsz. rewrite Hsz. simpl.
      rewrite Hz. f_equal. apply IH. lia.
    + apply zfirst_None in Hz. subst q. by rewrite map_size_empty.
Qed.

Lemma zrange_from_take (k n : nat) (q : gmap string Z) :
  take k (zrange_from n q) = zrange_from (Nat.min k n) q.
Proof.
  revert n q. induction k as [|k IH]; intros n q; [done|].
  destruct n as [|n]; simpl; [done|].
  destruct (zfirst q) as [[id0 p0]|]; [|done]. simpl. by rewrite IH.
Qed.

(** ** [dequeue], called again and again *)

Lemma scores_exact_delete (s s' : Redis) (id : string) :
  queue s' = delete id (queue s) → scores_exact s → scores_exact s'.
Proof.
  intros Hq Hex id' score. rewrite Hq. intros [_ Hl]%lookup_delete_Some.
  by eapply Hex.
Qed.

Lemma scores_exact_first (s : Redis) (id : string) (p : Z) :
  scores_exact s → zfirst (queue s) = Some (id, p) → exact_score p.
Proof. intros Hex [Hq _]%zfirst_Some. by eapply Hex. Qed.

Lemma dequeue_first (s : Redis) (id : string) (p : Z) :
  exact_score p →
  zfirst (queue s) = Some (id, p) →
  ∃ s', dequeue s = ((Some (mkTask id p), Z.of_nat (size (queue s')), None), s')
        ∧ queue s' = delete id (queue s)
        ∧ inProgress s' = {[id]} ∪ inProgress s
        ∧ (workReady s', results s', errors s', chan s', now s')
          = (workReady s, results s, errors s, chan s, now s).
Proof.
  intros Hp Hz. unfold dequeue.
  destruct (dequeue_pop_first s id p Hz) as (s1 & -> & Hq1 & [= ? ? ? ? ? ?]).
  simpl. rewrite (Int64_reply_exact p Hp).
  exists (SADD id s1). split; [reflexivity|]. simpl.
  split_and!; [done| |]; congruence.
Qed.

Lemma dequeue_none (s : Redis) :
  zfirst (queue s) = None → dequeue s = ((None, 0%Z, None), s).
Proof.
  intros Hz%zfirst_None. unfold dequeue. by rewrite (dequeue_pop_empty s Hz).
Qed.

Lemma dequeue_n_tasks (n : nat) (s : Redis) :
  scores_exact s →
  (dequeue_n n s).1 = task_of <$> zrange_from n (queue s).
Proof.
  revert s. induction n as [|n IH]; intros s Hex; simpl; [done|].
  destruct (zfirst (queue s)) as [[id p]|] eqn:Hz.
  - destruct (dequeue_first s id p (scores_exact_first s id p Hex Hz) Hz)
      as (s' & -> & Hq & _).
    specialize (IH s' (scores_exact_delete s s' id Hq Hex)).
    destruct (dequeue_n n s') as [ts s'']. simpl in *.
    by rewrite IH, Hq.
  - by rewrite (dequeue_none s Hz).
Qed.

Lemma dequeue_n_store (n : nat) (s : Redis) :
  scores_exact s →
  let ids := (zrange_from n (queue s)).*1 in
  let s' := (dequeue_n n s).2 in
  (∀ id, id ∈ ids → queue s' !! id = None)
  ∧ (∀ id, id ∉ ids → queue s' !! id = queue s !! id)
  ∧ inProgress s' = inProgress s ∪ list_to_set ids
  ∧ (workReady s', results s', errors s', chan s', now s')
    = (workReady s, results s, errors s, chan s, now s).
Proof.
  revert s. induction n as [|n IH]; intros s Hex; simpl.
  { split_and!; [by intros id ?%elem_of_nil|done| |done].
    by rewrite (right_id_L ∅ (∪)). }
  destruct (zfirst (queue s)) as [[id0 p0]|] eqn:Hz.
  - destruct (dequeue_first s id0 p0 (scores_exact_first s id0 p0 Hex Hz) Hz)
      as (s' & -> & Hq & Hinp & [= ? ? ? ? ?]).
    destruct (IH s' (scores_exact_delete s s' id0 Hq Hex))
      as (IHin & IHout & IHinp & [= ? ? ? ? ?]).
    destruct (dequeue_n n s') as [ts s'']. simpl in *.
    rewrite Hq in *. split_and!.
    + intros id [->|Hin]%elem_of_cons; [|by apply IHin].
      destruct (decide (id0 ∈ (zrange_from n (delete id0 (queue s))).*1)).
      * by apply IHin.
      * rewrite IHout by done. apply lookup_delete_eq.
    + intros id [Hne Hnot]%not_elem_of_cons.
      rewrite IHout by done. by apply lookup_delete_ne.
    + rewrite IHinp, Hinp. apply set_eq. intros z.
      rewrite !elem_of_union. tauto.
    + congruence.
  - rewrite (dequeue_none s Hz). simpl.
    split_and!; [by intros id ?%elem_of_nil|done| |done].
    by rewrite (right_id_L ∅ (∪)).
Qed.

Lemma task_of_ids (l : list (string * Z)) : task_id <$> (task_of <$> l) = l.*1.
Proof. rewrite <-list_fmap_compose. by apply list_fmap_ext. Qed.

Lemma task_of_sorted (l : list (string * Z)) :
  StronglySorted (λ a b, entry_le a b = true) l →
  StronglySorted task_le (task_of <$> l).
Proof.
  induction 1 as [|[id p] l _ IH Hall]; simpl; constructor; [done|].
  apply Forall_fmap. eapply Forall_impl; [exact Hall|]. by intros [id' p'].
Qed.

(** X1.  The scores in the queue are at most 2^53 in absolute value, so
    that Redis returns them as the priorities that were queued.  [n] calls
    of [dequeue] in a row return the first [n] entries of
    the queue (all of them when it has no more than [n]) in the order of
    the sorted set: by priority value, equal priorities by id.  Each
    returned task is an entry the queue had, no id is returned twice, the
    entries that stay are exactly those not returned and none of them is
    ranked before a returned one, the returned ids are added to the
    in-progress set, and the queue is empty after as many calls as it had
    entries. *)
Theorem dequeue_n_in_rank_order (n : nat) (s : Redis) :
  scores_exact s →
  let ts := (dequeue_n n s).1 in
  let s' := (dequeue_n n s).2 in
  length ts = Nat.min n (size (queue s))
  ∧ StronglySorted task_le ts
  ∧ NoDup (task_id <$> ts)
  ∧ (∀ t, t ∈ ts → queue s !! task_id t = Some (task_priority t))
  ∧ (∀ id p, queue s' !! id = Some p ↔
             queue s !! id = Some p ∧ id ∉ task_id <$> ts)
  ∧ (∀ id p t, queue s' !! id = Some p → t ∈ ts → task_le t (mkTask id p))
  ∧ inProgress s' = inProgress s ∪ list_to_set (task_id <$> ts)
  ∧ ((size (queue s) ≤ n)%nat → queue s' = ∅).
Proof.
  intros Hex ts s'. subst ts s'.
  destruct (dequeue_n_store n s Hex) as (Hin & Hout & Hinp & _).
  rewrite dequeue_n_tasks, task_of_ids by done.
  assert (∀ id p, queue (dequeue_n n s).2 !! id = Some p ↔
                  queue s !! id = Some p ∧ id ∉ (zrange_from n (queue s)).*1)
    as Hleft.
  { intros id p. destruct (decide (id ∈ (zrange_from n (queue s)).*1)) as [Hd|Hd].
    - rewrite (Hin id Hd). split; [done|tauto].
    - rewrite (Hout id Hd). tauto. }
  split_and!.
  - by rewrite length_fmap, zrange_from_length.
  - apply task_of_sorted, zrange_from_sorted.
  - apply zrange_from_NoDup.
  - intros t ([id p] & -> & He)%list_elem_of_fmap. simpl.
    by apply zrange_from_lookup in He.
  - done.
  - intros id p t [Hq Hnot]%Hleft ([id0 p0] & -> & He)%list_elem_of_fmap.
    unfold task_le, task_of. simpl. by eapply (zrange_from_rest n (queue s)).
  - done.
  - intros Hn. apply map_eq. intros id. rewrite lookup_empty.
    destruct (queue (dequeue_n n s).2 !! id) as [p|] eqn:Hl; [|done].
    apply Hleft in Hl as [Hq Hnot]. exfalso. apply Hnot.
    apply list_elem_of_fmap. exists (id, p). split; [done|].
    by apply zrange_from_full.
Qed.

Lemma dequeue_n_in_rank_order_witness :
  (dequeue_n 2 queued_a3_b1_c2).1 = [mkTask "b" 1; mkTask "c" 2]
  ∧ StronglySorted task_le (dequeue_n 2 queued_a3_b1_c2).1
  ∧ queue (dequeue_n 3 queued_a3_b1_c2).2 = ∅.
Proof.
  assert (scores_exact queued_a3_b1_c2) as Hex.
  { apply scores_exact_check. by vm_compute. }
  split; [by vm_compute|]. split.
  - exact (proj1 (proj2 (dequeue_n_in_rank_order 2 queued_a3_b1_c2 Hex))).
  - destruct (dequeue_n_in_rank_order 3 queued_a3_b1_c2 Hex)
      as (_ & _ & _ & _ & _ & _ & _ & Hempty).
    apply Hempty. by vm_compute.
Defined.

(** ** [inQueue] *)

Lemma wrap64_small (z : Z) : (- 2 ^ 63 ≤ z < 2 ^ 63)%Z → wrap64 z = z.
Proof. intros Hz. unfold wrap64. rewrite Z.mod_small; lia. Qed.

Lemma ZRANGE_prefix (s : Redis) (stop : Z) :
  (0 ≤ stop)%Z →
  ZRANGE s 0 stop = (zrange_from (Z.to_nat (stop + 1)) (queue s)).*1.
Proof.
  intros Hstop. unfold ZRANGE. simpl.
  assert (Z.ltb stop 0 = false) as Hlt by lia. rewrite Hlt. simpl. rewrite Hlt. simpl.
  destruct (Z.leb_spec (Z.of_nat (size (queue s))) 0) as [Hl|Hl].
  - assert (queue s = ∅) as -> by (apply map_size_empty_iff; lia).
    assert (zrange_from (Z.to_nat (stop + 1)) ∅ = []) as ->; [|done].
    apply length_zero_iff_nil. rewrite zrange_from_length, map_size_empty. lia.
  - rewrite drop_0. unfold zsorted. rewrite zrange_from_take. f_equal.
    destruct (Z.leb_spec (Z.of_nat (size (queue s))) stop) as [Hs|Hs].
    + rewrite (zrange_from_ge (Z.to_nat (stop + 1))) by lia.
      unfold zsorted. f_equal. lia.
    + f_equal. lia.
Qed.

Lemma ZRANGE_all (s : Redis) : ZRANGE s 0 (-1) = (zsorted (queue s)).*1.
Proof.
  unfold ZRANGE. simpl.
  destruct (Z.leb_spec (Z.of_nat (size (queue s))) 0) as [Hl|Hl].
  - rewrite orb_true_r.
    assert (queue s = ∅) as -> by (apply map_size_empty_iff; lia).
    unfold zsorted. by rewrite map_size_empty.
  - assert (Z.ltb (Z.of_nat (size (queue s)) + -1) 0 = false) as -> by lia.
    assert (Z.leb (Z.of_nat (size (queue s))) (Z.of_nat (size (queue s)) + -1)
            = false) as -> by lia.
    simpl. rewrite drop_0. unfold zsorted at 1. rewrite zrange_from_take.
    f_equal. unfold zsorted. f_equal. lia.
Qed.

(** X2.  For [maxElements] from 1 on, [inQueue] lists the first
    [maxElements] ids of the queue in rank order, so at most [maxElements]
    of them: the ids that the next [maxElements] calls of [dequeue] would
    return, in that order, when the scores are such that [dequeue] can
    read them all ([scores_exact]).  [inQueue(0)] asks Redis for the ranks
    0 to -1, which is the whole queue: it lists every queued id, in rank
    order, which is the order in which [dequeue] would return them. *)
Theorem inQueue_lists_next_tasks (s : Redis) (maxElements : Z) :
  (1 ≤ maxElements < 2 ^ 63)%Z →
  inQueue s maxElements = (zrange_from (Z.to_nat maxElements) (queue s)).*1
  ∧ (scores_exact s →
     inQueue s maxElements = task_id <$> (dequeue_n (Z.to_nat maxElements) s).1)
  ∧ (length (inQueue s maxElements) ≤ Z.to_nat maxElements)%nat
  ∧ inQueue s 0 = (zsorted (queue s)).*1
  ∧ (scores_exact s →
     inQueue s 0 = task_id <$> (dequeue_n (size (queue s)) s).1)
  ∧ (∀ id, id ∈ inQueue s 0 ↔ is_Some (queue s !! id)).
Proof.
  intros Hm.
  assert (inQueue s maxElements
          = (zrange_from (Z.to_nat maxElements) (queue s)).*1) as Hpos.
  { unfold inQueue. rewrite wrap64_small by lia. rewrite ZRANGE_prefix by lia.
    do 3 f_equal. lia. }
  assert (inQueue s 0 = (zsorted (queue s)).*1) as Hall.
  { unfold inQueue. rewrite wrap64_small by lia. apply ZRANGE_all. }
  split_and!.
  - exact Hpos.
  - intros Hex. by rewrite dequeue_n_tasks, task_of_ids.
  - rewrite Hpos, length_fmap, zrange_from_length. lia.
  - exact Hall.
  - intros Hex. by rewrite dequeue_n_tasks, task_of_ids.
  - intros id. rewrite Hall. unfold zsorted. split.
    + intros ([id' p] & -> & He)%list_elem_of_fmap.
      apply zrange_from_lookup in He. by exists p.
    + intros [p Hq]. apply list_elem_of_fmap. exists (id, p). split; [done|].
      by apply zrange_from_full.
Qed.

Lemma inQueue_lists_next_tasks_witness :
  inQueue queued_a3_b1_c2 2 = ["b"; "c"]
  ∧ inQueue queued_a3_b1_c2 0 = ["b"; "c"; "a"].
Proof.
  destruct (inQueue_lists_next_tasks queued_a3_b1_c2 2) as (H2 & _ & _ & H0 & _);
    [lia|].
  split; [rewrite H2|rewrite H0]; by vm_compute.
Defined.

(** With a score that [redis.Int64] cannot read, [inQueue] lists the id
    all the same, and [dequeue] takes it out of the queue and returns no
    task for it. *)
Example inQueue_lists_unreadable_score :
  let s := (enqueue emptyRedis "x" (10 ^ 17)).2 in
  inQueue s 1 = ["x"] ∧ (dequeue_n 1 s).1 = [] ∧ queue (dequeue_n 1 s).2 = ∅.
Proof. split_and!; by vm_compute. Qed.

(** ** [enqueue], called again and again *)

(** [enqueue] touches the queue and the list of markers only. *)
Lemma enqueue_frame (s : Redis) (id : string) (priority : Z) :
  inProgress (enqueue s id priority).2 = inProgress s
  ∧ results (enqueue s id priority).2 = results s
  ∧ errors (enqueue s id priority).2 = errors s
  ∧ chan (enqueue s id priority).2 = chan s
  ∧ now (enqueue s id priority).2 = now s.
Proof. unfold enqueue. simpl. by destruct (enq_saveId _ _). Qed.

Lemma resolved_frame (s s' : Redis) (id : string) :
  results s' = results s → errors s' = errors s → now s' = now s →
  resolved s' id ↔ resolved s id.
Proof.
  intros Hr He Hn. unfold resolved, GET_key, GET_errorKey. by rewrite Hr, He, Hn.
Qed.

Lemma exact_score_min (p q : Z) :
  exact_score p → exact_score q → exact_score (Z.min p q).
Proof. unfold exact_score. lia. Qed.

(** One more [enqueue] of a free id that is queued with [p0]. *)
Lemma enqueue_queued (s : Redis) (id : string) (p0 p : Z) :
  exact_score p0 → exact_score p →
  (id ∉ inProgress s) → ¬ resolved s id → queue s !! id = Some p0 →
  let s' := (enqueue s id p).2 in
  queue s' !! id = Some (Z.min p0 p)
  ∧ (∀ id', id' ≠ id → queue s' !! id' = queue s !! id')
  ∧ workReady s' = (workReady s ++ (if Z.ltb p p0 then ["W"] else []))%list.
Proof.
  intros Hp0 Hp Hn Hr Hq. unfold enqueue. simpl.
  destruct (Z.ltb_spec p p0) as [Hlt|Hge].
  - assert (enq_saveId (enqueue_check s id) p = true) as ->.
    { apply enq_saveId_spec. split_and!; [done..|].
      intros old Ho. assert (old = p0) as -> by congruence.
      by rewrite oldPriority_exact. }
    simpl. split_and!; [|by intros id' ?; rewrite lookup_insert_ne|done].
    rewrite lookup_insert_eq, to_double_exact by done. f_equal. lia.
  - assert (enq_saveId (enqueue_check s id) p = false) as ->.
    { apply not_true_is_false. intros (_ & _ & Hlt)%enq_saveId_spec.
      specialize (Hlt _ Hq). rewrite oldPriority_exact in Hlt by done. lia. }
    split_and!; [|done|by rewrite app_nil_r]. rewrite Hq. f_equal. lia.
Qed.

Lemma enqueue_each_queued (ps : list Z) (s : Redis) (id : string) (p0 : Z) :
  exact_score p0 → Forall exact_score ps →
  (id ∉ inProgress s) → ¬ resolved s id → queue s !! id = Some p0 →
  queue (enqueue_each s id ps) !! id = Some (foldl Z.min p0 ps)
  ∧ (∀ id', id' ≠ id → queue (enqueue_each s id ps) !! id' = queue s !! id')
  ∧ (∃ k, (k ≤ length ps)%nat
          ∧ workReady (enqueue_each s id ps) = (workReady s ++ replicate k "W")%list)
  ∧ inProgress (enqueue_each s id ps) = inProgress s
  ∧ results (enqueue_each s id ps) = results s
  ∧ errors (enqueue_each s id ps) = errors s
  ∧ chan (enqueue_each s id ps) = chan s
  ∧ now (enqueue_each s id ps) = now s.
Proof.
  revert s p0. induction ps as [|p ps IH]; intros s p0 Hp0 Hps Hn Hr Hq.
  { simpl. split_and!; [done..| |done|done|done|done|done].
    exists 0%nat. by rewrite app_nil_r. }
  apply Forall_cons in Hps as [Hp Hps].
  destruct (enqueue_queued s id p0 p Hp0 Hp Hn Hr Hq) as (Hq1 & Hne1 & Hw1).
  destruct (enqueue_frame s id p) as (Hf1 & Hf2 & Hf3 & Hf4 & Hf5).
  destruct (IH (enqueue s id p).2 (Z.min p0 p))
    as (Hq2 & Hne2 & (k & Hk & Hw2) & Hg1 & Hg2 & Hg3 & Hg4 & Hg5).
  { by apply exact_score_min. }
  { done. }
  { by rewrite Hf1. }
  { by rewrite resolved_frame. }
  { done. }
  change (enqueue_each s id (p :: ps)) with (enqueue_each (enqueue s id p).2 id ps).
  split_and!.
  - exact Hq2.
  - intros id' Hne. by rewrite Hne2, Hne1.
  - destruct (Z.ltb p p0).
    + exists (S k). split; [simpl; lia|].
      rewrite Hw2, Hw1, <-app_assoc. done.
    + exists k. split; [simpl; lia|]. by rewrite Hw2, Hw1, app_nil_r.
  - by rewrite Hg1.
  - by rewrite Hg2.
  - by rewrite Hg3.
  - by rewrite Hg4.
  - by rewrite Hg5.
Qed.

Lemma foldl_min_le (ps : list Z) (p0 : Z) :
  (foldl Z.min p0 ps ≤ p0)%Z ∧ ∀ p, p ∈ ps → (foldl Z.min p0 ps ≤ p)%Z.
Proof.
  revert p0. induction ps as [|q ps IH]; intros p0; simpl.
  { split; [lia|]. by intros p ?%elem_of_nil. }
  destruct (IH (Z.min p0 q)) as [H1 H2]. split; [lia|].
  intros p [->|Hin]%elem_of_cons; [lia|by apply H2].
Qed.

(** X3.  An id that is neither queued nor in progress and has no record is
    enqueued with the priorities [p :: ps], one call after the other; the
    priorities are at most 2^53 in absolute value, so that Redis keeps
    and returns them as they are.  It
    is then queued once, with the smallest of these priorities, whatever
    their order; the other entries of the queue, the in-progress set, the
    records and the channel are as before; at least one and at most one
    marker per call was pushed on the work-ready list; and one more
    [enqueue] with any of these priorities returns [false] and changes
    nothing. *)
Theorem enqueue_each_keeps_best (s : Redis) (id : string) (p : Z) (ps : list Z) :
  Forall exact_score (p :: ps) →
  (id ∉ inProgress s) → ¬ resolved s id → queue s !! id = None →
  let s' := enqueue_each s id (p :: ps) in
  queue s' !! id = Some (foldl Z.min p ps)
  ∧ (∀ q, q ∈ p :: ps → (foldl Z.min p ps ≤ q)%Z)
  ∧ (∀ id', id' ≠ id → queue s' !! id' = queue s !! id')
  ∧ (∃ k, (1 ≤ k ≤ length (p :: ps))%nat
          ∧ workReady s' = (workReady s ++ replicate k "W")%list)
  ∧ (inProgress s', results s', errors s', chan s', now s')
    = (inProgress s, results s, errors s, chan s, now s)
  ∧ (∀ q, q ∈ p :: ps → enqueue s' id q = (false, s')).
Proof.
  intros Hex Hn Hr Hq.
  pose proof Hex as [Hp Hps]%Forall_cons.
  change (enqueue_each s id (p :: ps)) with (enqueue_each (enqueue s id p).2 id ps).
  cbv zeta.
  assert (enq_saveId (enqueue_check s id) p = true) as Hsave.
  { apply enq_saveId_spec. split_and!; [done..|]. intros old Ho. congruence. }
  assert ((enqueue s id p).2 = enqueue_save id p s) as Hs1.
  { unfold enqueue. simpl. by rewrite Hsave. }
  destruct (enqueue_frame s id p) as (Hf1 & Hf2 & Hf3 & Hf4 & Hf5).
  destruct (enqueue_each_queued ps (enqueue s id p).2 id p)
    as (Hq2 & Hne2 & (k & Hk & Hw2) & Hg1 & Hg2 & Hg3 & Hg4 & Hg5).
  { done. }
  { done. }
  { by rewrite Hf1. }
  { by rewrite resolved_frame. }
  { rewrite Hs1. simpl. rewrite to_double_exact by done. apply lookup_insert_eq. }
  assert (exact_score (foldl Z.min p ps)) as Hbest.
  { clear -Hp Hps. revert p Hp. induction Hps as [|q ps Hq Hps IH]; intros p Hp;
      simpl; [done|]. apply IH. by apply exact_score_min. }
  destruct (foldl_min_le ps p) as [Hle0 Hle].
  assert (∀ q, q ∈ p :: ps → (foldl Z.min p ps ≤ q)%Z) as Hmin.
  { intros q [->|Hin]%elem_of_cons; [done|by apply Hle]. }
  remember (enqueue_each (enqueue s id p).2 id ps) as s' eqn:Hs'. clear Hs'.
  split_and!.
  - exact Hq2.
  - exact Hmin.
  - intros id' Hne. rewrite Hne2 by done. rewrite Hs1. simpl.
    by rewrite lookup_insert_ne.
  - exists (S k). split; [simpl; lia|]. rewrite Hw2, Hs1. simpl.
    by rewrite <-app_assoc.
  - by rewrite Hg1, Hg2, Hg3, Hg4, Hg5, Hf1, Hf2, Hf3, Hf4, Hf5.
  - intros q Hin. unfold enqueue. f_equal.
    + apply not_true_is_false.
      rewrite enq_found_spec, (resolved_frame s) by congruence. done.
    + assert (enq_saveId (enqueue_check s' id) q = false) as ->; [|done].
      apply not_true_is_false. intros (_ & _ & Hlt)%enq_saveId_spec.
      specialize (Hlt _ Hq2). rewrite oldPriority_exact in Hlt by done.
      specialize (Hmin q Hin). lia.
Qed.

Lemma enqueue_each_keeps_best_witness :
  let s' := enqueue_each emptyRedis "x" [5; 2; 7; 1; 1]%Z in
  queue s' !! "x" = Some 1%Z ∧ enqueue s' "x" 7 = (false, s').
Proof.
  assert ("x" ∉ inProgress emptyRedis) as Hn.
  { apply (bool_decide_unpack _). by vm_compute. }
  assert (¬ resolved emptyRedis "x") as Hr.
  { intros [[? H]|[? H]]; vm_compute in H; discriminate H. }
  assert (Forall exact_score [5; 2; 7; 1; 1]%Z) as Hex.
  { repeat constructor; unfold exact_score; lia. }
  destruct (enqueue_each_keeps_best emptyRedis "x" 5 [2; 7; 1; 1]%Z Hex Hn Hr eq_refl)
    as (Hq & _ & _ & _ & _ & Hagain).
  split; [exact Hq|]. apply Hagain.
  apply list_elem_of_further, list_elem_of_further, list_elem_of_here.
Defined.

(** ** [Get] on the records a worker left *)

Section Records.
Context {V : Type} `{codec : LRUCodec V}.
Variable worker : Z → string → callOutcome V.

Lemma resolved_no_save (s : Redis) (id : string) (priority : Z) :
  resolved s id → enqueue s id priority = (true, s).
Proof.
  intros Hr. unfold enqueue. f_equal; [by apply enq_found_spec|].
  assert (enq_saveId (enqueue_check s id) priority = false) as ->; [|done].
  apply not_true_is_false. by intros (_ & Hn & _)%enq_saveId_spec.
Qed.

(** X4.  After a worker stored the error of its computation for [id], a
    [Get] or [Warm] for [id] within the next 10 seconds returns that error
    at once and changes nothing.  From 10 seconds on the error record is
    gone: when [id] had no result record the call ([Get] or [Warm]) queues
    [id] again with its own priority and blocks, so the computation is
    tried again; when [id] had a result record from an earlier
    computation, that record is served again: [Get] for the bytes returns
    them, and [Warm] returns no error. *)
Theorem worker_error_masks_for_ten_seconds
    (s : Redis) (priority : Z) (id : string) (result : option V) (e : string) :
  worker priority id = Returns result (Some e) →
  ∃ s', writeWorkerResult worker s priority id = Some s'
    ∧ (∀ d p returnBytes, (0 ≤ d < 10)%Z →
         Get_start (tick d s') p returnBytes id
         = (GetReturned None
              (Some ("For " +:+ id +:+ " we received error: " +:+ e)),
            tick d s'))
    ∧ (∀ d p returnBytes, (10 ≤ d)%Z →
         GET_key s id = None → queue s !! id = None →
         Get_start (tick d s') p returnBytes id
         = (GetBlocked, enqueue_save id p (tick d s')))
    ∧ (∀ d p b, (10 ≤ d)%Z → GET_key s id = Some b →
         Get_start (tick d s') p true id
         = (GetReturned (Some (Raw b)) None, tick d s'))
    ∧ (∀ d p, (0 ≤ d < 10)%Z →
         Warm_start (tick d s') p id
         = (Some (Some ("For " +:+ id +:+ " we received error: " +:+ e)),
            tick d s'))
    ∧ (∀ d p, (10 ≤ d)%Z →
         GET_key s id = None → queue s !! id = None →
         Warm_start (tick d s') p id = (None, enqueue_save id p (tick d s')))
    ∧ (∀ d p b, (10 ≤ d)%Z → GET_key s id = Some b →
         Warm_start (tick d s') p id = (Some None, tick d s')).
Proof.
  intros Hw. eexists. split.
  { unfold writeWorkerResult. rewrite Hw. reflexivity. }
  simpl worker_record.
  destruct (write_exec_error id e s) as (He & _ & Hin & Hch & _).
  assert (queue (write_exec id (WriteErrorKey, e, true) s) = queue s) as Hq by done.
  assert (results (write_exec id (WriteErrorKey, e, true) s) = results s)
    as Hres by done.
  assert (now (write_exec id (WriteErrorKey, e, true) s) = now s) as Hnow by done.
  remember (write_exec id (WriteErrorKey, e, true) s) as s' eqn:Hs' in *.
  clear Hs'.
  assert (∀ d, (0 ≤ d < 10)%Z → GET_errorKey (tick d s') id = Some e) as Hlive.
  { intros d Hd. erewrite GET_errorKey_live; [|exact He].
    simpl. rewrite Hnow, bool_decide_eq_true_2; [done|lia]. }
  assert (∀ d, (10 ≤ d)%Z → GET_errorKey (tick d s') id = None) as Hgone.
  { intros d Hd. erewrite GET_errorKey_live; [|exact He].
    simpl. rewrite Hnow, bool_decide_eq_false_2; [done|lia]. }
  assert (∀ d, GET_key (tick d s') id = GET_key s id) as Hkey.
  { intros d. unfold GET_key. simpl. by rewrite Hres. }
  assert (∀ d p rb, (0 ≤ d < 10)%Z →
            Get_start (tick d s') p rb id
            = (GetReturned None
                 (Some ("For " +:+ id +:+ " we received error: " +:+ e)),
               tick d s')) as Hmask.
  { intros d p rb Hd. unfold Get_start.
    by rewrite (getResultErr_error _ _ e rb (Hlive d Hd)). }
  assert (∀ d p rb, (10 ≤ d)%Z → GET_key s id = None → queue s !! id = None →
            Get_start (tick d s') p rb id
            = (GetBlocked, enqueue_save id p (tick d s'))) as Hretry.
  { intros d p rb Hd Hk Hnq. unfold Get_start.
    rewrite getResultErr_miss; [|by apply Hgone|by rewrite Hkey].
    assert (enq_saveId (enqueue_check (tick d s') id) p = true) as Hsave.
    { apply enq_saveId_spec. split_and!.
      - simpl. rewrite Hin. intros [_ Hx]%elem_of_difference. apply Hx.
        by apply elem_of_singleton.
      - intros [[? Hx]|[? Hx]].
        + rewrite Hkey, Hk in Hx. done.
        + rewrite (Hgone d Hd) in Hx. done.
      - simpl. rewrite Hq, Hnq. done. }
    unfold enqueue. rewrite Hsave, (enq_saveId_not_found _ _ Hsave). done. }
  assert (∀ d p b, (10 ≤ d)%Z → GET_key s id = Some b →
            Get_start (tick d s') p true id
            = (GetReturned (Some (Raw b)) None, tick d s')) as Hold.
  { intros d p b Hd Hk. unfold Get_start.
    rewrite (getResultErr_raw _ _ b); [done|by apply Hgone|by rewrite Hkey]. }
  split_and!; [exact Hmask|exact Hretry|exact Hold| | |].
  - intros d p Hd. unfold Warm_start. by rewrite (Hmask d p true Hd).
  - intros d p Hd Hk Hnq. unfold Warm_start. by rewrite (Hretry d p true Hd Hk Hnq).
  - intros d p b Hd Hk. unfold Warm_start. by rewrite (Hold d p b Hd Hk).
Qed.

(** X5.  A result record whose bytes the codec decodes to [nil] without an
    error cannot be served: [Get] with [returnBytes = false] finds nothing
    to return, [enqueue] finds the record and queues nothing, and the call
    ends with the error that the result could not be retrieved; so does
    the re-check of a woken caller.  When the codec fails on the bytes,
    [Get] returns the codec's error.  In both cases the store is left as
    it was, so the record stays, while [Get] with [returnBytes = true], and
    with it [Warm], succeeds on the same record. *)
Theorem undecodable_record_is_not_recomputed
    (s : Redis) (id b : string) (priority : Z) :
  GET_errorKey s id = None →
  GET_key s id = Some b →
  (Decode b = (None, None) →
     Get_start s priority false id
     = (GetReturned None (Some ("Unable to retrieve result for id: " +:+ id)), s)
     ∧ Get_resume s false id
       = (None, Some ("Unable to retrieve result for id: " +:+ id)))
  ∧ (∀ v e, Decode b = (v, Some e) →
       Get_start s priority false id = (GetReturned (Val <$> v) (Some e), s)
       ∧ Get_resume s false id = (None, Some e))
  ∧ Get_start s priority true id = (GetReturned (Some (Raw b)) None, s)
  ∧ Warm_of (Get_resume s true id) = None.
Proof.
  intros He Hb.
  pose proof (getResultErr_decoded s id b He Hb) as Hdec.
  pose proof (getResultErr_raw s id b He Hb) as Hraw.
  assert (resolved s id) as Hres by (left; by exists b).
  split_and!.
  - intros Hd. rewrite Hd in Hdec. simpl in Hdec.
    unfold Get_start, Get_resume, waitFor_result.
    rewrite Hdec, (resolved_no_save s id priority Hres), Hdec. done.
  - intros v e Hd. rewrite Hd in Hdec. simpl in Hdec.
    unfold Get_start, Get_resume, waitFor_result. rewrite Hdec.
    by destruct v.
  - unfold Get_start. by rewrite Hraw.
  - unfold Get_resume, waitFor_result. by rewrite Hraw.
Qed.

End Records.

Lemma worker_error_masks_for_ten_seconds_witness :
  ∃ s', writeWorkerResult (codec := stringCodec) pickyWorker x_in_progress 4 "bad"
        = Some s'
      ∧ Get_start (codec := stringCodec) (tick 9 s') 1 false "bad"
        = (GetReturned None (Some "For bad we received error: no such digest"),
           tick 9 s')
      ∧ Get_start (codec := stringCodec) (tick 10 s') 1 false "bad"
        = (GetBlocked, enqueue_save "bad" 1 (tick 10 s'))
      ∧ Warm_start (codec := stringCodec) (tick 9 s') 1 "bad"
        = (Some (Some "For bad we received error: no such digest"), tick 9 s').
Proof.
  destruct (worker_error_masks_for_ten_seconds (codec := stringCodec) pickyWorker
              x_in_progress 4 "bad" None "no such digest" eq_refl)
    as (s' & Hw & Hlive & Hgone & _ & Hwarm & _).
  exists s'. split_and!; [exact Hw| | |].
  - apply (Hlive 9%Z 1%Z false). lia.
  - apply (Hgone 10%Z 1%Z false); [lia|by vm_compute|by vm_compute].
  - apply (Hwarm 9%Z 1%Z). lia.
Defined.

Lemma undecodable_record_is_not_recomputed_witness :
  ∃ s', writeWorkerResult (codec := nullableCodec) nilWorker x_in_progress 1 "x"
        = Some s'
      ∧ GET_key s' "x" = Some "null"
      ∧ Get_start (codec := nullableCodec) s' 1 false "x"
        = (GetReturned None (Some "Unable to retrieve result for id: x"), s')
      ∧ Get_start (codec := nullableCodec) s' 1 true "x"
        = (GetReturned (Some (Raw "null")) None, s').
Proof.
  assert (∃ s', writeWorkerResult (codec := nullableCodec) nilWorker
                  x_in_progress 1 "x" = Some s'
                ∧ GET_errorKey s' "x" = None ∧ GET_key s' "x" = Some "null")
    as (s' & Hw & He & Hb).
  { eexists. repeat (split; [by vm_compute|]). by vm_compute. }
  destruct (undecodable_record_is_not_recomputed (codec := nullableCodec)
              s' "x" "null" 1 He Hb) as (Hnil & _ & Hraw & _).
  exists s'.
  split_and!; [exact Hw|exact Hb|exact (proj1 (Hnil eq_refl))|exact Hraw].
Defined.

(** X6.  With [returnBytes = true], which is how [Warm] calls [Get], the
    codec is never used: the outcome is the same under any two codecs, and
    a value that is returned is the stored bytes of the result record of
    [id], returned with no error and with the store unchanged. *)
Theorem raw_get_never_decodes {V : Type} (c1 c2 : LRUCodec V)
    (s : Redis) (priority : Z) (id : string) :
  Get_start (codec := c1) s priority true id
  = Get_start (codec := c2) s priority true id
  ∧ Get_resume (codec := c1) s true id = Get_resume (codec := c2) s true id
  ∧ (∀ ret err s',
       Get_start (codec := c1) s priority true id = (GetReturned (Some ret) err, s') →
       ret = Raw (default "" (GET_key s id)) ∧ is_Some (GET_key s id)
       ∧ err = None ∧ s' = s).
Proof.
  assert (GET_errorKey s id = None → GET_key s id = None →
          enq_found (enqueue_check s id) = false) as Hnf.
  { intros He Hb. apply not_true_is_false.
    rewrite enq_found_spec. intros [[? Hx]|[? Hx]]; congruence. }
  unfold Get_start, Get_resume, waitFor_result, getResultErr.
  destruct (GET_errorKey s id) as [e|] eqn:He; simpl.
  { split_and!; [done..|]. by intros ret err s' [=]. }
  destruct (GET_key s id) as [b|] eqn:Hb; simpl.
  { split_and!; [done..|]. intros ret err s' [= <- <- <-].
    split_and!; [done|by eexists|done|done]. }
  specialize (Hnf eq_refl eq_refl).
  rewrite Hnf. split_and!; [done..|]. by intros ret err s' [=].
Qed.

(** ** Interleavings: what the goroutines keep true *)

Section Discipline.
Context {V : Type} `{codec : LRUCodec V}.
Variable worker : Z → string → callOutcome V.

Lemma after_get_cases (r : option (item V) * option string) :
  after_get r = AtEnqueue ∨ ∃ ret err, after_get r = AtReturn ret err.
Proof. destruct r as [[?|] [?|]]; simpl; eauto. Qed.

Lemma after_check_cases (rv : enqueueVals) (priority : Z) :
  (after_check (V := V) rv priority = AtSave ∧ enq_saveId rv priority = true)
  ∨ after_check (V := V) rv priority = AtRecheck
  ∨ after_check (V := V) rv priority = AtSubscribe.
Proof.
  unfold after_check. destruct (enq_saveId rv priority); [by left|].
  destruct (enq_found rv); auto.
Qed.

(** The steps that leave the queue as it is. *)
Lemma queue_BLPOP (s : Redis) : queue (BLPOP s).2 = queue s.
Proof. unfold BLPOP. by destruct (workReady s). Qed.

Lemma queue_write_exec (id : string) (rec : writeKey * string * bool) (s : Redis) :
  queue (write_exec id rec s) = queue s.
Proof. by destruct rec as [[[] data] []]. Qed.

Lemma asked_callers (y y' : @Sys V) (p : Z) (id : string) :
  callers y' = callers y → asked y p id → asked y' p id.
Proof. unfold asked. by intros ->. Qed.

Lemma asked_step (a : action) (y y' : @Sys V) (p : Z) (id : string) :
  exec worker a y = Some y' → asked y p id → asked y' p id.
Proof.
  intros Hexec (i & c & pc & Hi & Hid & Hp).
  destruct (exec_callers worker a y y' Hexec)
    as [Hc|[(c' & -> & Hc)|(j & c' & pc1 & pc2 & -> & Hj & Hc)]].
  - exists i, c, pc. by rewrite Hc.
  - exists i, c, pc. rewrite Hc. split; [|done]. by apply lookup_app_l_Some.
  - destruct (decide (j = i)) as [->|Hne].
    + exists i, c, pc2. rewrite Hc. split; [|done].
      assert (c' = c) as -> by congruence.
      apply list_lookup_insert_eq. by eapply lookup_lt_Some.
    + exists i, c, pc. rewrite Hc. split; [|done].
      by rewrite list_lookup_insert_ne.
Qed.

Lemma only_asked_step (a : action) (y y' : @Sys V) :
  exec worker a y = Some y' → only_asked y → only_asked y'.
Proof.
  intros Hexec Hy.
  assert (∀ p id, asked y p id → asked y' p id) as Hmono
    by (intros p id; by apply asked_step with (a := a)).
  destruct Hy as [Hq Hs Hw Hc].
  unfold exec in Hexec.
  destruct (panicked y); [done|]. destruct a as [c|i| |w|w| |id| | |d].
  - injection Hexec as <-. constructor; simpl.
    + intros id p ?. apply Hmono. by apply Hq.
    + destruct (sched y); try done; by apply Hmono.
    + intros w t ?. apply Hmono. by eapply Hw.
    + intros p id ?. apply Hmono. by apply Hc.
  - pose proof Hexec as Hstep.
    apply caller_step_inv in Hstep as (c & pc & Hl & Hstep).
    assert (sched y' = sched y ∧ workers y' = workers y ∧ calls y' = calls y)
      as (Hs' & Hw' & Hc').
    { by destruct pc as [| | | | | |ret err];
        [subst y'|subst y'|subst y'|destruct Hstep as [_ ->]
        |destruct Hstep as [_ ->]|subst y'|done]. }
    constructor.
    + intros id p Hl'.
      destruct pc as [| | | | | |ret err];
        [subst y'|subst y'| |destruct Hstep as [_ ->]
        |destruct Hstep as [_ ->]|subst y'|done];
        try (apply Hmono; by apply Hq).
      subst y'. simpl in Hl'.
      destruct (decide (id = call_id c)) as [->|Hne].
      * rewrite lookup_insert_eq in Hl'. injection Hl' as <-.
        exists i, c, AtSubscribe. split; [|done]. simpl.
        apply list_lookup_insert_eq. by eapply lookup_lt_Some.
      * rewrite lookup_insert_ne in Hl' by done. apply Hmono. by apply Hq.
    + rewrite Hs'. destruct (sched y); try done; by apply Hmono.
    + rewrite Hw'. intros w t ?. apply Hmono. by eapply Hw.
    + rewrite Hc'. intros p id ?. apply Hmono. by apply Hc.
  - pose proof Hexec as Hstep. apply sched_step_inv in Hstep.
    destruct (sched y) as [| |id p card|t hm] eqn:Hsch.
    + subst y'. constructor; simpl; [|done|done|done].
      intros id p. rewrite queue_BLPOP. apply Hq.
    + destruct Hstep as [[_ ->]|[(id & p & s1 & Hz & Hs1 & ->)
                                |(id & p & s1 & Hz & _ & Hs1 & ->)]].
      { constructor; simpl; done. }
      * destruct (dequeue_pop_first _ _ _ Hz) as (s1' & Hp & Hq1 & _).
        rewrite Hp in Hs1. simpl in Hs1. subst s1'.
        apply zfirst_Some in Hz as [Hqid _].
        constructor; simpl; [|by apply Hq|done|done].
        intros id' p'. rewrite Hq1. intros [_ ?]%lookup_delete_Some. by apply Hq.
      * destruct (dequeue_pop_first _ _ _ Hz) as (s1' & Hp & Hq1 & _).
        rewrite Hp in Hs1. simpl in Hs1. subst s1'.
        constructor; simpl; [|done|done|done].
        intros id' p'. rewrite Hq1. intros [_ ?]%lookup_delete_Some. by apply Hq.
    + subst y'. constructor; simpl; done.
    + done.
  - apply handoff_step_inv in Hexec as (t & hm & Hsch & Hwl & ->).
    rewrite Hsch in Hs. constructor; simpl; [done|by destruct hm| |done].
    intros w' t'. destruct (decide (w' = w)) as [->|Hne].
    + rewrite list_lookup_insert_eq by by eapply lookup_lt_Some.
      by intros [= <-].
    + rewrite list_lookup_insert_ne by done. apply Hw.
  - apply worker_step_inv in Hexec as [(t & Hwl & Hcall)|(id & rec & Hwl & ->)].
    + assert (∀ p id, (p, id) ∈ (calls y ++ [(task_priority t, task_id t)])%list →
                      asked y p id) as Hc2.
      { intros p id [?|[= -> ->]%list_elem_of_singleton]%elem_of_app; [by apply Hc|].
        by eapply Hw. }
      destruct (worker _ _); subst y'; constructor; simpl; try done.
      intros w' t'. destruct (decide (w' = w)) as [->|Hne].
      * by rewrite list_lookup_insert_eq by by eapply lookup_lt_Some.
      * rewrite list_lookup_insert_ne by done. apply Hw.
    + constructor; simpl; [|done| |done].
      * intros id' p'. rewrite queue_write_exec. apply Hq.
      * intros w' t'. destruct (decide (w' = w)) as [->|Hne].
        -- by rewrite list_lookup_insert_eq by by eapply lookup_lt_Some.
        -- rewrite list_lookup_insert_ne by done. apply Hw.
  - apply notifier_receive_inv in Hexec as (_ & m & rest & Hch & ->).
    case_bool_decide; constructor; simpl; done.
  - apply notifier_visit_inv in Hexec as (_ & ->). constructor; simpl; done.
  - injection Hexec as <-. constructor; simpl; done.
  - destruct (chan (store y)); [done|]. injection Hexec as <-.
    constructor; simpl; done.
  - case_bool_decide; [|done]. injection Hexec as <-. constructor; simpl; done.
Qed.

(** X7.  A process that starts on a store with an empty queue calls the
    worker function only for an id that some caller of [Get] or [Warm] in
    the process passed, and with the score that Redis keeps for the
    priority passed in that same call; the same holds for every entry
    that is in the queue and for every task held by the dequeue loop or
    by a worker.  When the priorities that the callers passed are at most
    2^53 in absolute value, the worker function is called only with an id
    and a priority that were passed together in one call. *)
Theorem worker_called_only_as_asked
    (s0 : Redis) (nWorkers : nat) (tr : list action) (y : @Sys V) :
  queue s0 = ∅ →
  run worker tr (init s0 nWorkers) = Some y →
  only_asked y
  ∧ (∀ priority id, (priority, id) ∈ calls y →
       ∃ i c pc, callers y !! i = Some (mkCaller c pc)
                 ∧ call_id c = id ∧ to_double (call_priority c) = priority)
  ∧ ((∀ i c pc, callers y !! i = Some (mkCaller c pc) →
        exact_score (call_priority c)) →
     ∀ priority id, (priority, id) ∈ calls y →
       ∃ i c pc, callers y !! i = Some (mkCaller c pc)
                 ∧ call_id c = id ∧ call_priority c = priority).
Proof.
  intros Hq0 Hrun.
  assert (only_asked y) as Hy.
  { apply (run_invariant worker only_asked only_asked_step tr _ _ Hrun).
    constructor; simpl.
    - intros id p. by rewrite Hq0, lookup_empty.
    - done.
    - intros w t [[=] _]%lookup_replicate.
    - by intros p id ?%elem_of_nil. }
  split; [done|]. split.
  - intros p id Hin. by apply (a_calls y Hy).
  - intros Hex p id Hin.
    destruct (a_calls y Hy p id Hin) as (i & c & pc & Hl & Hid & Hp).
    exists i, c, pc. split_and!; [done..|].
    by rewrite <-Hp, (to_double_exact _ (Hex i c pc Hl)).
Qed.

(** The steps that keep the callers and the notifier keep [channels_ok]. *)
Lemma channels_ok_frame (y y' : @Sys V) :
  callers y' = callers y → notifier y' = notifier y →
  channels_ok y → channels_ok y'.
Proof.
  intros Hc Hn [H1 H2 H3 H4].
  constructor; unfold filed in *; rewrite ?Hc, ?Hn; done.
Qed.

(** [notifyChannels]: the channels filed under [id] are sent on, and the
    list is dropped. *)
Lemma channels_ok_notify (id : string) (y y' : @Sys V) :
  callers y' = callers y → notifier y' = notifyChannels id (notifier y) →
  channels_ok y → channels_ok y'.
Proof.
  intros Hc Hn [H1 H2 H3 H4].
  assert (∀ id' j, filed y' id' j ↔ id' ≠ id ∧ filed y id' j) as Hfiled.
  { intros id' j. unfold filed. rewrite Hn. simpl. split.
    - intros (chs & [Hne Hl]%lookup_delete_Some & Hj). split; [done|]. by exists chs.
    - intros (Hne & chs & Hl & Hj). exists chs. split; [|done].
      by apply lookup_delete_Some. }
  assert (∀ j, j ∈ delivered (notifier y') ↔
               j ∈ delivered (notifier y) ∨ filed y id j) as Hdel.
  { intros j. rewrite Hn. simpl. rewrite elem_of_union, elem_of_list_to_set.
    unfold filed. destruct (watchIds (notifier y) !! id) as [chs|]; simpl.
    - split; (intros [?|?]; [by left|right]).
      + by exists chs.
      + destruct H as (chs' & [= <-] & ?). done.
    - split; (intros [?|?]; [by left|]).
      + by apply elem_of_nil in H.
      + by destruct H as (chs' & [=] & ?). }
  constructor.
  - intros id' j [Hne Hf]%Hfiled. rewrite Hc.
    destruct (H1 id' j Hf) as [(c & Hl & Hid) Hnd]. split; [by exists c|].
    rewrite Hdel. intros [?|Hf']; [done|].
    destruct (H1 id j Hf') as [(c' & Hl' & Hid') _]. congruence.
  - intros id' chs. rewrite Hn. simpl.
    intros [_ Hl]%lookup_delete_Some. by eapply H2.
  - intros j. rewrite Hdel, Hc. intros [Hd|Hf]; [by apply H3|].
    destruct (H1 id j Hf) as [(c & Hl & _) _]. by exists c, AtBlocked.
  - intros j c. rewrite Hc. intros Hl. rewrite Hdel, Hfiled.
    destruct (H4 j c Hl) as [?|Hf]; [by left; left|].
    destruct (decide (call_id c = id)) as [<-|Hne]; [by left; right|by right].
Qed.

(** The notifier files the channel of a caller that subscribes. *)
Lemma channels_ok_file (i : nat) (c : call) (y y' : @Sys V) :
  callers y !! i = Some (mkCaller c AtSubscribe) →
  callers y' = <[i := mkCaller c AtBlocked]> (callers y) →
  notifier y'
  = {| watchIds := <[call_id c :=
                       (default [] (watchIds (notifier y) !! call_id c) ++ [i])%list]>
                     (watchIds (notifier y));
       delivered := delivered (notifier y) |} →
  channels_ok y → channels_ok y'.
Proof.
  intros Hi Hc Hn [H1 H2 H3 H4].
  assert (i < length (callers y))%nat as Hlt by by eapply lookup_lt_Some.
  assert (∀ id', ¬ filed y id' i) as Hnf.
  { intros id' Hf. destruct (H1 id' i Hf) as [(c' & Hl & _) _]. congruence. }
  assert (i ∉ delivered (notifier y)) as Hnd.
  { intros Hd. destruct (H3 i Hd) as (c' & pc & Hl & Hr).
    rewrite Hi in Hl. injection Hl as <- <-. done. }
  assert (∀ id' j, filed y' id' j ↔ filed y id' j ∨ (id' = call_id c ∧ j = i))
    as Hfiled.
  { intros id' j. unfold filed. rewrite Hn. simpl.
    destruct (decide (id' = call_id c)) as [->|Hne].
    - rewrite lookup_insert_eq. split.
      + intros (chs & [= <-] & [Hj| ->%list_elem_of_singleton]%elem_of_app);
          [left|by right].
        destruct (watchIds (notifier y) !! call_id c) as [old|]; simpl in Hj.
        * by exists old.
        * by apply elem_of_nil in Hj.
      + intros [(chs & Hl & Hj)|[_ ->]]; eexists; (split; [done|]).
        * rewrite Hl. simpl. apply elem_of_app. by left.
        * apply elem_of_app. right. by apply list_elem_of_singleton.
    - rewrite lookup_insert_ne by done. split; [by left|].
      intros [?|[? _]]; done. }
  constructor.
  - intros id' j. rewrite Hfiled, Hn, Hc. simpl. intros [Hf|[-> ->]].
    + destruct (H1 id' j Hf) as [(c' & Hl & Hid) Hd]. split; [|done].
      exists c'. split; [|done]. rewrite list_lookup_insert_ne; [done|].
      intros ->. by apply (Hnf id').
    + split; [|done]. exists c. split; [|done]. by apply list_lookup_insert_eq.
  - intros id' chs. rewrite Hn. simpl.
    destruct (decide (id' = call_id c)) as [->|Hne].
    + rewrite lookup_insert_eq. intros [= <-]. apply NoDup_app. split_and!.
      * destruct (watchIds (notifier y) !! call_id c) as [old|] eqn:Hold; simpl;
          [by eapply H2|constructor].
      * intros j Hj ->%list_elem_of_singleton. apply (Hnf (call_id c)).
        destruct (watchIds (notifier y) !! call_id c) as [old|] eqn:Hold;
          simpl in Hj; [by exists old|by apply elem_of_nil in Hj].
      * apply NoDup_singleton.
    + rewrite lookup_insert_ne by done. apply H2.
  - intros j. rewrite Hn, Hc. simpl. intros Hd.
    destruct (H3 j Hd) as (c' & pc & Hl & Hr). exists c', pc. split; [|done].
    rewrite list_lookup_insert_ne; [done|]. by intros ->.
  - intros j c'. rewrite Hc, Hn. simpl. intros Hl.
    destruct (decide (j = i)) as [->|Hne].
    + rewrite list_lookup_insert_eq in Hl by done. injection Hl as <-.
      right. apply Hfiled. by right.
    + rewrite list_lookup_insert_ne in Hl by done.
      destruct (H4 j c' Hl) as [?|Hf]; [by left|]. right. apply Hfiled. by left.
Qed.

(** A caller moves on without a subscription: one that had not
    subscribed, or one whose channel was sent on. *)
Lemma channels_ok_move (i : nat) (c : call) (pc pc' : callerPc) (y y' : @Sys V) :
  callers y !! i = Some (mkCaller c pc) →
  callers y' = <[i := mkCaller c pc']> (callers y) →
  notifier y' = notifier y →
  pc' ≠ AtBlocked →
  (pc ≠ AtBlocked ∨ i ∈ delivered (notifier y)) →
  (reached_wait pc → reached_wait pc') →
  channels_ok y → channels_ok y'.
Proof.
  intros Hi Hc Hn Hnb Hfree Hrw [H1 H2 H3 H4].
  assert (i < length (callers y))%nat as Hlt by by eapply lookup_lt_Some.
  assert (∀ id', ¬ filed y id' i) as Hnf.
  { intros id' Hf. destruct (H1 id' i Hf) as [(c' & Hl & _) Hd].
    rewrite Hi in Hl. injection Hl as -> ->. by destruct Hfree. }
  constructor; unfold filed in *; rewrite ?Hn, ?Hc.
  - intros id' j Hf. destruct (H1 id' j Hf) as [(c' & Hl & Hid) Hd].
    split; [|done]. exists c'. split; [|done].
    rewrite list_lookup_insert_ne; [done|]. intros ->. by apply (Hnf id').
  - done.
  - intros j Hd. destruct (decide (j = i)) as [->|Hne].
    + rewrite list_lookup_insert_eq by done. exists c, pc'. split; [done|].
      apply Hrw. destruct (H3 i Hd) as (c' & pc0 & Hl & Hr). congruence.
    + rewrite list_lookup_insert_ne by done. by apply H3.
  - intros j c' Hl. destruct (decide (j = i)) as [->|Hne].
    + rewrite list_lookup_insert_eq in Hl by done. congruence.
    + rewrite list_lookup_insert_ne in Hl by done. by apply H4.
Qed.

Lemma channels_ok_step (a : action) (y y' : @Sys V) :
  exec worker a y = Some y' → channels_ok y → channels_ok y'.
Proof.
  intros Hexec Hy. unfold exec in Hexec.
  destruct (panicked y); [done|]. destruct a as [c|i| |w|w| |id| | |d].
  - injection Hexec as <-. destruct Hy as [H1 H2 H3 H4].
    constructor; unfold filed in *; simpl.
    + intros id j Hf. destruct (H1 id j Hf) as [(c' & Hl & Hid) Hd].
      split; [|done]. exists c'. split; [|done]. by apply lookup_app_l_Some.
    + done.
    + intros j Hd. destruct (H3 j Hd) as (c' & pc & Hl & Hr).
      exists c', pc. split; [|done]. by apply lookup_app_l_Some.
    + intros j c' Hl. apply H4.
      apply lookup_app_Some in Hl as [?|[_ Hl]]; [done|].
      by apply list_lookup_singleton_Some in Hl as [_ [=]].
  - apply caller_step_inv in Hexec as (c & pc & Hl & Hstep).
    destruct pc as [| | | | | |ret err].
    + subst y'. eapply (channels_ok_move i c AtGet); try done; [|by left].
      destruct (after_get_cases (getResultErr (store y) (call_id c)
                                   (call_returnBytes c)))
        as [->|(ret & err & ->)]; done.
    + subst y'. eapply (channels_ok_move i c AtEnqueue); try done; [|by left].
      destruct (after_check_cases (enqueue_check (store y) (call_id c))
                  (call_priority c)) as [[-> _]|[->| ->]]; done.
    + subst y'. eapply (channels_ok_move i c AtSave); try done. by left.
    + destruct Hstep as [_ ->]. unfold on_subscription. simpl.
      destruct (isFinished (store y) (call_id c)).
      * eapply (channels_ok_notify (call_id c)
                  (set_caller i c AtBlocked
                     (set_notifier
                        {| watchIds := <[call_id c :=
                             (default [] (watchIds (notifier y) !! call_id c)
                              ++ [i])%list]> (watchIds (notifier y));
                           delivered := delivered (notifier y) |} ∅ y)));
          [done|done|].
        by eapply (channels_ok_file i c y).
      * by eapply (channels_ok_file i c y).
    + destruct Hstep as [Hd ->].
      eapply (channels_ok_move i c AtBlocked); try done. by right.
    + subst y'. eapply (channels_ok_move i c AtRecheck); try done. by left.
    + done.
  - apply sched_step_inv in Hexec.
    destruct (sched y); [by subst y'; apply (channels_ok_frame y)|
                         |by subst y'; apply (channels_ok_frame y)|done].
    by destruct Hexec as [[_ ->]|[(id & p & s1 & _ & _ & ->)|(id & p & s1 & _ & _ & _ & ->)]];
      apply (channels_ok_frame y).
  - apply handoff_step_inv in Hexec as (t & hm & _ & _ & ->).
    by apply (channels_ok_frame y).
  - apply worker_step_inv in Hexec as [(t & Hw & Hcall)|(id & rec & Hw & ->)];
      [|by apply (channels_ok_frame y)].
    by destruct (worker _ _); subst y'; apply (channels_ok_frame y).
  - apply notifier_receive_inv in Hexec as (_ & m & rest & Hch & ->).
    case_bool_decide; [by apply (channels_ok_frame y)|].
    by apply (channels_ok_notify m y).
  - apply notifier_visit_inv in Hexec as (_ & ->). unfold notifyAll_visit.
    destruct (isFinished (store y) id) eqn:Hfin.
    + by eapply (channels_ok_notify id y).
    + by eapply (channels_ok_frame y).
  - injection Hexec as <-. by apply (channels_ok_frame y).
  - destruct (chan (store y)); [done|]. injection Hexec as <-.
    by apply (channels_ok_frame y).
  - case_bool_decide; [|done]. injection Hexec as <-.
    by apply (channels_ok_frame y).
Qed.

(** X8.  The channels on which callers wait are handled one to one.  In
    every state the process reaches, a channel that the notifier has on
    file belongs to a caller that is blocked on it, is on file under the id
    of that caller's call and nowhere else, occurs once in its list, and
    has not been sent on: [notifyChannels] never sends on a channel that it
    sent on and closed before.  A channel that was sent on belongs to a
    caller that had subscribed; and the channel of a blocked caller is on
    file unless it was sent on, so no subscription is dropped. *)
Theorem notifier_channels_one_to_one
    (s0 : Redis) (nWorkers : nat) (tr : list action) (y : @Sys V) :
  run worker tr (init s0 nWorkers) = Some y →
  channels_ok y
  ∧ (∀ id id' i, filed y id i → filed y id' i → id = id').
Proof.
  intros Hrun.
  assert (channels_ok y) as Hy.
  { apply (run_invariant worker channels_ok channels_ok_step tr _ _ Hrun).
    constructor; unfold filed; simpl.
    - intros id i (chs & Hl & _). by rewrite lookup_empty in Hl.
    - intros id chs Hl. by rewrite lookup_empty in Hl.
    - by intros i ?%elem_of_empty.
    - intros i c Hl. by rewrite lookup_nil in Hl. }
  split; [done|]. intros id id' i Hf Hf'.
  destruct (f_filed y Hy id i Hf) as [(c & Hl & <-) _].
  destruct (f_filed y Hy id' i Hf') as [(c' & Hl' & <-) _]. congruence.
Qed.

Lemma results_write_exec (id id' : string) (rec : writeKey * string * bool)
    (s : Redis) :
  is_Some (results s !! id) → is_Some (results (write_exec id' rec s) !! id).
Proof.
  intros Hs. destruct rec as [[[] data] []]; simpl; try done;
    (destruct (decide (id' = id)) as [->|Hne];
       [by rewrite lookup_insert_eq|by rewrite lookup_insert_ne]).
Qed.

Lemma calls_for_log_call (id : string) (t : workerTask) (y : @Sys V) :
  task_id t ≠ id → calls_for id (log_call t y) = calls_for id y.
Proof.
  intros Hne. unfold calls_for, log_call. simpl.
  rewrite filter_app, length_app. simpl.
  rewrite filter_cons_False, filter_nil by done. simpl. lia.
Qed.

Lemma settled_step (id : string) (a : action) (y y' : @Sys V) :
  exec worker a y = Some y' → settled id y →
  settled id y' ∧ calls_for id y' = calls_for id y.
Proof.
  intros Hexec [Hr Hq Hs Hw Hww Hc]. unfold exec in Hexec.
  destruct (panicked y); [done|]. destruct a as [c|i| |w|w| |id'| | |d].
  - injection Hexec as <-. split; [|done]. constructor; simpl; try done.
    intros i c' [?|[_ Hl]]%lookup_app_Some; [by eapply Hc|].
    by apply list_lookup_singleton_Some in Hl as [_ [=]].
  - apply caller_step_inv in Hexec as (c & pc & Hl & Hstep).
    assert (i < length (callers y))%nat as Hlt by by eapply lookup_lt_Some.
    assert (∀ pc', (pc' = AtSave → call_id c ≠ id) →
              ∀ j c', <[i := mkCaller c pc']> (callers y) !! j
                      = Some (mkCaller c' AtSave) → call_id c' ≠ id)
      as Hcallers.
    { intros pc' Hpc j c'. destruct (decide (j = i)) as [->|Hne].
      - rewrite list_lookup_insert_eq by done. intros [= <- Heq]. by apply Hpc.
      - rewrite list_lookup_insert_ne by done. apply Hc. }
    destruct pc as [| | | | | |ret err].
    + subst y'. split; [|done]. constructor; simpl; try done.
      apply Hcallers.
      destruct (after_get_cases (getResultErr (store y) (call_id c)
                                   (call_returnBytes c)))
        as [->|(ret & err & ->)]; done.
    + subst y'. split; [|done]. constructor; simpl; try done.
      apply Hcallers.
      destruct (after_check_cases (enqueue_check (store y) (call_id c))
                  (call_priority c)) as [[-> Hsave]|[->| ->]]; [|done..].
      intros _ Heq. apply enq_saveId_spec in Hsave as (_ & Hnr & _).
      apply Hnr. left. unfold GET_key. by rewrite Heq.
    + subst y'. split; [|done]. constructor; simpl; try done.
      * rewrite lookup_insert_ne; [done|]. by eapply Hc.
      * by apply Hcallers.
    + destruct Hstep as [_ ->]. split; [|done]. constructor; simpl; try done.
      by apply Hcallers.
    + destruct Hstep as [_ ->]. split; [|done]. constructor; simpl; try done.
      by apply Hcallers.
    + subst y'. split; [|done]. constructor; simpl; try done.
      by apply Hcallers.
    + done.
  - apply sched_step_inv in Hexec.
    destruct (sched y) as [| |id1 p card|t hm] eqn:Hsch.
    + subst y'. split; [|done]. constructor; simpl; try done.
      * unfold BLPOP. by destruct (workReady (store y)).
      * by rewrite queue_BLPOP.
    + destruct Hexec as [[_ ->]|[(id1 & p & s1 & Hz & Hs1 & ->)
                                |(id1 & p & s1 & Hz & _ & Hs1 & ->)]].
      { split; [|done]. constructor; simpl; done. }
      * destruct (dequeue_pop_first _ _ _ Hz) as (s1' & Hp & Hq1 & [= ? ? ? ? ? ?]).
        rewrite Hp in Hs1. simpl in Hs1. subst s1'.
        apply zfirst_Some in Hz as [Hqid _].
        split; [|done]. constructor; simpl; try done.
        -- congruence.
        -- rewrite Hq1. apply lookup_delete_None. by right.
        -- intros ->. congruence.
      * destruct (dequeue_pop_first _ _ _ Hz) as (s1' & Hp & Hq1 & [= ? ? ? ? ? ?]).
        rewrite Hp in Hs1. simpl in Hs1. subst s1'.
        split; [|done]. constructor; simpl; try done.
        -- congruence.
        -- rewrite Hq1. apply lookup_delete_None. by right.
    + subst y'. split; [|done]. constructor; simpl; done.
    + done.
  - apply handoff_step_inv in Hexec as (t & hm & Hsch & Hwl & ->).
    rewrite Hsch in Hs. split; [|done]. constructor; simpl; try done.
    + by destruct hm.
    + intros w' t'. destruct (decide (w' = w)) as [->|Hne].
      * rewrite list_lookup_insert_eq by by eapply lookup_lt_Some.
        by intros [= <-].
      * rewrite list_lookup_insert_ne by done. apply Hw.
    + intros w' id1 rec. destruct (decide (w' = w)) as [->|Hne].
      * by rewrite list_lookup_insert_eq by by eapply lookup_lt_Some.
      * rewrite list_lookup_insert_ne by done. apply Hww.
  - apply worker_step_inv in Hexec as [(t & Hwl & Hcall)|(id1 & rec & Hwl & ->)].
    + pose proof (Hw w t Hwl) as Hne.
      destruct (worker _ _); subst y'.
      * split; [|by apply (calls_for_log_call id t y)].
        constructor; simpl; try done.
        -- intros w' t'. destruct (decide (w' = w)) as [->|Hne'].
           ++ by rewrite list_lookup_insert_eq by by eapply lookup_lt_Some.
           ++ rewrite list_lookup_insert_ne by done. apply Hw.
        -- intros w' id1 rec. destruct (decide (w' = w)) as [->|Hne'].
           ++ rewrite list_lookup_insert_eq by by eapply lookup_lt_Some.
              by intros [= <- _].
           ++ rewrite list_lookup_insert_ne by done. apply Hww.
      * split; [|by apply (calls_for_log_call id t y)].
        constructor; simpl; done.
    + split; [|done]. constructor; simpl; try done.
      * by apply results_write_exec.
      * by rewrite queue_write_exec.
      * intros w' t'. destruct (decide (w' = w)) as [->|Hne'].
        -- by rewrite list_lookup_insert_eq by by eapply lookup_lt_Some.
        -- rewrite list_lookup_insert_ne by done. apply Hw.
      * intros w' id2 rec2. destruct (decide (w' = w)) as [->|Hne'].
        -- by rewrite list_lookup_insert_eq by by eapply lookup_lt_Some.
        -- rewrite list_lookup_insert_ne by done. apply Hww.
  - apply notifier_receive_inv in Hexec as (_ & m & rest & Hch & ->).
    split; [|by case_bool_decide]. case_bool_decide; constructor; simpl; done.
  - apply notifier_visit_inv in Hexec as (_ & ->).
    split; [|done]. constructor; simpl; done.
  - injection Hexec as <-. split; [|done]. constructor; simpl; done.
  - destruct (chan (store y)); [done|]. injection Hexec as <-.
    split; [|done]. constructor; simpl; done.
  - case_bool_decide; [|done]. injection Hexec as <-.
    split; [|done]. constructor; simpl; done.
Qed.

(** No step changes the result record of a settled id. *)
Lemma settled_record_step (id : string) (a : action) (y y' : @Sys V) :
  exec worker a y = Some y' → settled id y →
  results (store y') !! id = results (store y) !! id.
Proof.
  intros Hexec Hy.
  destruct (exec_records worker a y y' Hexec)
    as [[-> _]|(w & id' & rec & _ & Hwl & ->)]; [done|].
  pose proof (st_writers id y Hy w id' rec Hwl) as Hne.
  destruct rec as [[[] data] []]; simpl; try done; by rewrite lookup_insert_ne.
Qed.

(** X9.  Once [id] has a result record and nothing is on its way to
    compute it again or to write a record for it (it is not queued, no
    task for it is held by the dequeue loop or by a worker, no worker is
    about to write the outcome of a computation for it, and no caller
    stands between the two transactions of [enqueue] for it), this stays
    so through every step of every goroutine and however much time
    passes: the worker function is never called for [id] again, and the
    result record stays as it is. *)
Theorem settled_id_is_never_recomputed
    (id : string) (tr : list action) (y y' : @Sys V) :
  settled id y →
  run worker tr y = Some y' →
  settled id y'
  ∧ calls_for id y' = calls_for id y
  ∧ results (store y') !! id = results (store y) !! id.
Proof.
  intros Hy Hrun.
  apply (run_invariant worker
           (λ y1, settled id y1 ∧ calls_for id y1 = calls_for id y
                  ∧ results (store y1) !! id = results (store y) !! id))
    with (tr := tr) (y := y); [|done|done].
  intros a y1 y2 Hexec (Hs1 & Hc1 & Hr1).
  destruct (settled_step id a y1 y2 Hexec Hs1) as [Hs2 Hc2].
  pose proof (settled_record_step id a y1 y2 Hexec Hs1) as Hr2.
  split; [done|]. split; congruence.
Qed.

Lemma in_hand_workers (y y' : @Sys V) (id : string) :
  sched y' = sched y → workers y' = workers y → in_hand y id → in_hand y' id.
Proof. unfold in_hand. by intros -> ->. Qed.

Lemma in_hand_step (a : action) (y y' : @Sys V) :
  exec worker a y = Some y' →
  (∀ id, id ∈ inProgress (store y) → in_hand y id) →
  (∀ id, id ∈ inProgress (store y') → in_hand y' id).
Proof.
  intros Hexec Hy. unfold exec in Hexec. unfold in_hand in *.
  destruct (panicked y); [done|]. destruct a as [c|i| |w|w| |id'| | |d].
  - injection Hexec as <-. done.
  - apply caller_step_inv in Hexec as (c & pc & Hl & Hstep).
    destruct pc as [| | | | | |ret err];
      [subst y'|subst y'|subst y'|destruct Hstep as [_ ->]
      |destruct Hstep as [_ ->]|subst y'|done]; done.
  - apply sched_step_inv in Hexec.
    destruct (sched y) as [| |id1 p card|t hm] eqn:Hsch.
    + subst y'. simpl. intros id Hin.
      assert (inProgress (BLPOP (store y)).2 = inProgress (store y)) as Heq
        by (unfold BLPOP; by destruct (workReady (store y))).
      rewrite Heq in Hin. destruct (Hy id Hin) as [(t & hm & Hs & _)|Hw].
      * congruence.
      * by right.
    + destruct Hexec as [[_ ->]|[(id1 & p & s1 & Hz & Hs1 & ->)
                                |(id1 & p & s1 & Hz & _ & Hs1 & ->)]].
      { intros id Hin. destruct (Hy id Hin) as [(t & hm & Hs & _)|Hw].
        - congruence.
        - by right. }
      all: destruct (dequeue_pop_first _ _ _ Hz)
             as (s1' & Hp & _ & [= ? Hinp ? ? ? ?]).
      all: rewrite Hp in Hs1; simpl in Hs1; subst s1'.
      all: simpl; intros id Hin; rewrite Hinp in Hin.
      all: destruct (Hy id Hin) as [(t & hm & Hs & _)|Hw]; [congruence|by right].
    + subst y'. simpl. intros id [->%elem_of_singleton|Hin]%elem_of_union.
      * left. by exists (mkTask id1 p), (Z.ltb 0 card).
      * destruct (Hy id Hin) as [(t & hm & Hs & _)|Hw]; [congruence|by right].
    + done.
  - apply handoff_step_inv in Hexec as (t & hm & Hsch & Hwl & ->).
    simpl. intros id Hin. right.
    destruct (Hy id Hin) as [(t' & hm' & Hs & Hid)|(w' & Hw)].
    + exists w. left. exists t. rewrite Hsch in Hs. injection Hs as <- <-.
      split; [|done]. apply list_lookup_insert_eq. by eapply lookup_lt_Some.
    + exists w'. assert (w' ≠ w) as Hne.
      { intros ->. destruct Hw as [(? & ? & _)|(? & ?)]; congruence. }
      by rewrite list_lookup_insert_ne.
  - apply worker_step_inv in Hexec as [(t & Hwl & Hcall)|(id1 & rec & Hwl & ->)].
    + destruct (worker _ _); subst y'; simpl; [|done].
      intros id Hin.
      destruct (Hy id Hin) as [?|(w' & Hw)]; [by left|right].
      destruct (decide (w' = w)) as [->|Hne].
      * exists w. right. eexists.
        rewrite list_lookup_insert_eq by by eapply lookup_lt_Some.
        destruct Hw as [(t' & Hl & <-)|(rec & Hl)]; [|congruence].
        rewrite Hwl in Hl. by injection Hl as <-.
      * exists w'. by rewrite list_lookup_insert_ne.
    + simpl. intros id Hin.
      assert (id ≠ id1 ∧ id ∈ inProgress (store y)) as [Hne Hin'].
      { destruct rec as [[[] data] []]; simpl in Hin;
          apply elem_of_difference in Hin as [? Hn];
          (split; [|done]); intros ->; apply Hn; by apply elem_of_singleton. }
      destruct (Hy id Hin') as [?|(w' & Hw)]; [by left|right].
      exists w'. assert (w' ≠ w) as Hnw.
      { intros ->. destruct Hw as [(? & ? & _)|(? & ?)]; congruence. }
      by rewrite list_lookup_insert_ne.
  - apply notifier_receive_inv in Hexec as (_ & m & rest & Hch & ->).
    by case_bool_decide.
  - apply notifier_visit_inv in Hexec as (_ & ->). done.
  - injection Hexec as <-. done.
  - destruct (chan (store y)); [done|]. injection Hexec as <-. done.
  - case_bool_decide; [|done]. injection Hexec as <-. done.
Qed.

(** X10.  In a process that starts on a store with an empty in-progress
    set, every id in the in-progress set is in the hands of a goroutine of
    the process: of the dequeue loop, which added it and has yet to hand
    the task over, or of a worker that took the task and has not yet
    written (after a panic, that goroutine is the one that is gone). *)
Theorem in_progress_ids_are_in_hand
    (s0 : Redis) (nWorkers : nat) (tr : list action) (y : @Sys V) (id : string) :
  inProgress s0 = ∅ →
  run worker tr (init s0 nWorkers) = Some y →
  id ∈ inProgress (store y) → in_hand y id.
Proof.
  intros H0 Hrun. revert id.
  apply (run_invariant worker
           (λ y, ∀ id, id ∈ inProgress (store y) → in_hand y id)
           in_hand_step tr _ _ Hrun).
  simpl. intros id. rewrite H0. by intros ?%elem_of_empty.
Qed.

End Discipline.

Lemma worker_called_only_as_asked_witness :
  ∃ y, run (codec := stringCodec) priorityWorker (computed_twice 7 5)
         (init emptyRedis 1) = Some y
     ∧ calls y = [(7%Z, "x"); (5%Z, "x")]
     ∧ only_asked y
     ∧ ∃ i c pc, callers y !! i = Some (mkCaller c pc)
                 ∧ call_id c = "x" ∧ call_priority c = 5%Z.
Proof.
  assert (∃ y0, run (codec := stringCodec) priorityWorker (computed_twice 7 5)
                  (init emptyRedis 1) = Some y0
                ∧ calls y0 = [(7%Z, "x"); (5%Z, "x")]
                ∧ forallb (λ c, Z.leb (Z.abs (call_priority (c_call c)))
                                  (2 ^ 53)) (callers y0) = true)
    as (y0 & Hrun & Hcalls & Hex).
  { eexists. split; [by vm_compute|]. split; by vm_compute. }
  exists y0.
  destruct (worker_called_only_as_asked (codec := stringCodec) priorityWorker
              emptyRedis 1 (computed_twice 7 5) y0 eq_refl Hrun)
    as (Hasked & _ & Hexact).
  split_and!; [exact Hrun|exact Hcalls|exact Hasked|].
  apply Hexact.
  - intros i c pc Hl. rewrite forallb_forall in Hex.
    apply list_elem_of_lookup_2, list_elem_of_In, Hex in Hl. simpl in Hl.
    unfold exact_score. lia.
  - rewrite Hcalls. apply list_elem_of_further, list_elem_of_here.
Defined.

Lemma notifier_channels_one_to_one_witness :
  ∃ y, run (codec := stringCodec) priorityWorker lost_message_then_reconnect
         (init emptyRedis 1) = Some y
     ∧ channels_ok y.
Proof.
  assert (∃ y0, run (codec := stringCodec) priorityWorker
                  lost_message_then_reconnect (init emptyRedis 1) = Some y0)
    as (y0 & Hrun).
  { eexists. by vm_compute. }
  exists y0. split; [exact Hrun|].
  exact (proj1 (notifier_channels_one_to_one (codec := stringCodec) priorityWorker
                  emptyRedis 1 lost_message_then_reconnect y0 Hrun)).
Defined.

Lemma settled_id_is_never_recomputed_witness :
  let y := init (V := string) (SET_key "x" "pixels" emptyRedis) 1 in
  let tr := [ ACall (CallGet 1 false "x"); ACaller 0; ATick 100;
              ACall (CallWarm 2 "x"); ACaller 1; ASched; ASched ] in
  ∃ y', run (codec := stringCodec) priorityWorker tr y = Some y'
      ∧ settled "x" y' ∧ calls_for "x" y' = 0%nat
      ∧ results (store y') !! "x" = Some "pixels".
Proof.
  intros y tr.
  assert (settled "x" y) as Hy.
  { constructor; simpl.
    - eexists. by vm_compute.
    - by vm_compute.
    - done.
    - by intros w t [_ [=]]%list_lookup_singleton_Some.
    - by intros w id' rec [_ [=]]%list_lookup_singleton_Some.
    - intros i c Hl. by rewrite lookup_nil in Hl. }
  assert (∃ y0, run (codec := stringCodec) priorityWorker tr y = Some y0)
    as (y0 & Hrun).
  { eexists. by vm_compute. }
  exists y0. split; [exact Hrun|].
  destruct (settled_id_is_never_recomputed (codec := stringCodec) priorityWorker
              "x" tr y y0 Hy Hrun) as (Hs & Hc & Hr).
  split_and!; [exact Hs|exact Hc|]. rewrite Hr. by vm_compute.
Defined.

Lemma in_progress_ids_are_in_hand_witness :
  ∃ y, run (codec := stringCodec) priorityWorker (late_zadd 7 5)
         (init emptyRedis 1) = Some y
     ∧ "x" ∈ inProgress (store y)
     ∧ in_hand y "x".
Proof.
  assert (∃ y0, run (codec := stringCodec) priorityWorker (late_zadd 7 5)
                  (init emptyRedis 1) = Some y0
                ∧ bool_decide ("x" ∈ inProgress (store y0)) = true)
    as (y0 & Hrun & Hin%bool_decide_eq_true).
  { eexists. split; by vm_compute. }
  exists y0. split_and!; [exact Hrun|exact Hin|].
  exact (in_progress_ids_are_in_hand (codec := stringCodec) priorityWorker
           emptyRedis 1 (late_zadd 7 5) y0 "x" eq_refl Hrun Hin).
Defined.

(** ** The loop of a worker *)

Section WorkerLoop.
Context {V : Type} `{codec : LRUCodec V}.
Variable worker : Z → string → callOutcome V.

(** What any write of [writeWorkerResult] does. *)
Lemma write_exec_any (id : string) (rec : writeKey * string * bool) (s : Redis) :
  chan (write_exec id rec s) = (chan s ++ [id])%list
  ∧ inProgress (write_exec id rec s) = inProgress s ∖ {[id]}
  ∧ queue (write_exec id rec s) = queue s
  ∧ workReady (write_exec id rec s) = workReady s
  ∧ now (write_exec id rec s) = now s
  ∧ (is_Some (results (write_exec id rec s) !! id)
     ∨ is_Some (errors (write_exec id rec s) !! id))
  ∧ (∀ id', is_Some (results s !! id') →
            is_Some (results (write_exec id rec s) !! id'))
  ∧ (∀ id', is_Some (errors s !! id') →
            is_Some (errors (write_exec id rec s) !! id')).
Proof.
  assert (∀ (m : gmap string (string * option Z)) f v id',
            is_Some (m !! id') → is_Some (alter f id (<[id := v]> m) !! id'))
    as Halter.
  { intros m f v id' Hs. destruct (decide (id = id')) as [->|Hne].
    - by rewrite lookup_alter_eq, lookup_insert_eq.
    - by rewrite lookup_alter_ne, lookup_insert_ne. }
  assert (∀ {A} (m : gmap string A) v id',
            is_Some (m !! id') → is_Some (<[id := v]> m !! id')) as Hins.
  { intros A m v id' Hs. destruct (decide (id = id')) as [->|Hne].
    - by rewrite lookup_insert_eq.
    - by rewrite lookup_insert_ne. }
  destruct rec as [[[] data] []]; simpl; split_and!; try done;
    try (by left; rewrite lookup_insert_eq);
    try (by right; rewrite ?lookup_alter_eq, lookup_insert_eq);
    try (by apply Hins); by apply Halter.
Qed.

(** X11.  A worker goroutine that receives the tasks [tasks], none of
    which makes the worker function panic, handles them in that order and
    is then ready for the next: the ids are published on the channel in the
    order of the tasks, each id has a result record or an error record and
    is out of the in-progress set, no record that was there is removed,
    and the queue and the work-ready list are untouched.  When the worker
    function panics on a task, the tasks before it are handled in this
    way and the loop ends there, with the tasks after it unhandled. *)
Theorem workerLoop_handles_every_task (tasks : list workerTask) (s : Redis) :
  (∀ t, t ∈ tasks → worker (task_priority t) (task_id t) ≠ Panics) →
  (∃ s', workerLoop worker tasks s = LoopShutdown s'
      ∧ chan s' = (chan s ++ (task_id <$> tasks))%list
      ∧ inProgress s' = inProgress s ∖ list_to_set (task_id <$> tasks)
      ∧ (∀ t, t ∈ tasks →
           is_Some (results s' !! task_id t) ∨ is_Some (errors s' !! task_id t))
      ∧ (∀ id, is_Some (results s !! id) → is_Some (results s' !! id))
      ∧ (∀ id, is_Some (errors s !! id) → is_Some (errors s' !! id))
      ∧ queue s' = queue s ∧ workReady s' = workReady s ∧ now s' = now s)
  ∧ (∀ t rest, worker (task_priority t) (task_id t) = Panics →
       ∃ s', workerLoop worker tasks s = LoopShutdown s'
           ∧ workerLoop worker (tasks ++ t :: rest) s = LoopPanic s' rest).
Proof.
  revert s. induction tasks as [|t tasks IH]; intros s Hok.
  { split.
    - exists s. simpl. rewrite app_nil_r.
      split_and!; try done.
      + apply set_eq. intros x. rewrite elem_of_difference, elem_of_empty. tauto.
      + by intros t ?%elem_of_nil.
    - intros t rest Hp. exists s. split; [done|]. simpl.
      unfold writeWorkerResult. by rewrite Hp. }
  assert (worker (task_priority t) (task_id t) ≠ Panics) as Ht
    by (apply Hok, list_elem_of_here).
  destruct (worker (task_priority t) (task_id t)) as [result err|] eqn:Hw; [|done].
  set (s1 := write_exec (task_id t) (worker_record result err) s).
  destruct (write_exec_any (task_id t) (worker_record result err) s)
    as (Hch & Hin & Hq & Hwr & Hnow & Hrec & Hres & Herr).
  fold s1 in Hch, Hin, Hq, Hwr, Hnow, Hrec, Hres, Herr.
  destruct (IH s1) as [(s' & Hloop & Hch' & Hin' & Hrec' & Hres' & Herr' & Hq' & Hwr' & Hnow') Hpanic].
  { intros t' Ht'. by apply Hok, list_elem_of_further. }
  assert (workerLoop worker (t :: tasks) s = workerLoop worker tasks s1) as Hstep.
  { simpl. unfold writeWorkerResult. by rewrite Hw. }
  split.
  - exists s'. rewrite Hstep. split_and!.
    + done.
    + rewrite Hch', Hch, <-app_assoc. done.
    + rewrite Hin', Hin. apply set_eq. intros x.
      rewrite fmap_cons, list_to_set_cons, !elem_of_difference, elem_of_union. tauto.
    + intros t' [->|Ht']%elem_of_cons; [|by apply Hrec'].
      destruct Hrec; [left; by apply Hres'|right; by apply Herr'].
    + intros id ?. by apply Hres', Hres.
    + intros id ?. by apply Herr', Herr.
    + congruence.
    + congruence.
    + congruence.
  - intros t' rest Hp. destruct (Hpanic t' rest Hp) as (s2 & Hl1 & Hl2).
    exists s2. rewrite Hstep. split; [done|].
    change ((t :: tasks) ++ t' :: rest)%list with (t :: (tasks ++ t' :: rest))%list.
    cbn [workerLoop]. unfold writeWorkerResult at 1. by rewrite Hw.
Qed.

End WorkerLoop.

Lemma workerLoop_handles_every_task_witness :
  ∃ s', workerLoop (codec := stringCodec) pickyWorker
          [mkTask "bad" 4; mkTask "ok" 2] x_in_progress = LoopShutdown s'
      ∧ chan s' = ["bad"; "ok"]
      ∧ workerLoop (codec := stringCodec) pickyWorker
          [mkTask "bad" 4; mkTask "ok" 2; mkTask "boom" 1; mkTask "late" 3]
          x_in_progress = LoopPanic s' [mkTask "late" 3].
Proof.
  destruct (workerLoop_handles_every_task (codec := stringCodec) pickyWorker
              [mkTask "bad" 4; mkTask "ok" 2] x_in_progress)
    as [(s' & Hloop & Hch & _) Hpanic].
  { intros t [->|[->|?%elem_of_nil]%elem_of_cons]%elem_of_cons; [done|done|done]. }
  exists s'. split_and!; [exact Hloop|exact Hch|].
  destruct (Hpanic (mkTask "boom" 1) [mkTask "late" 3] eq_refl) as (s2 & Hl & Hp).
  rewrite Hloop in Hl. injection Hl as <-. exact Hp.
Defined.

(** ** One key, one role *)

Lemma key_of_suffix (queueName : string) (role : keyRole) :
  key_of (NewReadThroughCache_keys queueName) role
  = QUEUE_PREFIX +:+ (queueName +:+ role_suffix role).
Proof.
  destruct role; unfold key_of, key, errorKey, NewReadThroughCache_keys;
    cbn [keyPrefix errKeyPrefix queueKey workReadyKey inProgressKey role_suffix];
    rewrite ?append_assoc, ?append_empty_r; done.
Qed.

Lemma role_suffix_inj (r1 r2 : keyRole) :
  role_suffix r1 = role_suffix r2 → r1 = r2.
Proof.
  destruct r1, r2; cbv [role_suffix String.append]; intros H;
    try discriminate H; try done; by injection H as ->.
Qed.

Lemma role_suffix_headed (role : keyRole) : colon_headed (role_suffix role).
Proof. by destruct role. Qed.

Lemma colon_split (a b s t : string) :
  has_colon a = false → has_colon b = false →
  colon_headed s → colon_headed t →
  a +:+ s = b +:+ t → a = b ∧ s = t.
Proof.
  revert b. induction a as [|x a IH]; intros [|y b] Ha Hb Hs Ht Heq.
  - done.
  - change (s = String y (b +:+ t)) in Heq. subst s. simpl in Hs. subst y.
    simpl in Hb. done.
  - change (String x (a +:+ s) = t) in Heq. subst t. simpl in Ht. subst x.
    simpl in Ha. done.
  - change (String x (a +:+ s) = String y (b +:+ t)) in Heq.
    injection Heq as -> Heq. simpl in Ha, Hb.
    apply orb_false_iff in Ha as [_ Ha]. apply orb_false_iff in Hb as [_ Hb].
    destruct (IH b Ha Hb Hs Ht Heq) as [-> ->]. done.
Qed.

(** X12.  The keys that [NewReadThroughCache] lays out: within one
    instance no key serves in two roles, so the queue, the list of
    markers, the in-progress set and the result and error records of all
    ids are kept apart, and two ids never share a record.  Two instances
    whose queue names contain no colon share a key only when they have the
    same queue name, and then in the same role.  Without that condition
    instances can collide: the result record of [id] in the instance named
    [queueName] has the key of the queue of the instance named
    [queueName:k:id]. *)
Theorem keys_have_one_role :
  (∀ queueName r1 r2,
     key_of (NewReadThroughCache_keys queueName) r1
     = key_of (NewReadThroughCache_keys queueName) r2 → r1 = r2)
  ∧ (∀ q1 q2 r1 r2,
       has_colon q1 = false → has_colon q2 = false →
       key_of (NewReadThroughCache_keys q1) r1
       = key_of (NewReadThroughCache_keys q2) r2 → q1 = q2 ∧ r1 = r2)
  ∧ (∀ queueName id,
       key_of (NewReadThroughCache_keys queueName) (ResultRole id)
       = key_of (NewReadThroughCache_keys (queueName +:+ ":k:" +:+ id)) QueueRole).
Proof.
  split_and!.
  - intros q r1 r2. rewrite !key_of_suffix.
    intros H. do 2 apply append_inj_r in H. by apply role_suffix_inj.
  - intros q1 q2 r1 r2 H1 H2. rewrite !key_of_suffix.
    intros H%append_inj_r.
    apply colon_split in H as [-> H]; try done; try apply role_suffix_headed.
    split; [done|]. by apply role_suffix_inj.
  - intros q id. rewrite !key_of_suffix. cbn [role_suffix].
    by rewrite append_empty_r.
Qed.

(** ** Package [server] *)

Lemma string_length_append (a b : string) :
  String.length (a +:+ b) = (String.length a + String.length b)%nat.
Proof.
  induction a as [|x a IH]; [done|].
  change (S (String.length (a +:+ b)) = S (String.length a + String.length b)).
  by rewrite IH.
Qed.

Lemma append_inj_l (a b s : string) : a +:+ s = b +:+ s → a = b.
Proof.
  revert b. induction a as [|x a IH]; intros [|y b] Heq.
  - done.
  - apply (f_equal String.length) in Heq.
    change (String.length s = S (String.length (b +:+ s))) in Heq.
    rewrite string_length_append in Heq. lia.
  - apply (f_equal String.length) in Heq.
    change (S (String.length (a +:+ s)) = String.length s) in Heq.
    rewrite string_length_append in Heq. lia.
  - change (String x (a +:+ s) = String y (b +:+ s)) in Heq.
    injection Heq as -> Heq. f_equal. by apply IH.
Qed.

Section Server.
Context `{GceConstants}.

(** X13.  [Server20170613] does not panic, and the instance it returns is
    that of [Server20170518] for the same name with the boot disk created
    from the image [DISK_IMAGE_SKIA_PUSHABLE_BASE] and from no snapshot;
    nothing else differs.  In both configurations the boot disk carries
    the name of the instance and the data disk that name followed by
    [-data], so the two disks of an instance have different names and
    different instance names give different disks; but the data disk of
    the instance [name] has the name of the boot disk of an instance called
    [name-data]. *)
Theorem Server20170613_changes_boot_source_only (name : string) :
  ∃ vm boot boot0 data,
    Server20170613 name = Some vm
    ∧ BootDisk vm = Some boot
    ∧ BootDisk (Server20170518 name) = Some boot0
    ∧ DataDisk vm = Some data
    ∧ Disk_SourceImage boot = DISK_IMAGE_SKIA_PUSHABLE_BASE
    ∧ Disk_SourceSnapshot boot = ""
    ∧ set_boot_source (Disk_SourceImage boot0) (Disk_SourceSnapshot boot0) vm
      = Some (Server20170518 name)
    ∧ Name vm = name
    ∧ Disk_Name boot = name
    ∧ Disk_Name data = name +:+ "-data"
    ∧ Disk_Name data ≠ Disk_Name boot
    ∧ (∀ name', Server20170613 name' = Some vm → name' = name)
    ∧ (∀ name', DataDisk (Server20170518 name') = Some data → name' = name)
    ∧ BootDisk (Server20170518 (name +:+ "-data"))
      = Some {| Disk_Name := Disk_Name data;
                Disk_SizeGb := 0;
                Disk_SourceImage := "";
                Disk_SourceSnapshot := DISK_SNAPSHOT_SYSTEMD_PUSHABLE_BASE;
                Disk_Type := DISK_TYPE_PERSISTENT_STANDARD |}.
Proof.
  eexists _, _, _, _.
  split; [reflexivity|]. split; [reflexivity|]. split; [reflexivity|].
  split; [reflexivity|]. cbn.
  split_and!; try reflexivity.
  - by apply append_ne_self.
  - intros name'. unfold Server20170613, set_boot_source. cbn. by intros [= ->].
  - intros name' [= Heq]. by apply append_inj_l in Heq.
Qed.

End Server.

(** The cookie file of a user. *)
Lemma Sprintf_gitcookies (gitUser : string) :
  Sprintf GS_URL_GITCOOKIES_TMPL gitUser
  = "gs://skia-buildbots/artifacts/server/.gitcookies_" +:+ gitUser.
Proof.
  cbv [GS_URL_GITCOOKIES_TMPL Sprintf]. rewrite append_empty_r.
  by cbv [String.append].
Qed.

Lemma AddGitConfigs_downloads (vm vm' : Instance) (gitUser : string)
    (m : gmap string string) :
  GSDownloads vm = Some m → AddGitConfigs vm gitUser = Some vm' →
  GSDownloads vm'
  = Some (<["~/.gitcookies" := Sprintf GS_URL_GITCOOKIES_TMPL gitUser]>
            (<["~/.netrc" := GS_URL_NETRC]>
               (<["~/.gitconfig" := GS_URL_GITCONFIG]> m)))
  ∧ set_GSDownloads m vm' = vm.
Proof.
  unfold AddGitConfigs. intros Hm. rewrite Hm. intros [= <-].
  split; [done|]. destruct vm. simpl in *. by subst.
Qed.

(** X14.  [AddGitConfigs] panics exactly on an instance whose
    [GSDownloads] map is [nil]; the instances of [Server20170518] and
    [Server20170613] are not of that kind.  Otherwise it sets the downloads
    for the three paths [~/.gitconfig], [~/.netrc] and [~/.gitcookies], the
    last one to the cookie file of [gitUser], and changes no other
    download and no other field.  Calling it again never panics; with the
    same user it changes nothing, with another user the cookie file of the
    later user is the one that stays; and two users get the same cookie
    file only if they are the same. *)
Theorem AddGitConfigs_sets_three_downloads (vm : Instance) (gitUser : string) :
  (AddGitConfigs vm gitUser = None ↔ GSDownloads vm = None)
  ∧ (∀ `{GceConstants} name vm0,
       Server20170613 name = Some vm0 →
       is_Some (AddGitConfigs vm0 gitUser)
       ∧ is_Some (AddGitConfigs (Server20170518 name) gitUser))
  ∧ (∀ m vm',
       GSDownloads vm = Some m → AddGitConfigs vm gitUser = Some vm' →
       ∃ m', GSDownloads vm' = Some m'
         ∧ m' !! "~/.gitconfig" = Some GS_URL_GITCONFIG
         ∧ m' !! "~/.netrc" = Some GS_URL_NETRC
         ∧ m' !! "~/.gitcookies"
           = Some ("gs://skia-buildbots/artifacts/server/.gitcookies_" +:+ gitUser)
         ∧ (∀ path, path ∉ ["~/.gitconfig"; "~/.netrc"; "~/.gitcookies"] →
                    m' !! path = m !! path)
         ∧ set_GSDownloads m vm' = vm
         ∧ AddGitConfigs vm' gitUser = Some vm'
         ∧ (∀ other, AddGitConfigs vm' other = AddGitConfigs vm other)
         ∧ (∀ other vm'', AddGitConfigs vm other = Some vm'' →
                          GSDownloads vm'' = GSDownloads vm' → other = gitUser)).
Proof.
  split_and!.
  - unfold AddGitConfigs. by destruct (GSDownloads vm).
  - intros ? name vm0 [= <-]. split; by eexists.
  - intros m vm' Hm Hvm'.
    destruct (AddGitConfigs_downloads vm vm' gitUser m Hm Hvm') as [Hd Hrest].
    eexists. split; [exact Hd|].
    assert (∀ other, AddGitConfigs vm' other = AddGitConfigs vm other) as Hlast.
    { intros other. unfold AddGitConfigs. rewrite Hd, Hm. f_equal.
      rewrite <-Hrest. unfold set_GSDownloads. simpl. f_equal. f_equal.
      apply map_eq. intros path.
      destruct (decide (path = "~/.gitcookies")) as [->|H1];
        [by rewrite !lookup_insert_eq|rewrite !(lookup_insert_ne _ "~/.gitcookies") by done].
      destruct (decide (path = "~/.netrc")) as [->|H2];
        [by rewrite !lookup_insert_eq|rewrite !(lookup_insert_ne _ "~/.netrc") by done].
      destruct (decide (path = "~/.gitconfig")) as [->|H3];
        [by rewrite !lookup_insert_eq|rewrite !(lookup_insert_ne _ "~/.gitconfig") by done].
      by rewrite ?lookup_insert_ne by done. }
    split_and!.
    + by rewrite lookup_insert_ne, lookup_insert_ne, lookup_insert_eq.
    + by rewrite lookup_insert_ne, lookup_insert_eq.
    + by rewrite lookup_insert_eq, Sprintf_gitcookies.
    + intros path Hp. rewrite !not_elem_of_cons in Hp.
      destruct Hp as (? & ? & ? & _). by rewrite !lookup_insert_ne.
    + exact Hrest.
    + by rewrite Hlast.
    + exact Hlast.
    + intros other vm'' Hother Heq.
      destruct (AddGitConfigs_downloads vm vm'' other m Hm Hother) as [Hd' _].
      rewrite Hd, Hd', !Sprintf_gitcookies in Heq.
      apply (f_equal (λ d, d ≫= lookup "~/.gitcookies")) in Heq.
      simpl in Heq. rewrite !lookup_insert_eq in Heq.
      injection Heq as Heq. by apply append_inj_r in Heq.
Qed.

(** ** Interleavings: a backlog and one worker *)

Section Backlog.
Context {V : Type} `{codec : LRUCodec V}.
Variable worker : Z → string → callOutcome V.

Lemma backlog_first (q : gmap string Z) (id : string) (p : Z) :
  zfirst q = Some (id, p) → backlog q = (p, id) :: backlog (delete id q).
Proof.
  intros Hz. unfold backlog, zsorted. rewrite (zfirst_size q id p Hz). simpl.
  by rewrite Hz.
Qed.

Lemma backlog_empty : backlog ∅ = [].
Proof. unfold backlog, zsorted. by rewrite map_size_empty. Qed.

Lemma in_rank_order_intro (q0 : gmap string Z) (y : @Sys V) :
  callers y = [] → length (workers y) = 1%nat →
  (calls y ++ omap held_by_worker (workers y) ++ held_by_sched y
   ++ backlog (queue (store y)))%list = backlog q0 →
  in_rank_order q0 y.
Proof. intros Hc Hw Ho. constructor; try done. rewrite <-Ho. by eexists. Qed.

Lemma in_rank_order_step (q0 : gmap string Z) (a : action) (y y' : @Sys V) :
  (∀ c, a ≠ ACall c) → scores_exact (store y) →
  exec worker a y = Some y' → in_rank_order q0 y → in_rank_order q0 y'.
Proof.
  intros Hcall Hex Hexec [Hc Hw _ Ho]. unfold exec in Hexec.
  destruct (workers y) as [|w0 [|? ?]] eqn:Hws; try done. clear Hw.
  destruct (panicked y); [done|]. specialize (Ho eq_refl).
  destruct a as [c|i| |w|w| |id| | |d].
  - by destruct (Hcall c).
  - apply caller_step_inv in Hexec as (c & pc & Hl & _).
    by rewrite Hc, lookup_nil in Hl.
  - apply sched_step_inv in Hexec. unfold held_by_sched in Ho.
    destruct (sched y) as [| |id p card|t hm] eqn:Hsch.
    + subst y'. apply in_rank_order_intro; unfold held_by_sched; simpl;
        [done|by rewrite Hws|].
      by rewrite Hws, queue_BLPOP.
    + destruct Hexec as [[_ ->]|[(id & p & s1 & Hz & Hs1 & ->)
                                |(id & p & s1 & Hz & Hparse & _)]].
      { apply in_rank_order_intro; unfold held_by_sched; simpl;
          [done|by rewrite Hws|].
        by rewrite Hws. }
      2: { rewrite Int64_reply_exact in Hparse; [done|].
           by apply (scores_exact_first _ _ _ Hex Hz). }
      destruct (dequeue_pop_first _ _ _ Hz) as (s1' & Hp & Hq1 & _).
      rewrite Hp in Hs1. simpl in Hs1. subst s1'.
      apply in_rank_order_intro; unfold held_by_sched; simpl;
        [done|by rewrite Hws|].
      rewrite Hws, Hq1, <-Ho. by rewrite (backlog_first _ _ _ Hz).
    + subst y'. apply in_rank_order_intro; unfold held_by_sched; simpl;
        [done|by rewrite Hws|].
      by rewrite Hws.
    + done.
  - apply handoff_step_inv in Hexec as (t & hm & Hsch & Hwl & ->).
    unfold held_by_sched in Ho. rewrite Hsch in Ho. rewrite Hws in Hwl.
    apply list_lookup_singleton_Some in Hwl as [-> ->]. simpl in Ho.
    apply in_rank_order_intro; unfold held_by_sched; simpl; rewrite ?Hws; simpl;
      [done|done|].
    by destruct hm.
  - apply worker_step_inv in Hexec as [(t & Hwl & Hcall')|(id & rec & Hwl & ->)].
    + rewrite Hws in Hwl.
      apply list_lookup_singleton_Some in Hwl as [-> ->]. simpl in Ho.
      destruct (worker _ _); subst y'.
      * apply in_rank_order_intro; unfold held_by_sched; simpl; rewrite ?Hws;
          simpl; [done|done|].
        by rewrite <-app_assoc.
      * constructor; simpl; rewrite ?Hws; try done.
        rewrite <-Ho. eexists. by rewrite <-app_assoc.
    + rewrite Hws in Hwl.
      apply list_lookup_singleton_Some in Hwl as [-> ->]. simpl in Ho.
      apply in_rank_order_intro; unfold held_by_sched; simpl; rewrite ?Hws; simpl;
        [done|done|].
      by rewrite queue_write_exec.
  - apply notifier_receive_inv in Hexec as (_ & m & rest & Hch & ->).
    case_bool_decide; apply in_rank_order_intro; unfold held_by_sched; simpl;
      rewrite ?Hws; done.
  - apply notifier_visit_inv in Hexec as (_ & ->).
    apply in_rank_order_intro; unfold held_by_sched; simpl; rewrite ?Hws; done.
  - injection Hexec as <-.
    apply in_rank_order_intro; unfold held_by_sched; simpl; rewrite ?Hws; done.
  - destruct (chan (store y)); [done|]. injection Hexec as <-.
    apply in_rank_order_intro; unfold held_by_sched; simpl; rewrite ?Hws; done.
  - case_bool_decide; [|done]. injection Hexec as <-.
    apply in_rank_order_intro; unfold held_by_sched; simpl; rewrite ?Hws; done.
Qed.

(** X15.  A process with one worker starts on a store that has a backlog
    in its queue, with scores of at most 2^53 in absolute value, which
    Redis returns as the priorities that were queued, and no [Get] or
    [Warm] is called.  Then, however the
    goroutines interleave, the worker function is called for the queued
    tasks in the order of the sorted set: at any moment the calls made so
    far are the first entries of the backlog in rank order, each with its
    queued priority, and what remains is what is still held or queued. *)
Theorem backlog_is_computed_in_rank_order
    (s0 : Redis) (tr : list action) (y : @Sys V) :
  scores_exact s0 →
  Forall (λ a, ∀ c, a ≠ ACall c) tr →
  run worker tr (init s0 1) = Some y →
  calls y `prefix_of` backlog (queue s0)
  ∧ in_rank_order (queue s0) y
  ∧ StronglySorted (λ a b, entry_le (a.2, a.1) (b.2, b.1) = true)
      (backlog (queue s0)).
Proof.
  intros Hex0 Htr Hrun.
  assert (in_rank_order (queue s0) y) as Hy.
  { assert (in_rank_order (queue s0) (init (V := V) s0 1)) as H0.
    { by apply in_rank_order_intro. }
    assert (scores_exact (store (init (V := V) s0 1))) as Hex by done.
    revert Htr Hrun H0 Hex. generalize (init (V := V) s0 1).
    induction tr as [|a tr IH]; intros y0 Htr Hrun H0 Hex; simpl in Hrun.
    - by injection Hrun as <-.
    - destruct (exec worker a y0) as [y1|] eqn:He; [|done].
      apply Forall_cons in Htr as [Ha Htr].
      apply (IH y1 Htr Hrun).
      + by apply (in_rank_order_step _ a y0).
      + apply (scores_exact_step worker a y0 y1); [|done..].
        intros i c pc. by rewrite (r_callers _ _ H0), lookup_nil. }
  split_and!.
  - exact (r_prefix _ y Hy).
  - done.
  - unfold backlog.
    assert (∀ l, StronglySorted (λ a b : string * Z, entry_le a b = true) l →
                 StronglySorted
                   (λ a b : Z * string, entry_le (a.2, a.1) (b.2, b.1) = true)
                   ((λ e : string * Z, (e.2, e.1)) <$> l)) as Hmap.
    { induction 1 as [|[id p] l _ IH Hall]; simpl; constructor; [done|].
      apply Forall_fmap. eapply Forall_impl; [exact Hall|]. by intros [id' p']. }
    apply Hmap, zrange_from_sorted.
Qed.

End Backlog.

Lemma backlog_is_computed_in_rank_order_witness :
  ∃ y, run (codec := stringCodec) priorityWorker
         [ ASched; ASched; ASched; AHandoff 0; AWorker 0; AWorker 0;
           ASched; ASched; AHandoff 0; AWorker 0 ]
         (init queued_a3_b1_c2 1) = Some y
     ∧ calls y = [(1%Z, "b"); (2%Z, "c")]
     ∧ calls y `prefix_of` backlog (queue queued_a3_b1_c2).
Proof.
  assert (∃ y0, run (codec := stringCodec) priorityWorker
                  [ ASched; ASched; ASched; AHandoff 0; AWorker 0; AWorker 0;
                    ASched; ASched; AHandoff 0; AWorker 0 ]
                  (init queued_a3_b1_c2 1) = Some y0
                ∧ calls y0 = [(1%Z, "b"); (2%Z, "c")]) as (y0 & Hrun & Hcalls).
  { eexists. split; by vm_compute. }
  exists y0. split_and!; [exact Hrun|exact Hcalls|].
  refine (proj1 (backlog_is_computed_in_rank_order (codec := stringCodec)
                   priorityWorker queued_a3_b1_c2 _ y0 _ _ Hrun)).
  - apply scores_exact_check. by vm_compute.
  - repeat (apply Forall_cons; split; [done|]). apply Forall_nil_2.
Defined.

(** ** From the queue to the record *)

Lemma inQueue_all (s : Redis) (id : string) :
  id ∈ inQueue s 0 ↔ is_Some (queue s !! id).
Proof.
  unfold inQueue. rewrite wrap64_small by lia.
  change (0 - 1)%Z with (-1)%Z. rewrite ZRANGE_all. unfold zsorted. split.
  - intros ([id' p] & -> & He)%list_elem_of_fmap.
    apply zrange_from_lookup in He. by exists p.
  - intros [p Hq]. apply list_elem_of_fmap. exists (id, p). split; [done|].
    by apply zrange_from_full.
Qed.

Section Lifecycle.
Context {V : Type} `{codec : LRUCodec V}.

Lemma write_exec_finished (s : Redis) (id : string) (result : option V)
    (err : option string) :
  isFinished (write_exec id (worker_record result err) s) id = true.
Proof.
  apply isFinished_spec. unfold worker_record.
  destruct err as [e|]; [|destruct (Encode result) as [data [e|]]].
  - right. destruct (write_exec_error id e s) as (He & _).
    erewrite GET_errorKey_live; [|exact He].
    simpl. rewrite bool_decide_eq_true_2 by lia. by eexists.
  - right. destruct (write_exec_error id ("Error encoding worker result: " +:+ e) s)
      as (He & _).
    erewrite GET_errorKey_live; [|exact He].
    simpl. rewrite bool_decide_eq_true_2 by lia. by eexists.
  - left. unfold GET_key. simpl. rewrite lookup_insert_eq. by eexists.
Qed.

(** X16.  The way of one id through the store, told by the listings that
    the package keeps for its tests.  [id] is neither queued nor in
    progress and has no record, and [priority], at most 2^53 in absolute
    value so that Redis keeps and returns it as it is, ranks before every
    queued entry.  After [enqueue], [inQueue] lists [id], [inProgress] does not
    and [isFinished] is false.  The next round of the dequeue loop,
    [checkForWork] and then [dequeue], takes one marker off the work-ready
    list and returns the task of [id] with its priority and the number of
    entries that were queued before; [id] is then listed by
    [inProgress] and no longer by [inQueue], and [isFinished] is still
    false.  After the write of [writeWorkerResult], whatever the worker
    function returned, [isFinished] is true, neither listing has [id], and
    the queue is as it was at the start. *)
Theorem task_lifecycle
    (s : Redis) (id : string) (priority : Z) (result : option V)
    (err : option string) :
  exact_score priority →
  (id ∉ inProgress s) → ¬ resolved s id → queue s !! id = None →
  (∀ id' p', queue s !! id' = Some p' →
             entry_le (id, priority) (id', p') = true) →
  let s1 := (enqueue s id priority).2 in
  let s2 := (checkForWork s1).2 in
  let s3 := (dequeue s2).2 in
  let s4 := write_exec id (worker_record result err) s3 in
  (id ∈ inQueue s1 0 ∧ (id ∉ inProgress_ids s1) ∧ isFinished s1 id = false)
  ∧ (checkForWork s1).1 = true
  ∧ workReady s2 = tail (workReady s ++ ["W"])%list
  ∧ (dequeue s2).1
    = (Some (mkTask id priority), Z.of_nat (size (queue s)), None)
  ∧ ((id ∉ inQueue s3 0) ∧ id ∈ inProgress_ids s3 ∧ isFinished s3 id = false)
  ∧ ((id ∉ inQueue s4 0) ∧ (id ∉ inProgress_ids s4) ∧ isFinished s4 id = true)
  ∧ queue s4 = queue s.
Proof.
  intros Hexact Hn Hr Hq Hmin s1 s2 s3 s4.
  assert (s1 = enqueue_save id priority s) as Hs1.
  { subst s1. unfold enqueue. simpl.
    assert (enq_saveId (enqueue_check s id) priority = true) as ->; [|done].
    apply enq_saveId_spec. split_and!; [done..|]. intros old Ho. congruence. }
  assert (s2 = {| queue := <[id := priority]> (queue s);
                  workReady := tail (workReady s ++ ["W"])%list;
                  inProgress := inProgress s; results := results s;
                  errors := errors s; chan := chan s; now := now s |}) as Hs2.
  { subst s2. rewrite Hs1. unfold checkForWork, BLPOP, enqueue_save. simpl.
    rewrite (to_double_exact _ Hexact). by destruct (workReady s). }
  assert (zfirst (queue s2) = Some (id, priority)) as Hz.
  { rewrite Hs2. simpl. apply zfirst_unique; [apply lookup_insert_eq|].
    intros id' p'. destruct (decide (id' = id)) as [->|Hne].
    - rewrite lookup_insert_eq. intros [= <-]. apply entry_le_refl.
    - rewrite lookup_insert_ne by done. apply Hmin. }
  destruct (dequeue_first s2 id priority Hexact Hz)
    as (s3' & Hdeq & Hq3 & Hin3 & [= Hw3 Hres3 Herr3 Hch3 Hnow3]).
  assert (s3 = s3') as Hs3 by (subst s3; by rewrite Hdeq).
  assert (queue s3 = queue s) as Hq3'.
  { rewrite Hs3, Hq3, Hs2. simpl. by apply delete_insert_id. }
  assert (¬ resolved s1 id) as Hr1.
  { rewrite Hs1. by rewrite (resolved_frame s). }
  assert (¬ resolved s3 id) as Hr3.
  { rewrite (resolved_frame s2); [|by rewrite Hs3..].
    rewrite Hs2. by rewrite (resolved_frame s). }
  split; [|split; [|split; [|split; [|split; [|split]]]]].
  - split; [|split].
    + apply inQueue_all. rewrite Hs1. simpl. rewrite lookup_insert_eq. by eexists.
    + unfold inProgress_ids. rewrite elem_of_elements, Hs1. done.
    + apply not_true_is_false. by rewrite isFinished_spec.
  - done.
  - by rewrite Hs2.
  - rewrite Hdeq. simpl. do 2 f_equal. rewrite <-Hs3, Hq3'. done.
  - split; [|split].
    + rewrite inQueue_all, Hq3', Hq. by intros [? [=]].
    + unfold inProgress_ids. rewrite elem_of_elements, Hs3, Hin3.
      apply elem_of_union. left. by apply elem_of_singleton.
    + apply not_true_is_false. by rewrite isFinished_spec.
  - destruct (write_exec_any id (worker_record result err) s3)
      as (_ & Hin4 & Hq4 & _).
    split; [|split].
    + subst s4. rewrite inQueue_all, Hq4, Hq3', Hq. by intros [? [=]].
    + subst s4. unfold inProgress_ids. rewrite elem_of_elements, Hin4.
      intros [_ Hx]%elem_of_difference. apply Hx. by apply elem_of_singleton.
    + apply write_exec_finished.
  - subst s4. by rewrite queue_write_exec.
Qed.

End Lifecycle.

Lemma task_lifecycle_witness :
  let s1 := (enqueue queued_a3_b1_c2 "x" 0).2 in
  let s3 := (dequeue (checkForWork s1).2).2 in
  inQueue s1 0 = ["x"; "b"; "c"; "a"]
  ∧ (dequeue (checkForWork s1).2).1 = (Some (mkTask "x" 0), 3%Z, None)
  ∧ inProgress_ids s3 = ["x"]
  ∧ isFinished (write_exec "x"
                  (worker_record (codec := stringCodec) (Some "pixels") None) s3)
      "x" = true.
Proof.
  intros s1 s3.
  assert ("x" ∉ inProgress queued_a3_b1_c2) as Hn.
  { apply (bool_decide_unpack _). by vm_compute. }
  assert (¬ resolved queued_a3_b1_c2 "x") as Hr.
  { intros [[? H]|[? H]]; vm_compute in H; discriminate H. }
  assert (queue queued_a3_b1_c2 !! "x" = None) as Hq by by vm_compute.
  assert (∀ id' p', queue queued_a3_b1_c2 !! id' = Some p' →
                    entry_le ("x", 0%Z) (id', p') = true) as Hmin.
  { assert (zfirst (queue queued_a3_b1_c2) = Some ("b", 1%Z)) as Hz by by vm_compute.
    apply zfirst_Some in Hz as [_ Hz]. intros id' p' Hl.
    apply (entry_le_trans _ ("b", 1%Z)); [by vm_compute|by apply Hz]. }
  assert (exact_score 0) as Hexact by (unfold exact_score; lia).
  destruct (task_lifecycle (codec := stringCodec) queued_a3_b1_c2 "x" 0
              (Some "pixels") None Hexact Hn Hr Hq Hmin)
    as (_ & _ & _ & Hdeq & _ & (_ & _ & Hfin) & _).
  split; [|split; [|split]].
  - by vm_compute.
  - exact Hdeq.
  - by vm_compute.
  - exact Hfin.
Defined.

(** ** Interleavings: no wake-up without a record *)

Section WakeUps.
Context {V : Type} `{codec : LRUCodec V}.
Variable worker : Z → string → callOutcome V.

Lemma recorded_write_exec (x id : string) (rec : writeKey * string * bool)
    (s : Redis) :
  recorded x s → recorded x (write_exec id rec s).
Proof.
  destruct (write_exec_any id rec s) as (_ & _ & _ & _ & _ & _ & Hres & Herr).
  intros [?|?]; [left; by apply Hres|right; by apply Herr].
Qed.

Lemma recorded_write_exec_ne (x id : string) (rec : writeKey * string * bool)
    (s : Redis) :
  id ≠ x → recorded x (write_exec id rec s) → recorded x s.
Proof.
  intros Hne. unfold recorded.
  destruct rec as [[[] data] []]; simpl;
    rewrite ?lookup_alter_ne, ?lookup_insert_ne by done; done.
Qed.

Lemma recorded_finished (x : string) (s : Redis) :
  isFinished s x = true → recorded x s.
Proof.
  intros [[b Hb]|[e He]]%isFinished_spec; [left; by exists b|right].
  unfold GET_errorKey in He. destruct (errors s !! x); [by eexists|done].
Qed.

Lemma recorded_step (x : string) (a : action) (y y' : @Sys V) :
  exec worker a y = Some y' → recorded x (store y) → recorded x (store y').
Proof.
  intros Hexec Hr.
  destruct (exec_records worker a y y' Hexec)
    as [[Hres Herr]|(w & id & rec & _ & _ & ->)].
  - unfold recorded. by rewrite Hres, Herr.
  - by apply recorded_write_exec.
Qed.

Lemma calls_for_log_call_le (x : string) (t : workerTask) (y : @Sys V) :
  (calls_for x y ≤ calls_for x (log_call t y))%nat
  ∧ (task_id t = x → (0 < calls_for x (log_call t y))%nat).
Proof.
  unfold calls_for, log_call. simpl. rewrite filter_app, length_app. split; [lia|].
  intros Heq. rewrite filter_cons_True by done. simpl. lia.
Qed.

Lemma written_after_call_step (x : string) (s0 : Redis) (a : action)
    (y y' : @Sys V) :
  exec worker a y = Some y' →
  written_after_call x s0 y → written_after_call x s0 y'.
Proof.
  intros Hexec [Hr Hw]. unfold exec in Hexec.
  destruct (panicked y); [done|]. destruct a as [c|i| |w|w| |id| | |d].
  - injection Hexec as <-. by constructor.
  - apply caller_step_inv in Hexec as (c & pc & Hl & Hstep).
    by destruct pc as [| | | | | |ret err];
      [subst y'|subst y'|subst y'|destruct Hstep as [_ ->]
      |destruct Hstep as [_ ->]|subst y'|done]; constructor.
  - apply sched_step_inv in Hexec.
    destruct (sched y) as [| |id p card|t hm] eqn:Hsch.
    + subst y'. constructor; [|done]. simpl. unfold recorded, BLPOP.
      by destruct (workReady (store y)).
    + destruct Hexec as [[_ ->]|[(id & p & s1 & Hz & Hs1 & ->)
                                |(id & p & s1 & Hz & _ & Hs1 & ->)]];
        [by constructor|..].
      all: destruct (dequeue_pop_first _ _ _ Hz)
             as (s1' & Hp & _ & [= ? ? Hres Herr ? ?]).
      all: rewrite Hp in Hs1; simpl in Hs1; subst s1'.
      all: constructor; [|done]; simpl; unfold recorded; rewrite Hres, Herr.
      all: exact Hr.
    + subst y'. by constructor.
    + done.
  - apply handoff_step_inv in Hexec as (t & hm & Hsch & Hwl & ->).
    constructor; [done|]. simpl. intros w' rec.
    destruct (decide (w' = w)) as [->|Hne].
    + by rewrite list_lookup_insert_eq by by eapply lookup_lt_Some.
    + rewrite list_lookup_insert_ne by done. apply Hw.
  - apply worker_step_inv in Hexec as [(t & Hwl & Hcall)|(id & rec & Hwl & ->)].
    + destruct (calls_for_log_call_le x t y) as [Hle Hpos].
      assert (∀ y1 : @Sys V, store y1 = store y →
                calls_for x y1 = calls_for x (log_call t y) →
                (∀ w' rec, workers y1 !! w' = Some (WWrite x rec) →
                           workers y !! w' = Some (WWrite x rec)
                           ∨ task_id t = x) →
                written_after_call x s0 y1) as Hgen.
      { intros y1 Hst Hcf Hws. constructor.
        - rewrite Hst, Hcf. intros [?|?]%Hr; [by left|right; lia].
        - intros w' rec [Hold|Heq]%Hws; rewrite Hcf.
          + specialize (Hw _ _ Hold). lia.
          + by apply Hpos. }
      destruct (worker _ _); subst y'; apply Hgen; try done.
      * simpl. intros w' rec. destruct (decide (w' = w)) as [->|Hne].
        -- rewrite list_lookup_insert_eq by by eapply lookup_lt_Some.
           intros [= -> _]. by right.
        -- rewrite list_lookup_insert_ne by done. by left.
      * simpl. by left.
    + constructor; simpl.
      * destruct (decide (id = x)) as [->|Hne].
        -- intros _. right. by eapply Hw.
        -- intros Hrec%recorded_write_exec_ne; [by apply Hr|done].
      * intros w' rec'. destruct (decide (w' = w)) as [->|Hne].
        -- by rewrite list_lookup_insert_eq by by eapply lookup_lt_Some.
        -- rewrite list_lookup_insert_ne by done. apply Hw.
  - apply notifier_receive_inv in Hexec as (_ & m & rest & Hch & ->).
    by case_bool_decide; constructor.
  - apply notifier_visit_inv in Hexec as (_ & ->). by constructor.
  - injection Hexec as <-. by constructor.
  - destruct (chan (store y)); [done|]. injection Hexec as <-. by constructor.
  - case_bool_decide; [|done]. injection Hexec as <-. by constructor.
Qed.

(** X17.  No caller is woken for nothing.  In a process that starts with
    no message pending on its subscription, whenever the notifier has
    sent on the channel of a caller that asked for [x], a record for [x]
    has been written (a result record, or an error record, which may
    have expired since); and unless that record was in the store when the
    process started, the worker function was called for [x] in this
    process before.  The same holds for a caller that is about to read
    the store again after being woken. *)
Theorem woken_only_after_a_record
    (s0 : Redis) (nWorkers : nat) (tr : list action) (y : @Sys V)
    (x : string) (i : nat) (c : call) (pc : callerPc) :
  chan s0 = [] →
  run worker tr (init s0 nWorkers) = Some y →
  callers y !! i = Some (mkCaller c pc) →
  call_id c = x →
  i ∈ delivered (notifier y) ∨ pc = AtRecheck →
  recorded x (store y) ∧ (recorded x s0 ∨ (0 < calls_for x y)%nat).
Proof.
  intros Hch Hrun Hi Hx Hwoken.
  assert (watching x (recorded x) y ∧ written_after_call x s0 y) as [Hy Hc].
  { apply (run_invariant worker
             (λ y, watching x (recorded x) y ∧ written_after_call x s0 y))
      with (tr := tr) (y := init s0 nWorkers); [|done|].
    - intros a y1 y2 Hexec [Hy1 Hc1]. split.
      + apply (watching_step worker x (recorded x) a y1 y2 Hexec); [| | |done].
        * by apply (recorded_step x a).
        * apply recorded_finished.
        * intros w rec _.
          destruct (write_exec_any x rec (store y1)) as (_ & _ & _ & _ & _ & H & _).
          exact H.
      + by apply (written_after_call_step x s0 a y1).
    - split.
      + constructor; simpl.
        * rewrite Hch. by intros ?%elem_of_nil.
        * by intros j ?%elem_of_empty.
        * by intros j c' pc' ?%elem_of_empty.
        * intros id chs j Hl. simpl in Hl. by rewrite lookup_empty in Hl.
        * intros j c' Hl. by rewrite lookup_nil in Hl.
      + constructor; simpl.
        * by left.
        * intros w rec [[=] _]%lookup_replicate. }
  assert (recorded x (store y)) as Hrec.
  { destruct Hwoken as [Hd| ->].
    - by apply (w_delivered x (recorded x) y Hy i c pc).
    - by apply (w_recheck x (recorded x) y Hy i c). }
  split; [done|]. by apply (c_recorded x s0 y Hc).
Qed.

End WakeUps.

Lemma woken_only_after_a_record_witness :
  ∃ y, run (codec := stringCodec) priorityWorker lost_message_then_reconnect
         (init emptyRedis 1) = Some y
     ∧ 0%nat ∈ delivered (notifier y)
     ∧ recorded "x" (store y)
     ∧ (0 < calls_for "x" y)%nat.
Proof.
  assert (∃ y0 pc, run (codec := stringCodec) priorityWorker
                     lost_message_then_reconnect (init emptyRedis 1) = Some y0
                   ∧ callers y0 !! 0%nat = Some (mkCaller (CallGet 1 false "x") pc)
                   ∧ bool_decide (0%nat ∈ delivered (notifier y0)) = true
                   ∧ results emptyRedis !! "x" = None
                   ∧ errors emptyRedis !! "x" = None)
    as (y0 & pc & Hrun & Hi & Hd%bool_decide_eq_true & Hr0 & He0).
  { eexists _, _. repeat (split; [by vm_compute|]). by vm_compute. }
  destruct (woken_only_after_a_record (codec := stringCodec) priorityWorker
              emptyRedis 1 lost_message_then_reconnect y0 "x" 0%nat
              (CallGet 1 false "x") pc eq_refl Hrun Hi eq_refl (or_introl Hd))
    as [Hrec [[[? H]|[? H]]|Hcalls]].
  - rewrite Hr0 in H. discriminate H.
  - rewrite He0 in H. discriminate H.
  - exists y0. split_and!; [exact Hrun|exact Hd|exact Hrec|exact Hcalls].
Defined.

(** ** A caller that is woken late *)

Section LateWakeUp.
Context {V : Type} `{codec : LRUCodec V}.
Variable worker : Z → string → callOutcome V.

(** X18.  The error of a computation reaches only the callers that read
    the store within 10 seconds of the worker's write.  A caller that was
    blocked for [id], which has no result record, and reads the store
    again within that time returns the worker's error.  One that reads it
    later, because it was woken late, finds no record and returns the
    error that the result could not be retrieved; and from then on
    [isFinished] is false for [id], so the notifier, when it goes through
    its subscriptions after a reconnect, leaves the channels filed under
    [id] as they are and wakes nobody for it. *)
Theorem error_is_lost_to_late_callers
    (s : Redis) (priority : Z) (id : string) (result : option V) (e : string) :
  worker priority id = Returns result (Some e) →
  GET_key s id = None →
  ∃ s', writeWorkerResult worker s priority id = Some s'
    ∧ (∀ d returnBytes, (0 ≤ d < 10)%Z →
         Get_resume (tick d s') returnBytes id
         = (None, Some ("For " +:+ id +:+ " we received error: " +:+ e))
         ∧ isFinished (tick d s') id = true)
    ∧ (∀ d returnBytes, (10 ≤ d)%Z →
         Get_resume (tick d s') returnBytes id
         = (None, Some ("Unable to retrieve result for id: " +:+ id))
         ∧ isFinished (tick d s') id = false
         ∧ ∀ n, notifyAll_visit (tick d s') id n = n).
Proof.
  intros Hw Hk. eexists. split.
  { unfold writeWorkerResult. rewrite Hw. reflexivity. }
  simpl worker_record.
  destruct (write_exec_error id e s) as (He & _).
  assert (results (write_exec id (WriteErrorKey, e, true) s) = results s)
    as Hres by done.
  assert (now (write_exec id (WriteErrorKey, e, true) s) = now s) as Hnow by done.
  remember (write_exec id (WriteErrorKey, e, true) s) as s' eqn:Hs' in *.
  clear Hs'.
  assert (∀ d, GET_key (tick d s') id = None) as Hkey.
  { intros d. unfold GET_key. simpl. by rewrite Hres. }
  split.
  - intros d rb Hd.
    assert (GET_errorKey (tick d s') id = Some e) as Hlive.
    { erewrite GET_errorKey_live; [|exact He].
      simpl. rewrite Hnow, bool_decide_eq_true_2; [done|lia]. }
    split.
    + unfold Get_resume, waitFor_result.
      by rewrite (getResultErr_error _ _ e rb Hlive).
    + apply isFinished_spec. right. by exists e.
  - intros d rb Hd.
    assert (GET_errorKey (tick d s') id = None) as Hgone.
    { erewrite GET_errorKey_live; [|exact He].
      simpl. rewrite Hnow, bool_decide_eq_false_2; [done|lia]. }
    assert (isFinished (tick d s') id = false) as Hfin.
    { apply not_true_is_false. rewrite isFinished_spec.
      intros [[? Hx]|[? Hx]]; [rewrite Hkey in Hx|rewrite Hgone in Hx]; done. }
    split_and!.
    + unfold Get_resume, waitFor_result.
      by rewrite (getResultErr_miss _ _ rb Hgone (Hkey d)).
    + exact Hfin.
    + intros n. unfold notifyAll_visit. by rewrite Hfin.
Qed.

End LateWakeUp.

Lemma error_is_lost_to_late_callers_witness :
  ∃ s', writeWorkerResult (codec := stringCodec) pickyWorker x_in_progress 4 "bad"
        = Some s'
      ∧ Get_resume (codec := stringCodec) (tick 3 s') false "bad"
        = (None, Some "For bad we received error: no such digest")
      ∧ Get_resume (codec := stringCodec) (tick 10 s') false "bad"
        = (None, Some "Unable to retrieve result for id: bad").
Proof.
  destruct (error_is_lost_to_late_callers (codec := stringCodec) pickyWorker
              x_in_progress 4 "bad" None "no such digest" eq_refl eq_refl)
    as (s' & Hw & Hlive & Hgone).
  exists s'. split_and!; [exact Hw| |].
  - apply (Hlive 3%Z false). lia.
  - apply (Hgone 10%Z false). lia.
Defined.

(** ** Interleavings: every caller can be served *)

Section Progress.
Context {V : Type} `{codec : LRUCodec V}.
Variable worker : Z → string → callOutcome V.
Variable x : string.
Variable P : V.
Variable b : string.
Hypothesis worker_returns : ∀ priority, worker priority x = Returns (Some P) None.
Hypothesis encodes : Encode (Some P) = (b, None).
Hypothesis decodes : Decode b = (Some P, None).
Local Abbreviation payload := (@payload V P b).
Local Abbreviation fresh := (fresh x b).
Local Abbreviation has_payload := (has_payload x b).
Local Abbreviation serving := (@serving V x P b).
Local Abbreviation for_one_id := (@for_one_id V x b).
Local Abbreviation wake_up_ahead := (@wake_up_ahead V x b).
Local Abbreviation on_track := (@on_track V x P b).
Local Abbreviation all_woken := (@all_woken V x P b).
Local Abbreviation reach := (reach worker).

(** The record of [x] stays. *)
Lemma has_payload_step (a : action) (y y' : @Sys V) :
  exec worker a y = Some y' → serving y → for_one_id y →
  has_payload (store y) → has_payload (store y').
Proof.
  intros Hexec Hs Ho Hp. unfold has_payload in *.
  destruct (exec_records worker a y y' Hexec)
    as [[-> _]|(w & id & rec & _ & Hw & ->)]; [done|].
  pose proof (o_workers x b y Ho w _ Hw) as Hid. simpl in Hid. subst id.
  rewrite (s_workers x P b y Hs w rec Hw). simpl. by rewrite lookup_insert_eq.
Qed.

Lemma fresh_resolved (s : Redis) : fresh s → resolved s x → has_payload s.
Proof.
  intros Hf Hr. apply (fresh_finished x b s Hf). by apply isFinished_spec.
Qed.

Lemma has_payload_finished (s : Redis) : has_payload s → isFinished s x = true.
Proof.
  intros Hp. apply isFinished_spec. left. unfold GET_key. rewrite Hp. by eexists.
Qed.

(** What the dequeue loop pops is a task for [x] that [redis.Int64]
    reads. *)
Lemma for_one_id_first (y : @Sys V) (id : string) (p : Z) :
  for_one_id y → zfirst (queue (store y)) = Some (id, p) →
  id = x ∧ exact_score p ∧ Int64_reply p = Some p.
Proof.
  intros Ho [Hq _]%zfirst_Some.
  destruct (o_queue x b y Ho id p Hq) as [-> Hex].
  split_and!; [done..|]. by apply Int64_reply_exact.
Qed.

Lemma in_hand_pipeline (y : @Sys V) (id : string) : in_hand y id → in_pipeline y.
Proof.
  intros [(t & hm & Hs & _)|(w & [(t & Hw & _)|(rec & Hw)])].
  - right. right. left. by exists t, hm.
  - right. right. right. by exists w, (WCall t).
  - right. right. right. by exists w, (WWrite id rec).
Qed.

Lemma worker_pipeline (y : @Sys V) (w : nat) (pc : workerPc) :
  workers y !! w = Some pc → pc ≠ WReceive → in_pipeline y.
Proof. intros Hw Hne. right. right. right. by exists w, pc. Qed.

(** The record or a task on its way: once so, it stays so. *)
Lemma served_step (a : action) (y y' : @Sys V) :
  exec worker a y = Some y' → serving y → for_one_id y →
  has_payload (store y) ∨ in_pipeline y →
  has_payload (store y') ∨ in_pipeline y'.
Proof.
  intros Hexec Hs Ho [Hp|Hpipe].
  { left. by apply (has_payload_step a y). }
  pose proof Hexec as Hexec0.
  unfold exec in Hexec. destruct (panicked y); [done|].
  assert (∀ y1 : @Sys V, queue (store y1) = queue (store y) → sched y1 = sched y →
            workers y1 = workers y → in_pipeline y1) as Hsame.
  { intros y1 Hq Hsc Hw. unfold in_pipeline. by rewrite Hq, Hsc, Hw. }
  destruct a as [c|i| |w|w| |id| | |d].
  - injection Hexec as <-. right. by apply Hsame.
  - apply caller_step_inv in Hexec as (c & pc & Hl & Hstep). right.
    destruct pc as [| | | | | |ret err];
      [subst y'|subst y'|subst y'|destruct Hstep as [_ ->]
      |destruct Hstep as [_ ->]|subst y'|done]; try by apply Hsame.
    left. simpl. intros Hq. apply (f_equal (lookup (call_id c))) in Hq.
    by rewrite lookup_insert_eq, lookup_empty in Hq.
  - apply sched_step_inv in Hexec. right.
    unfold in_pipeline in Hpipe.
    destruct (sched y) as [| |id p card|t hm] eqn:Hsch.
    + subst y'. destruct Hpipe as [Hq|[(? & ? & ? & [=])|[(? & ? & [=])|Hw]]].
      * left. simpl. by rewrite queue_BLPOP.
      * right. right. right. exact Hw.
    + destruct Hexec as [[Hq ->]|[(id & p & s1 & Hz & Hs1 & ->)
                                 |(id & p & s1 & Hz & Hparse & _)]].
      * destruct Hpipe as [Hq'|[(? & ? & ? & [=])|[(? & ? & [=])|Hw]]]; [done|].
        right. right. right. exact Hw.
      * right. left. by eexists _, _, _.
      * destruct (for_one_id_first y id p Ho Hz) as (_ & _ & Hok). congruence.
    + subst y'. right. right. left. by eexists _, _.
    + done.
  - apply handoff_step_inv in Hexec as (t & hm & Hsch & Hwl & ->). right.
    apply (worker_pipeline _ w (WCall t)); [|done]. simpl.
    apply list_lookup_insert_eq. by eapply lookup_lt_Some.
  - apply worker_step_inv in Hexec as [(t & Hwl & Hcall)|(id & rec & Hwl & ->)].
    + pose proof (o_workers x b y Ho w _ Hwl) as Hid. simpl in Hid.
      rewrite Hid, worker_returns in Hcall. subst y'. right.
      apply (worker_pipeline _ w (WWrite x (worker_record (Some P) None)));
        [|done].
      simpl. apply list_lookup_insert_eq. by eapply lookup_lt_Some.
    + left. pose proof (o_workers x b y Ho w _ Hwl) as Hid. simpl in Hid.
      subst id. rewrite (s_workers x P b y Hs w rec Hwl). simpl.
      unfold has_payload. simpl. by rewrite lookup_insert_eq.
  - apply notifier_receive_inv in Hexec as (_ & m & rest & Hch & ->). right.
    by case_bool_decide; apply Hsame.
  - apply notifier_visit_inv in Hexec as (_ & ->). right. by apply Hsame.
  - injection Hexec as <-. right. by apply Hsame.
  - destruct (chan (store y)); [done|]. injection Hexec as <-. right.
    by apply Hsame.
  - case_bool_decide; [|done]. injection Hexec as <-. right. by apply Hsame.
Qed.

Lemma queue_nonempty (q : gmap string Z) (id : string) (p : Z) :
  q !! id = Some p → q ≠ ∅.
Proof. intros Hq ->. by rewrite lookup_empty in Hq. Qed.

(** A caller that gets past [enqueue] leaves the record or a task on its
    way behind it. *)
Lemma waiting_step (a : action) (y y' : @Sys V) :
  exec worker a y = Some y' → serving y → for_one_id y →
  ∀ i c pc, callers y' !! i = Some (mkCaller c pc) → past_enqueue pc →
    has_payload (store y') ∨ in_pipeline y'.
Proof.
  intros Hexec Hs Ho i c pc Hl Hpast.
  pose proof (served_step a y y' Hexec Hs Ho) as Hstable.
  destruct (exec_callers worker a y y' Hexec)
    as [Hc|[(c' & -> & Hc)|(j & c' & pc0 & pc1 & -> & Hj & Hc)]].
  - rewrite Hc in Hl. exact (Hstable (o_waiting x b y Ho i c pc Hl Hpast)).
  - rewrite Hc in Hl. apply lookup_app_Some in Hl as [Hl|[_ Hl]].
    + exact (Hstable (o_waiting x b y Ho i c pc Hl Hpast)).
    + apply list_lookup_singleton_Some in Hl as [_ [= <- <-]]. done.
  - destruct (decide (i = j)) as [->|Hne].
    2: { rewrite Hc, list_lookup_insert_ne in Hl by done.
         exact (Hstable (o_waiting x b y Ho i c pc Hl Hpast)). }
    assert (j < length (callers y))%nat as Hlt by by eapply lookup_lt_Some.
    rewrite Hc, list_lookup_insert_eq in Hl by done. injection Hl as <- <-.
    destruct (o_callers x b y Ho j c' pc0 Hj) as [Hid Hex].
    unfold exec in Hexec. destruct (panicked y); [done|].
    apply caller_step_inv in Hexec as (c2 & pc2 & Hl2 & Hstep).
    rewrite Hj in Hl2. injection Hl2 as <- <-.
    assert (past_enqueue pc0 → has_payload (store y') ∨ in_pipeline y') as Hold.
    { intros Hp0. exact (Hstable (o_waiting x b y Ho j c' pc0 Hj Hp0)). }
    destruct pc0 as [| | | | | |ret err]; [| | |by apply Hold..].
    + subst y'. simpl in Hc. simpl.
      apply (f_equal (λ l, l !! j)) in Hc.
      rewrite !list_lookup_insert_eq in Hc by done. injection Hc as Hpc.
      rewrite Hid in Hpc.
      destruct (fresh_getResultErr x P b decodes (store y) (call_returnBytes c')
                  (s_store x P b y Hs)) as [[_ Hr]|[Hr _]].
      * rewrite Hr in Hpc. simpl in Hpc. by subst pc1.
      * by left.
    + subst y'. simpl in Hc. simpl.
      apply (f_equal (λ l, l !! j)) in Hc.
      rewrite !list_lookup_insert_eq in Hc by done. injection Hc as Hpc.
      unfold after_check in Hpc.
      destruct (enq_saveId _ _) eqn:Hsave; [by subst pc1|].
      destruct (s_store x P b y Hs) as [He [Hr|Hr]]; [|by left]. right.
      rewrite Hid in Hsave.
      destruct (decide (x ∈ inProgress (store y))) as [Hin|Hnin].
      { by apply (in_hand_pipeline y x), (o_in_hand x b y Ho). }
      destruct (queue (store y) !! x) as [old|] eqn:Hq.
      { left. by eapply queue_nonempty. }
      assert (enq_saveId (enqueue_check (store y) x) (call_priority c') = true)
        as Hyes; [|congruence].
      apply enq_saveId_spec. split_and!; [done| |].
      * intros Hres. apply (fresh_resolved (store y) (s_store x P b y Hs)) in Hres.
        unfold has_payload in Hres. congruence.
      * intros old. by rewrite Hq.
    + subst y'. right. left. simpl.
      apply (queue_nonempty _ (call_id c') (to_double (call_priority c'))).
      apply lookup_insert_eq.
Qed.

Lemma for_one_id_step (a : action) (y y' : @Sys V) :
  (∀ c, a = ACall c → call_id c = x ∧ exact_score (call_priority c)) →
  exec worker a y = Some y' → serving y → for_one_id y → for_one_id y'.
Proof.
  intros Hcall Hexec Hs Ho.
  assert (∀ i c pc, callers y' !! i = Some (mkCaller c pc) →
            call_id c = x ∧ exact_score (call_priority c)) as Hcallers.
  { intros i c pc.
    destruct (exec_callers worker a y y' Hexec)
      as [->|[(c' & -> & ->)|(j & c' & pc0 & pc1 & -> & Hj & ->)]].
    - apply (o_callers x b y Ho).
    - intros [Hl|[_ Hl]]%lookup_app_Some; [by eapply (o_callers x b y Ho)|].
      apply list_lookup_singleton_Some in Hl as [_ [= <- <-]]. by apply Hcall.
    - intros [(_ & [= <- <-] & _)|[_ Hl]]%list_lookup_insert_Some;
        by eapply (o_callers x b y Ho). }
  assert (∀ id score, queue (store y') !! id = Some score →
            id = x ∧ exact_score score) as Hqueue.
  { intros id score.
    destruct (exec_queue worker a y y' Hexec)
      as [->|[(i & c & _ & Hl & ->)|(id' & p & _ & _ & _ & ->)]].
    - apply (o_queue x b y Ho).
    - destruct (o_callers x b y Ho i c _ Hl) as [Hid Hex].
      intros [[<- <-]|[_ Hq]]%lookup_insert_Some.
      + by rewrite to_double_exact.
      + by apply (o_queue x b y Ho).
    - intros [_ Hq]%lookup_delete_Some. by apply (o_queue x b y Ho). }
  pose proof (in_hand_step worker a y y' Hexec (o_in_hand x b y Ho)) as Hhand.
  pose proof (waiting_step a y y' Hexec Hs Ho) as Hwait.
  destruct Ho as [Halive Haw _ Hq0 Hsch Hw _ _].
  unfold exec in Hexec. rewrite Halive in Hexec.
  destruct a as [c|i| |w|w| |id| | |d].
  - injection Hexec as <-. by constructor.
  - apply caller_step_inv in Hexec as (c & pc & Hl & Hstep).
    destruct pc as [| | | | | |ret err];
      [subst y'|subst y'|subst y'|destruct Hstep as [_ ->]
      |destruct Hstep as [_ ->]|subst y'|done]; by constructor.
  - apply sched_step_inv in Hexec.
    destruct (sched y) as [| |id p card|t hm] eqn:Hsch'.
    + subst y'. by constructor.
    + destruct Hexec as [[_ ->]|[(id & p & s1 & Hz & Hs1 & ->)
                                |(id & p & s1 & Hz & Hparse & Hs1 & ->)]];
        constructor; try done.
      simpl. apply zfirst_Some in Hz as [Hq _].
      by destruct (Hq0 id p Hq).
    + subst y'. by constructor.
    + done.
  - apply handoff_step_inv in Hexec as (t & hm & Hsch' & Hwl & ->).
    rewrite Hsch' in Hsch. constructor; try done; simpl.
    + by rewrite length_insert.
    + by destruct hm.
    + intros w' pc [(_ & <- & _)|[_ Hl]]%list_lookup_insert_Some; [done|].
      by apply (Hw w').
  - apply worker_step_inv in Hexec as [(t & Hwl & Hres)|(id & rec & Hwl & ->)].
    + pose proof (Hw w _ Hwl) as Hid. simpl in Hid.
      rewrite Hid, worker_returns in Hres. subst y'.
      constructor; try done; simpl.
      * by rewrite length_insert.
      * intros w' pc [(_ & <- & _)|[_ Hl]]%list_lookup_insert_Some; [done|].
        by apply (Hw w').
    + constructor; try done; simpl.
      * by rewrite length_insert.
      * intros w' pc [(_ & <- & _)|[_ Hl]]%list_lookup_insert_Some; [done|].
        by apply (Hw w').
  - apply notifier_receive_inv in Hexec as (_ & m & rest & Hch & ->).
    by case_bool_decide; constructor.
  - apply notifier_visit_inv in Hexec as (_ & ->). by constructor.
  - injection Hexec as <-. by constructor.
  - destruct (chan (store y)); [done|]. injection Hexec as <-. by constructor.
  - case_bool_decide; [|done]. injection Hexec as <-. by constructor.
Qed.

Lemma wake_up_same (y y' : @Sys V) :
  results (store y') = results (store y) → chan (store y') = chan (store y) →
  notifier y' = notifier y → sweeping y' = sweeping y →
  wake_up_ahead y → wake_up_ahead y'.
Proof.
  unfold wake_up_ahead, has_payload.
  by intros -> -> -> ->.
Qed.

Lemma notifyChannels_watch (id id' : string) (n : Notifier) :
  watchIds (notifyChannels id n) !! id'
  = if decide (id = id') then None else watchIds n !! id'.
Proof.
  simpl. destruct (decide (id = id')) as [->|Hne].
  - apply lookup_delete_eq.
  - by apply lookup_delete_ne.
Qed.

(** Unless a message is lost, the wake-up of a filed channel stays
    ahead. *)
Lemma wake_up_step (a : action) (y y' : @Sys V) :
  a ≠ ADrop →
  exec worker a y = Some y' → serving y → for_one_id y →
  wake_up_ahead y → wake_up_ahead y'.
Proof.
  intros Hdrop Hexec Hs Ho Hwu.
  unfold exec in Hexec. destruct (panicked y); [done|].
  destruct a as [c|i| |w|w| |id| | |d].
  - injection Hexec as <-. by apply (wake_up_same y).
  - apply caller_step_inv in Hexec as (c & pc & Hl & Hstep).
    destruct (o_callers x b y Ho i c pc Hl) as [Hid _].
    destruct pc as [| | | | | |ret err];
      [subst y'|subst y'|subst y'|destruct Hstep as [_ ->]
      |destruct Hstep as [_ ->]|subst y'|done]; try by apply (wake_up_same y).
    intros Hp Hsome. exfalso.
    change (has_payload (store y)) in Hp.
    change (is_Some (watchIds (on_subscription (store y) (mkSub (call_id c) i)
                                 (notifier y)) !! x)) in Hsome.
    unfold on_subscription in Hsome. cbn [sub_id sub_notifyCh] in Hsome.
    rewrite Hid, (has_payload_finished _ Hp), notifyChannels_watch in Hsome.
    rewrite decide_True in Hsome by done. by destruct Hsome.
  - apply sched_step_inv in Hexec.
    destruct (sched y) as [| |id p card|t hm] eqn:Hsch.
    + subst y'. apply (wake_up_same y); try done; simpl; unfold BLPOP;
        by destruct (workReady (store y)).
    + destruct Hexec as [[_ ->]|[(id & p & s1 & Hz & Hs1 & ->)
                                |(id & p & s1 & Hz & _ & Hs1 & ->)]];
        [by apply (wake_up_same y)|..];
        destruct (dequeue_pop_first _ _ _ Hz) as (s1' & Hp & _ & [= ? ? ? ? ? ?]);
        rewrite Hp in Hs1; simpl in Hs1; subst s1';
        by apply (wake_up_same y).
    + subst y'. by apply (wake_up_same y).
    + done.
  - apply handoff_step_inv in Hexec as (t & hm & _ & _ & ->).
    by apply (wake_up_same y).
  - apply worker_step_inv in Hexec as [(t & Hwl & Hres)|(id & rec & Hwl & ->)].
    + destruct (worker _ _); subst y'; by apply (wake_up_same y).
    + pose proof (o_workers x b y Ho w _ Hwl) as Hid. simpl in Hid. subst id.
      intros _ _. left. simpl.
      assert (chan (write_exec x rec (store y)) = (chan (store y) ++ [x])%list)
        as -> by by destruct rec as [[[] data] []].
      apply elem_of_app. right. by apply list_elem_of_singleton.
  - apply notifier_receive_inv in Hexec as (Hsw & m & rest & Hch & ->).
    unfold wake_up_ahead in Hwu. rewrite Hch, Hsw in Hwu.
    case_bool_decide as Hm; intros Hp Hsome.
    + right. right. by apply elem_of_dom.
    + change (is_Some (watchIds (notifyChannels m (notifier y)) !! x)) in Hsome.
      change (has_payload (store y)) in Hp.
      rewrite notifyChannels_watch in Hsome.
      destruct (decide (m = x)) as [->|Hne]; [by destruct Hsome|].
      simpl. rewrite Hch. simpl.
      destruct (Hwu Hp Hsome) as [Hin|[Hin|Hin]].
      * left. apply elem_of_cons in Hin as [->|Hin]; done.
      * right. left. apply elem_of_cons in Hin as [Hin|Hin]; done.
      * by apply elem_of_empty in Hin.
  - apply notifier_visit_inv in Hexec as (Hin & ->).
    intros Hp Hsome.
    change (is_Some (watchIds (notifyAll_visit (store y) id (notifier y)) !! x))
      in Hsome.
    change (has_payload (store y)) in Hp. unfold notifyAll_visit in Hsome.
    destruct (decide (id = x)) as [->|Hne].
    + rewrite (has_payload_finished _ Hp), notifyChannels_watch in Hsome.
      rewrite decide_True in Hsome by done. by destruct Hsome.
    + assert (is_Some (watchIds (notifier y) !! x)) as Hsome'.
      { destruct (isFinished (store y) id); [|done].
        rewrite notifyChannels_watch, decide_False in Hsome; done. }
      destruct (Hwu Hp Hsome') as [?|[?|?]]; [by left|by right; left|].
      right. right. simpl. apply elem_of_difference. split; [done|].
      by intros ->%elem_of_singleton.
  - injection Hexec as <-. intros _ _. right. left. simpl.
    apply elem_of_app. right. by apply list_elem_of_singleton.
  - done.
  - case_bool_decide; [|done]. injection Hexec as <-. by apply (wake_up_same y).
Qed.

Lemma on_track_step (a : action) (y y' : @Sys V) :
  a ≠ ADrop →
  (∀ c, a = ACall c → call_id c = x ∧ exact_score (call_priority c)) →
  exec worker a y = Some y' → on_track y → on_track y'.
Proof.
  intros Hdrop Hcall Hexec [Hs Ho Hc Hw]. constructor.
  - by apply (serving_step worker x P b worker_returns encodes decodes a y).
  - by apply (for_one_id_step a y).
  - by apply (channels_ok_step worker a y).
  - by apply (wake_up_step a y).
Qed.

Lemma goroutine_step_on_track (a : action) (y y' : @Sys V) :
  goroutine_step a → exec worker a y = Some y' → on_track y → on_track y'.
Proof.
  intros Ha. apply on_track_step; [by intros ->|by intros c ->].
Qed.

(** *** Runs of goroutine steps *)

Lemma run_app (tr1 tr2 : list action) (y : @Sys V) :
  run worker (tr1 ++ tr2) y = run worker tr1 y ≫= run worker tr2.
Proof.
  revert y. induction tr1 as [|a tr1 IH]; intros y; simpl; [done|].
  by destruct (exec worker a y).
Qed.

Lemma reach_refl (y : @Sys V) : reach y y.
Proof. by exists []. Qed.

Lemma reach_step (a : action) (y y' : @Sys V) :
  goroutine_step a → exec worker a y = Some y' → reach y y'.
Proof.
  intros Ha Hexec. exists [a]. split; [by repeat constructor|].
  simpl. by rewrite Hexec.
Qed.

Lemma reach_trans (y1 y2 y3 : @Sys V) : reach y1 y2 → reach y2 y3 → reach y1 y3.
Proof.
  intros (tr1 & Hg1 & Hr1) (tr2 & Hg2 & Hr2). exists (tr1 ++ tr2)%list.
  split; [by apply Forall_app|]. by rewrite run_app, Hr1.
Qed.

Lemma reach_invariant (I : @Sys V → Prop) :
  (∀ a y y', goroutine_step a → exec worker a y = Some y' → I y → I y') →
  ∀ y y', reach y y' → I y → I y'.
Proof.
  intros Hstep y y' (tr & Hg & Hrun). revert y Hrun.
  induction Hg as [|a tr Ha Hg IH]; intros y Hrun Hy; simpl in Hrun.
  - by injection Hrun as <-.
  - destruct (exec worker a y) as [y1|] eqn:He; [|done]. eauto.
Qed.

Lemma reach_on_track (y y' : @Sys V) : reach y y' → on_track y → on_track y'.
Proof. apply reach_invariant, goroutine_step_on_track. Qed.

Lemma reach_payload (y y' : @Sys V) :
  reach y y' → on_track y → has_payload (store y) → has_payload (store y').
Proof.
  intros Hr Ht Hp.
  apply (reach_invariant (λ y1, on_track y1 ∧ has_payload (store y1)))
    with (y' := y') in Hr as [_ ?]; [done| |done].
  intros a y1 y2 Ha Hexec [Ht1 Hp1].
  split; [by apply (goroutine_step_on_track a y1)|].
  by apply (has_payload_step a y1); [|apply Ht1|apply Ht1|].
Qed.

(** The goroutines add no caller, and a caller that returned stays
    so. *)
Lemma goroutine_step_callers (a : action) (y y' : @Sys V) :
  goroutine_step a → exec worker a y = Some y' →
  length (callers y') = length (callers y)
  ∧ ∀ i c pc, callers y !! i = Some (mkCaller c pc) →
      ∃ pc', callers y' !! i = Some (mkCaller c pc')
             ∧ ∀ ret err, pc = AtReturn ret err → pc' = pc.
Proof.
  intros Ha Hexec.
  destruct (exec_callers worker a y y' Hexec)
    as [Hc|[(c' & -> & Hc)|(j & c' & pc0 & pc1 & -> & Hj & Hc)]].
  - rewrite Hc. split; [done|]. intros i c pc Hl. by exists pc.
  - done.
  - rewrite Hc, length_insert. split; [done|]. intros i c pc Hl.
    destruct (decide (i = j)) as [->|Hne].
    + rewrite Hj in Hl. injection Hl as <- <-. exists pc1.
      split; [apply list_lookup_insert_eq; by eapply lookup_lt_Some|].
      intros ret err ->. unfold exec in Hexec.
      destruct (panicked y); [done|].
      apply caller_step_inv in Hexec as (c2 & pc2 & Hl2 & Hstep).
      rewrite Hj in Hl2. by injection Hl2 as <- <-.
    + exists pc. by rewrite list_lookup_insert_ne.
Qed.

Lemma reach_callers (y y' : @Sys V) :
  reach y y' →
  length (callers y') = length (callers y)
  ∧ ∀ i c pc, callers y !! i = Some (mkCaller c pc) →
      ∃ pc', callers y' !! i = Some (mkCaller c pc')
             ∧ ∀ ret err, pc = AtReturn ret err → pc' = pc.
Proof.
  intros Hr.
  apply (reach_invariant
           (λ y1, length (callers y1) = length (callers y)
                  ∧ ∀ i c pc, callers y !! i = Some (mkCaller c pc) →
                      ∃ pc', callers y1 !! i = Some (mkCaller c pc')
                             ∧ ∀ ret err, pc = AtReturn ret err → pc' = pc))
    with (y := y); [|done|].
  - intros a y1 y2 Ha Hexec [Hlen Hcs].
    destruct (goroutine_step_callers a y1 y2 Ha Hexec) as [Hlen' Hcs'].
    split; [congruence|]. intros i c pc Hl.
    destruct (Hcs i c pc Hl) as (pc1 & Hl1 & Hret1).
    destruct (Hcs' i c pc1 Hl1) as (pc2 & Hl2 & Hret2).
    exists pc2. split; [done|]. intros ret err ->.
    rewrite (Hret1 ret err eq_refl) in Hret2. by apply (Hret2 ret err).
  - split; [done|]. intros i c pc Hl. by exists pc.
Qed.

(** *** The notifier finishes its round and reads what is on the channel *)

Lemma sweep_finish (y : @Sys V) :
  on_track y → ∃ y', reach y y' ∧ sweeping y' = ∅ ∧ store y' = store y.
Proof.
  remember (size (sweeping y)) as n eqn:Hn. revert y Hn.
  induction n as [|n IH]; intros y Hn Ht.
  { exists y. split; [apply reach_refl|]. split; [|done].
    symmetry in Hn. by apply size_empty_inv, leibniz_equiv in Hn. }
  destruct (set_choose_L (sweeping y)) as [id Hid].
  { intros Hempty. rewrite Hempty, size_empty in Hn. done. }
  assert (exec worker (AVisit id) y
          = Some (set_notifier (notifyAll_visit (store y) id (notifier y))
                    (sweeping y ∖ {[id]}) y)) as Hexec.
  { unfold exec, notifier_visit.
    by rewrite (o_alive x b y (t_one x P b y Ht)), bool_decide_eq_true_2. }
  pose proof (goroutine_step_on_track (AVisit id) _ _ I Hexec Ht) as Ht1.
  destruct (λ Hsize, IH _ Hsize Ht1) as (y' & Hr & Hsw & Hst).
  { simpl. rewrite size_difference by set_solver. rewrite size_singleton. lia. }
  exists y'. split; [|done].
  eapply reach_trans; [by eapply (reach_step (AVisit id))|done].
Qed.

Lemma chan_drain (y : @Sys V) :
  on_track y → ∃ y', reach y y' ∧ sweeping y' = ∅ ∧ chan (store y') = [].
Proof.
  remember (length (chan (store y))) as n eqn:Hn. revert y Hn.
  induction n as [|n IH]; intros y Hn Ht;
    destruct (sweep_finish y Ht) as (y1 & Hr1 & Hsw1 & Hst1).
  { exists y1. split_and!; [done..|]. rewrite Hst1.
    by destruct (chan (store y)). }
  pose proof (reach_on_track y y1 Hr1 Ht) as Ht1.
  destruct (chan (store y)) as [|m rest] eqn:Hch; [done|].
  assert (∃ y2, exec worker AReceive y1 = Some y2
                ∧ chan (store y2) = rest) as (y2 & Hexec & Hch2).
  { unfold exec, notifier_receive.
    rewrite (o_alive x b y1 (t_one x P b y1 Ht1)), bool_decide_eq_true_2 by done.
    rewrite Hst1, Hch. case_bool_decide; eexists; (split; [done|]); simpl;
      by rewrite Hch. }
  destruct (IH y2) as (y' & Hr & Hsw & Hc).
  { rewrite Hch2. simpl in Hn. lia. }
  { by apply (goroutine_step_on_track AReceive y1). }
  exists y'. split; [|done].
  eapply reach_trans; [exact Hr1|].
  eapply reach_trans; [by eapply (reach_step AReceive)|done].
Qed.

(** *** The dequeue loop and a worker bring the record *)

Lemma run_write (y : @Sys V) (w : nat) (id : string)
    (rec : writeKey * string * bool) :
  on_track y → workers y !! w = Some (WWrite id rec) →
  ∃ y', reach y y' ∧ has_payload (store y').
Proof.
  intros Ht Hw. destruct Ht as [Hs Ho _ _].
  pose proof (o_workers x b y Ho w _ Hw) as Hid. simpl in Hid. subst id.
  rewrite (s_workers x P b y Hs w rec Hw) in Hw.
  eexists. split.
  - apply (reach_step (AWorker w)); [done|]. unfold exec, worker_step.
    by rewrite (o_alive x b y Ho), Hw.
  - unfold has_payload. simpl. by rewrite lookup_insert_eq.
Qed.

Lemma run_call (y : @Sys V) (w : nat) (t : workerTask) :
  on_track y → workers y !! w = Some (WCall t) →
  ∃ y', reach y y' ∧ has_payload (store y').
Proof.
  intros Ht Hw.
  pose proof (o_workers x b y (t_one x P b y Ht) w _ Hw) as Hid. simpl in Hid.
  assert (exec worker (AWorker w) y
          = Some (set_worker w (WWrite (task_id t) (worker_record (Some P) None))
                    (log_call t y))) as Hexec.
  { unfold exec, worker_step.
    by rewrite (o_alive x b y (t_one x P b y Ht)), Hw, Hid, worker_returns. }
  destruct (run_write _ w (task_id t) (worker_record (Some P) None)
              (goroutine_step_on_track (AWorker w) _ _ I Hexec Ht))
    as (y' & Hr & Hp).
  { simpl. apply list_lookup_insert_eq. by eapply lookup_lt_Some. }
  exists y'. split; [|done].
  eapply reach_trans; [by eapply (reach_step (AWorker w))|done].
Qed.

Lemma run_handoff (y : @Sys V) (w : nat) (t : workerTask) (hasMore : bool) :
  on_track y → sched y = SSend t hasMore → workers y !! w = Some WReceive →
  ∃ y', reach y y' ∧ has_payload (store y').
Proof.
  intros Ht Hsch Hw.
  assert (exec worker (AHandoff w) y
          = Some (set_worker w (WCall t)
                    (set_sched (if hasMore then SDequeue else SCheck) y)))
    as Hexec.
  { unfold exec, handoff_step.
    by rewrite (o_alive x b y (t_one x P b y Ht)), Hsch, Hw. }
  destruct (run_call _ w t
              (goroutine_step_on_track (AHandoff w) _ _ I Hexec Ht))
    as (y' & Hr & Hp).
  { simpl. apply list_lookup_insert_eq. by eapply lookup_lt_Some. }
  exists y'. split; [|done].
  eapply reach_trans; [by eapply (reach_step (AHandoff w))|done].
Qed.

Lemma run_sadd (y : @Sys V) (w : nat) (id : string) (priority itemsLeft : Z) :
  on_track y → sched y = SSadd id priority itemsLeft →
  workers y !! w = Some WReceive →
  ∃ y', reach y y' ∧ has_payload (store y').
Proof.
  intros Ht Hsch Hw.
  assert (exec worker ASched y
          = Some (set_sched (SSend (mkTask id priority) (Z.ltb 0 itemsLeft))
                    (set_store (SADD id (store y)) y))) as Hexec.
  { unfold exec, sched_step.
    by rewrite (o_alive x b y (t_one x P b y Ht)), Hsch. }
  destruct (run_handoff _ w (mkTask id priority) (Z.ltb 0 itemsLeft)
              (goroutine_step_on_track ASched _ _ I Hexec Ht) eq_refl Hw)
    as (y' & Hr & Hp).
  exists y'. split; [|done].
  eapply reach_trans; [by eapply (reach_step ASched)|done].
Qed.

Lemma run_dequeue (y : @Sys V) (w : nat) :
  on_track y → sched y = SDequeue → queue (store y) ≠ ∅ →
  workers y !! w = Some WReceive →
  ∃ y', reach y y' ∧ has_payload (store y').
Proof.
  intros Ht Hsch Hq Hw.
  destruct (zfirst (queue (store y))) as [[id p]|] eqn:Hz;
    [|by apply zfirst_None in Hz].
  destruct (for_one_id_first y id p (t_one x P b y Ht) Hz) as (_ & _ & Hparse).
  destruct (dequeue_pop_first _ _ _ Hz) as (s1 & Hpop & _).
  assert (exec worker ASched y
          = Some (set_sched (SSadd id p (Z.of_nat (size (queue s1))))
                    (set_store s1 y))) as Hexec.
  { unfold exec, sched_step.
    by rewrite (o_alive x b y (t_one x P b y Ht)), Hsch, Hpop, Hparse. }
  destruct (run_sadd _ w id p (Z.of_nat (size (queue s1)))
              (goroutine_step_on_track ASched _ _ I Hexec Ht) eq_refl Hw)
    as (y' & Hr & Hp).
  exists y'. split; [|done].
  eapply reach_trans; [by eapply (reach_step ASched)|done].
Qed.

Lemma run_check (y : @Sys V) (w : nat) :
  on_track y → sched y = SCheck → queue (store y) ≠ ∅ →
  workers y !! w = Some WReceive →
  ∃ y', reach y y' ∧ has_payload (store y').
Proof.
  intros Ht Hsch Hq Hw.
  assert (exec worker ASched y
          = Some (set_sched SDequeue (set_store (BLPOP (store y)).2 y)))
    as Hexec.
  { unfold exec, sched_step.
    by rewrite (o_alive x b y (t_one x P b y Ht)), Hsch. }
  destruct (run_dequeue _ w
              (goroutine_step_on_track ASched _ _ I Hexec Ht) eq_refl)
    as (y' & Hr & Hp); [by simpl; rewrite queue_BLPOP|done|].
  exists y'. split; [|done].
  eapply reach_trans; [by eapply (reach_step ASched)|done].
Qed.

(** Once a task is on its way the record can be brought. *)
Lemma pipeline_finish (y : @Sys V) :
  on_track y → has_payload (store y) ∨ in_pipeline y →
  ∃ y', reach y y' ∧ has_payload (store y').
Proof.
  intros Ht [Hp|Hpipe]; [exists y; split; [apply reach_refl|done]|].
  assert (∀ w pc, workers y !! w = Some pc → pc ≠ WReceive →
            ∃ y', reach y y' ∧ has_payload (store y')) as Hbusy.
  { intros w [|t|id rec] Hw Hne; [done|by eapply run_call|by eapply run_write]. }
  destruct (workers y !! 0%nat) as [pc0|] eqn:Hw0.
  2: { apply lookup_ge_None in Hw0.
       pose proof (o_a_worker x b y (t_one x P b y Ht)). lia. }
  destruct pc0 as [|t0|id0 rec0]; [|by eapply Hbusy..].
  destruct Hpipe as [Hq|[(id & p & c & Hsch)|[(t & hm & Hsch)|(w & pc & Hw & Hne)]]].
  - destruct (sched y) as [| |id p c|t hm] eqn:Hsch.
    + by eapply run_check.
    + by eapply run_dequeue.
    + by eapply run_sadd.
    + by eapply run_handoff.
  - by eapply run_sadd.
  - by eapply run_handoff.
  - exact (Hbusy w pc Hw Hne).
Qed.

(** A caller brings the record: it is past [enqueue], or it gets there. *)
Lemma caller_brings_record (y : @Sys V) (i : nat) (c : call) (pc : callerPc) :
  on_track y → callers y !! i = Some (mkCaller c pc) →
  ∃ y', reach y y' ∧ has_payload (store y').
Proof.
  intros Ht Hl.
  assert (∀ y1 pc1, on_track y1 → callers y1 !! i = Some (mkCaller c pc1) →
            past_enqueue pc1 → ∃ y', reach y1 y' ∧ has_payload (store y'))
    as Hpast.
  { intros y1 pc1 Ht1 Hl1 Hp1. apply pipeline_finish; [done|].
    by apply (o_waiting x b y1 (t_one x P b y1 Ht1) i c pc1). }
  assert (∀ y1 pc1 y2, (pc1 = AtGet ∨ pc1 = AtEnqueue ∨ pc1 = AtSave) →
            on_track y1 → callers y1 !! i = Some (mkCaller c pc1) →
            (∀ pc2, callers y2 !! i = Some (mkCaller c pc2) → on_track y2 →
                    ∃ y', reach y2 y' ∧ has_payload (store y')) →
            (∀ y2', exec worker (ACaller i) y1 = Some y2' → y2' = y2) →
            ∃ y', reach y1 y' ∧ has_payload (store y')) as Hmove.
  { intros y1 pc1 y2 Hpc Ht1 Hl1 Hnext Hy2.
    assert (is_Some (exec worker (ACaller i) y1)) as [y2' Hexec].
    { unfold exec, caller_step.
      rewrite (o_alive x b y1 (t_one x P b y1 Ht1)), Hl1.
      by destruct Hpc as [->|[->| ->]]. }
    pose proof (Hy2 y2' Hexec) as ->.
    destruct (goroutine_step_callers (ACaller i) y1 y2 I Hexec) as [_ Hcs].
    destruct (Hcs i c pc1 Hl1) as (pc2 & Hl2 & _).
    destruct (Hnext pc2 Hl2 (goroutine_step_on_track (ACaller i) _ _ I Hexec Ht1))
      as (y' & Hr & Hp).
    exists y'. split; [|done].
    eapply reach_trans; [by eapply (reach_step (ACaller i))|done]. }
  assert (∀ y1, on_track y1 → callers y1 !! i = Some (mkCaller c AtSave) →
            ∃ y', reach y1 y' ∧ has_payload (store y')) as Hsave.
  { intros y1 Ht1 Hl1.
    apply (Hmove y1 AtSave
             (set_caller i c AtSubscribe
                (set_store (enqueue_save (call_id c) (call_priority c) (store y1))
                   y1))); [by auto|done|done| |].
    - intros pc2 Hl2 Ht2. pose proof Hl2 as Hl2'. simpl in Hl2'.
      rewrite list_lookup_insert_eq in Hl2' by by eapply lookup_lt_Some.
      injection Hl2' as <-. by apply (Hpast _ AtSubscribe).
    - intros y2'. unfold exec, caller_step.
      rewrite (o_alive x b y1 (t_one x P b y1 Ht1)), Hl1. by intros [= <-]. }
  assert (∀ y1, on_track y1 → callers y1 !! i = Some (mkCaller c AtEnqueue) →
            ∃ y', reach y1 y' ∧ has_payload (store y')) as Henq.
  { intros y1 Ht1 Hl1.
    apply (Hmove y1 AtEnqueue
             (set_caller i c
                (after_check (enqueue_check (store y1) (call_id c))
                   (call_priority c)) y1)); [by auto|done|done| |].
    - intros pc2 Hl2 Ht2. pose proof Hl2 as Hl2'. simpl in Hl2'.
      rewrite list_lookup_insert_eq in Hl2' by by eapply lookup_lt_Some.
      injection Hl2' as Hpc2.
      destruct (after_check_cases (V := V) (enqueue_check (store y1) (call_id c))
                  (call_priority c)) as [[Heq _]|[Heq|Heq]];
        rewrite Heq in Hpc2; subst pc2;
        [by apply Hsave|by apply (Hpast _ AtRecheck)
        |by apply (Hpast _ AtSubscribe)].
    - intros y2'. unfold exec, caller_step.
      rewrite (o_alive x b y1 (t_one x P b y1 Ht1)), Hl1. by intros [= <-]. }
  destruct pc as [| | | | | |ret err];
    [|by apply Henq|by apply Hsave|by apply (Hpast y _ Ht Hl)..].
  apply (Hmove y AtGet
           (set_caller i c
              (after_get (getResultErr (store y) (call_id c) (call_returnBytes c)))
              y)); [by auto|done|done| |].
  - intros pc2 Hl2 Ht2. pose proof Hl2 as Hl2'. simpl in Hl2'.
    rewrite list_lookup_insert_eq in Hl2' by by eapply lookup_lt_Some.
    injection Hl2' as Hpc2.
    destruct (after_get_cases (getResultErr (store y) (call_id c)
                                 (call_returnBytes c)))
      as [Heq|(ret & err & Heq)]; rewrite Heq in Hpc2; subst pc2;
      [by apply Henq|by apply (Hpast _ (AtReturn ret err))].
  - intros y2'. unfold exec, caller_step.
    rewrite (o_alive x b y (t_one x P b y Ht)), Hl. by intros [= <-].
Qed.

(** *** With the record there, every caller returns *)

Lemma caller_next (i : nat) (c : call) (pc : callerPc) (y y' : @Sys V) :
  exec worker (ACaller i) y = Some y' →
  callers y !! i = Some (mkCaller c pc) →
  ∃ pc', callers y' !! i = Some (mkCaller c pc') ∧ caller_moves pc pc'.
Proof.
  intros Hexec Hl. unfold exec in Hexec. destruct (panicked y); [done|].
  assert (i < length (callers y))%nat as Hlt by by eapply lookup_lt_Some.
  apply caller_step_inv in Hexec as (c2 & pc2 & Hl2 & Hstep).
  rewrite Hl in Hl2. injection Hl2 as <- <-.
  destruct pc as [| | | | | |ret err];
    [subst y'|subst y'|subst y'|destruct Hstep as [_ ->]
    |destruct Hstep as [_ ->]|subst y'|done];
    (eexists; split; [simpl; by apply list_lookup_insert_eq|]); try done.
  - apply after_get_cases.
  - destruct (after_check_cases (V := V) (enqueue_check (store y) (call_id c))
                (call_priority c)) as [[-> _]|[->| ->]]; simpl; auto.
  - by eexists _, _.
Qed.

Lemma all_woken_step (i : nat) (y y' : @Sys V) :
  exec worker (ACaller i) y = Some y' → all_woken y → all_woken y'.
Proof.
  intros Hexec (Ht & Hp & Hsw & Hwa).
  split; [by apply (goroutine_step_on_track (ACaller i) y)|].
  split; [by apply (has_payload_step (ACaller i) y); [|apply Ht|apply Ht|]|].
  unfold exec in Hexec. destruct (panicked y); [done|].
  apply caller_step_inv in Hexec as (c & pc & Hl & Hstep).
  destruct (o_callers x b y (t_one x P b y Ht) i c pc Hl) as [Hid _].
  destruct pc as [| | | | | |ret err];
    [subst y'|subst y'|subst y'|destruct Hstep as [_ ->]
    |destruct Hstep as [_ ->]|subst y'|done]; try done.
  split; [done|].
  change (watchIds (on_subscription (store y) (mkSub (call_id c) i) (notifier y))
          !! x = None).
  unfold on_subscription. cbn [sub_id sub_notifyCh].
  rewrite Hid, (has_payload_finished _ Hp), notifyChannels_watch.
  by rewrite decide_True.
Qed.

Lemma all_woken_enabled (i : nat) (c : call) (pc : callerPc) (y : @Sys V) :
  all_woken y → callers y !! i = Some (mkCaller c pc) →
  (∀ ret err, pc ≠ AtReturn ret err) →
  is_Some (exec worker (ACaller i) y).
Proof.
  intros (Ht & Hp & Hsw & Hwa) Hl Hpc. unfold exec, caller_step.
  rewrite (o_alive x b y (t_one x P b y Ht)), Hl.
  destruct pc as [| | | | | |ret err]; try done.
  - by rewrite bool_decide_eq_true_2.
  - rewrite bool_decide_eq_true_2; [done|].
    destruct (o_callers x b y (t_one x P b y Ht) i c _ Hl) as [Hid _].
    destruct (f_waiting y (t_channels x P b y Ht) i c Hl)
      as [Hd|(chs & Hw & _)]; [done|].
    rewrite Hid in Hw. congruence.
  - by destruct (Hpc ret err).
Qed.

Lemma caller_finish (i : nat) (c : call) (pc : callerPc) (y : @Sys V) :
  all_woken y → callers y !! i = Some (mkCaller c pc) →
  ∃ y', reach y y' ∧ all_woken y'
        ∧ ∃ ret err, callers y' !! i = Some (mkCaller c (AtReturn ret err)).
Proof.
  set (finishes := λ y1 : @Sys V,
         ∃ y', reach y1 y' ∧ all_woken y'
               ∧ ∃ ret err, callers y' !! i = Some (mkCaller c (AtReturn ret err))).
  assert (∀ pc1 (y1 : @Sys V),
            (∀ y2 pc2, all_woken y2 → callers y2 !! i = Some (mkCaller c pc2) →
                       caller_moves pc1 pc2 → finishes y2) →
            all_woken y1 → callers y1 !! i = Some (mkCaller c pc1) →
            (∀ ret err, pc1 ≠ AtReturn ret err) → finishes y1) as Hchain.
  { intros pc1 y1 Hnext Hy1 Hl1 Hpc1.
    destruct (all_woken_enabled i c pc1 y1 Hy1 Hl1 Hpc1) as [y2 Hexec].
    destruct (caller_next i c pc1 y1 y2 Hexec Hl1) as (pc2 & Hl2 & Hmoves).
    destruct (Hnext y2 pc2 (all_woken_step i y1 y2 Hexec Hy1) Hl2 Hmoves)
      as (y' & Hr' & Hy' & Hret).
    exists y'. split; [|done].
    eapply reach_trans; [by apply (reach_step (ACaller i))|done]. }
  assert (∀ (y1 : @Sys V) ret err,
            all_woken y1 → callers y1 !! i = Some (mkCaller c (AtReturn ret err)) →
            finishes y1) as Hreturn.
  { intros y1 ret err Hy1 Hl1. exists y1. split; [apply reach_refl|].
    split; [done|]. by exists ret, err. }
  assert (∀ y1 : @Sys V,
            all_woken y1 → callers y1 !! i = Some (mkCaller c AtRecheck) →
            finishes y1) as Hrecheck.
  { intros y1 Hy1 Hl1. apply (Hchain AtRecheck y1); [|done..].
    intros y2 pc2 Hy2 Hl2 (ret & err & ->). by eapply Hreturn. }
  assert (∀ y1 : @Sys V,
            all_woken y1 → callers y1 !! i = Some (mkCaller c AtBlocked) →
            finishes y1) as Hblocked.
  { intros y1 Hy1 Hl1. apply (Hchain AtBlocked y1); [|done..].
    intros y2 pc2 Hy2 Hl2 ->. by apply Hrecheck. }
  assert (∀ y1 : @Sys V,
            all_woken y1 → callers y1 !! i = Some (mkCaller c AtSubscribe) →
            finishes y1) as Hsubscribe.
  { intros y1 Hy1 Hl1. apply (Hchain AtSubscribe y1); [|done..].
    intros y2 pc2 Hy2 Hl2 ->. by apply Hblocked. }
  assert (∀ y1 : @Sys V,
            all_woken y1 → callers y1 !! i = Some (mkCaller c AtSave) →
            finishes y1) as Hsave.
  { intros y1 Hy1 Hl1. apply (Hchain AtSave y1); [|done..].
    intros y2 pc2 Hy2 Hl2 ->. by apply Hsubscribe. }
  assert (∀ y1 : @Sys V,
            all_woken y1 → callers y1 !! i = Some (mkCaller c AtEnqueue) →
            finishes y1) as Henqueue.
  { intros y1 Hy1 Hl1. apply (Hchain AtEnqueue y1); [|done..].
    intros y2 pc2 Hy2 Hl2 [->|[->| ->]];
      [by apply Hsave|by apply Hrecheck|by apply Hsubscribe]. }
  intros Hy Hl. destruct pc as [| | | | | |ret err];
    [|by apply Henqueue|by apply Hsave|by apply Hsubscribe|by apply Hblocked
     |by apply Hrecheck|by eapply Hreturn].
  apply (Hchain AtGet y); [|done..].
  intros y2 pc2 Hy2 Hl2 [->|(ret & err & ->)];
    [by apply Henqueue|by eapply Hreturn].
Qed.

Lemma all_callers_finish (k : nat) (y : @Sys V) :
  all_woken y → (k ≤ length (callers y))%nat →
  ∃ y', reach y y' ∧ all_woken y' ∧ returned_upto k y'.
Proof.
  induction k as [|k IH]; intros Hy Hk.
  { exists y. split; [apply reach_refl|]. split; [done|].
    intros i c pc Hi. lia. }
  destruct IH as (y1 & Hr1 & Hy1 & Hret1); [done|lia|].
  destruct (reach_callers y y1 Hr1) as [Hlen1 _].
  destruct (lookup_lt_is_Some_2 (callers y1) k) as [[c pc] Hl]; [lia|].
  destruct (caller_finish k c pc y1 Hy1 Hl) as (y2 & Hr2 & Hy2 & ret & err & Hl2).
  exists y2. split; [by eapply reach_trans|]. split; [done|].
  intros i c' pc' Hi Hl'.
  destruct (decide (i = k)) as [->|Hne].
  { rewrite Hl2 in Hl'. injection Hl' as <- <-. by exists ret, err. }
  destruct (lookup_lt_is_Some_2 (callers y1) i) as [[c1 pc1] Hl1]; [lia|].
  destruct (Hret1 i c1 pc1) as (ret1 & err1 & ->); [lia|done|].
  destruct (reach_callers y1 y2 Hr2) as [_ Hcs].
  destruct (Hcs i c1 _ Hl1) as (pc2 & Hl2' & Hsame).
  rewrite Hl' in Hl2'. injection Hl2' as -> ->.
  exists ret1, err1. by apply (Hsame ret1 err1).
Qed.

(** From any state that the invariants hold in, the goroutines can go on
    until every caller has returned the payload. *)
Lemma progress_core (y : @Sys V) :
  on_track y →
  ∃ y', reach y y'
    ∧ ∀ i c pc, callers y !! i = Some (mkCaller c pc) →
        callers y' !! i
        = Some (mkCaller c
                  (AtReturn (Some (payload (call_returnBytes c))) None)).
Proof.
  intros Ht.
  destruct (callers y !! 0%nat) as [[c0 pc0]|] eqn:Hl0.
  2: { exists y. split; [apply reach_refl|]. intros i c pc Hl.
       apply lookup_ge_None in Hl0. apply lookup_lt_Some in Hl. lia. }
  destruct (caller_brings_record y 0 c0 pc0 Ht Hl0) as (y1 & Hr1 & Hp1).
  pose proof (reach_on_track y y1 Hr1 Ht) as Ht1.
  destruct (chan_drain y1 Ht1) as (y2 & Hr2 & Hsw2 & Hch2).
  pose proof (reach_on_track y1 y2 Hr2 Ht1) as Ht2.
  pose proof (reach_payload y1 y2 Hr2 Ht1 Hp1) as Hp2.
  assert (all_woken y2) as Hy2.
  { split_and!; [done..|].
    destruct (watchIds (notifier y2) !! x) as [chs|] eqn:Hw; [|done].
    destruct (t_wake_up x P b y2 Ht2 Hp2) as [Hin|[Hin|Hin]].
    - by rewrite Hw.
    - rewrite Hch2 in Hin. by apply elem_of_nil in Hin.
    - rewrite Hch2 in Hin. by apply elem_of_nil in Hin.
    - rewrite Hsw2 in Hin. by apply elem_of_empty in Hin. }
  destruct (all_callers_finish (length (callers y2)) y2 Hy2)
    as (y3 & Hr3 & Hy3 & Hret3); [done|].
  exists y3. split; [eapply reach_trans; [|eapply reach_trans]; done|].
  intros i c pc Hl.
  destruct (reach_callers y y3) as [Hlen Hcs].
  { eapply reach_trans; [|eapply reach_trans]; done. }
  destruct (Hcs i c pc Hl) as (pc3 & Hl3 & _).
  destruct (reach_callers y2 y3 Hr3) as [Hlen3 _].
  destruct (Hret3 i c pc3) as (ret & err & ->);
    [apply lookup_lt_Some in Hl3; lia|done|].
  destruct Hy3 as (Ht3 & _).
  destruct (o_callers x b y3 (t_one x P b y3 Ht3) i c _ Hl3) as [Hid _].
  destruct (s_returned x P b y3 (t_serving x P b y3 Ht3) i c ret err Hl3 Hid)
    as [-> ->].
  done.
Qed.

Lemma on_track_init (s0 : Redis) (nWorkers : nat) :
  (0 < nWorkers)%nat →
  fresh s0 → queue s0 = ∅ → inProgress s0 = ∅ →
  (x ∈ chan s0 → x = "" ∨ has_payload s0) →
  on_track (init s0 nWorkers).
Proof.
  intros Hn Hf Hq Hin Hch. constructor.
  - by apply serving_init.
  - constructor; simpl.
    + done.
    + by rewrite length_replicate.
    + intros i c pc Hl. by rewrite lookup_nil in Hl.
    + intros id score. by rewrite Hq, lookup_empty.
    + done.
    + by intros w pc [-> _]%lookup_replicate.
    + intros id. by rewrite Hin, elem_of_empty.
    + intros i c pc Hl. by rewrite lookup_nil in Hl.
  - constructor; unfold filed; simpl.
    + intros id i (chs & Hl & _). by rewrite lookup_empty in Hl.
    + intros id chs Hl. by rewrite lookup_empty in Hl.
    + by intros i ?%elem_of_empty.
    + intros i c Hl. by rewrite lookup_nil in Hl.
  - intros _ [chs Hl]. simpl in Hl. by rewrite lookup_empty in Hl.
Qed.

Lemma run_invariant_on (Pa : action → Prop) (I : @Sys V → Prop) :
  (∀ a y y', Pa a → exec worker a y = Some y' → I y → I y') →
  ∀ tr y y', Forall Pa tr → run worker tr y = Some y' → I y → I y'.
Proof.
  intros Hstep tr. induction tr as [|a tr IH]; intros y y' Htr Hrun Hy;
    simpl in Hrun.
  - by injection Hrun as <-.
  - destruct (exec worker a y) as [y1|] eqn:He; [|done].
    apply Forall_cons in Htr as [Ha Htr]. eauto.
Qed.


End Progress.



(** The cold call of a caller that subscribes before the worker has
    written: it is blocked until the notifier receives the message of the
    write and sends on its channel, and then returns the payload. *)
Example blocked_caller_is_woken_by_the_message :
  ∃ y1 y2 y3,
    run (codec := taggedCodec) pickyWorker
      [ ACall (CallGet 1 false "x");
        ACaller 0; ACaller 0; ACaller 0; ACaller 0;
        ASched; ASched; ASched; AHandoff 0; AWorker 0; AWorker 0 ]
      (init emptyRedis 1) = Some y1
    ∧ callers y1 = [mkCaller (CallGet 1 false "x") AtBlocked]
    ∧ delivered (notifier y1) = ∅
    ∧ chan (store y1) = ["x"]
    ∧ exec (codec := taggedCodec) pickyWorker (ACaller 0) y1 = None
    ∧ exec (codec := taggedCodec) pickyWorker AReceive y1 = Some y2
    ∧ delivered (notifier y2) = {[ 0%nat ]}
    ∧ run (codec := taggedCodec) pickyWorker [ACaller 0; ACaller 0] y2 = Some y3
    ∧ callers y3
      = [mkCaller (CallGet 1 false "x") (AtReturn (Some (Val "x")) None)]
    ∧ calls y3 = [(1%Z, "x")].
Proof.
  eexists _, _, _. split; [by vm_compute|].
  split; [by vm_compute|]. split; [by vm_compute|]. split; [by vm_compute|].
  split; [by vm_compute|]. split; [by vm_compute|]. split; [by vm_compute|].
  split; [by vm_compute|]. split; by vm_compute.
Qed.

(** A call with a priority whose score [redis.Int64] cannot read is not
    served: the dequeue loop pops the entry, [dequeue] returns the error,
    and the caller is blocked while nothing is queued, in progress or
    held by a goroutine. *)
Example unreadable_priority_is_lost :
  ∃ y, run (codec := taggedCodec) pickyWorker
         [ ACall (CallGet (10 ^ 17) false "x");
           ACaller 0; ACaller 0; ACaller 0; ACaller 0; ASched; ASched ]
         (init emptyRedis 1) = Some y
     ∧ callers y = [mkCaller (CallGet (10 ^ 17) false "x") AtBlocked]
     ∧ delivered (notifier y) = ∅
     ∧ queue (store y) = ∅ ∧ inProgress (store y) = ∅
     ∧ results (store y) = ∅ ∧ chan (store y) = []
     ∧ sched y = SDequeue ∧ workers y = [WReceive] ∧ calls y = [].
Proof. eexists. split; [by vm_compute|]. split_and!; by vm_compute. Qed.
